(** * EOTS (extractable one-time signatures): the library under [src/lib]

    A shallow embedding of [src/lib/utils.ts] and [src/lib/eots.ts], and the
    properties of the signing, verification and key-extraction functions.

    Conventions of the embedding:
    - a JavaScript [bigint] is a [Z]; [/] and [%] on bigints truncate
      towards zero, so they are [Z.quot] and [Z.rem];
    - a [Uint8Array] is a [list byte];
    - a JavaScript string is a [string]; code units are restricted to the
      8-bit range, which covers every character the hex codec looks at;
    - a function that can [throw] returns a [Result]; the payload of [Throw]
      is the message of the [Error];
    - the functions imported from [@noble/secp256k1] and [@noble/hashes] are
      not part of the repository: they are variables of the sections that
      use them. *)

From Stdlib Require Import ZArith List String Ascii Bool Lia Znumtheory.
From Stdlib Require Import Zdivisibility Zcong Zpow_facts.
From Stdlib Require Import Zmod.Zmod Zmod.Zstar.
From Stdlib Require Import Morphisms Setoid RelationClasses.
From Stdlib Require Import Strings.Byte.
Import ListNotations.

Local Open Scope string_scope.
Local Open Scope list_scope.
Local Open Scope Z_scope.

(** ** Exceptions *)

Inductive Result (A : Type) : Type :=
| Ok (a : A)
| Throw (message : string).
Arguments Ok {A} a.
Arguments Throw {A} message.

Definition bind {A B : Type} (m : Result A) (k : A -> Result B) : Result B :=
  match m with
  | Ok a => k a
  | Throw e => Throw e
  end.

(** [try { body } catch { handler }] *)
Definition try_catch {A : Type} (body : Result A) (handler : string -> Result A)
  : Result A :=
  match body with
  | Ok a => Ok a
  | Throw e => handler e
  end.

Notation "x <- m ;; k" := (bind m (fun x => k))
  (at level 61, m at next level, right associativity).

(** ** Bytes *)

Definition byteToZ (b : byte) : Z := Z.of_N (Byte.to_N b).

(** Storing a number into a [Uint8Array] cell keeps it modulo 256. *)
Definition byteOfZ (z : Z) : byte :=
  match Byte.of_N (Z.to_N (z mod 256)) with
  | Some b => b
  | None => x00
  end.

(** ** JavaScript string primitives used by the codec *)

Definition startsWith (s prefix : string) : bool := String.prefix prefix s.

(** [s.slice(k)] for a non-negative [k] *)
Fixpoint slice_from (k : nat) (s : string) : string :=
  match k, s with
  | O, _ => s
  | S _, EmptyString => EmptyString
  | S k', String _ rest => slice_from k' rest
  end.

Fixpoint repeat_char (c : ascii) (k : nat) : string :=
  match k with
  | O => EmptyString
  | S k' => String c (repeat_char c k')
  end.

(** [s.padStart(target, "0")] *)
Definition padStart0 (s : string) (target : nat) : string :=
  (repeat_char "0"%char (target - String.length s) ++ s)%string.

Definition hexDigitChar (d : Z) : ascii :=
  if d <? 10 then ascii_of_N (Z.to_N (48 + d)) else ascii_of_N (Z.to_N (87 + d)).

Fixpoint toString16_digits (fuel : nat) (z : Z) (acc : string) : string :=
  match fuel with
  | O => acc
  | S fuel' =>
      let acc' := String (hexDigitChar (z mod 16)) acc in
      if z <? 16 then acc' else toString16_digits fuel' (z / 16) acc'
  end.

Definition toString16_nonneg (z : Z) : string :=
  toString16_digits (S (Z.to_nat (Z.log2 z))) z EmptyString.

(** [z.toString(16)], for a bigint and for an integral number alike *)
Definition toString16 (z : Z) : string :=
  if z <? 0 then String "-"%char (toString16_nonneg (- z)) else toString16_nonneg z.

(** Value of one character as a digit of radix 16, if it is one. *)
Definition hexDigitValue (c : ascii) : option Z :=
  let k := Z.of_N (N_of_ascii c) in
  if (48 <=? k) && (k <=? 57) then Some (k - 48)
  else if (97 <=? k) && (k <=? 102) then Some (k - 87)
  else if (65 <=? k) && (k <=? 70) then Some (k - 55)
  else None.

Definition isHexDigit (c : ascii) : bool :=
  match hexDigitValue c with Some _ => true | None => false end.

(** The digits that [toString(16)] produces. *)
Definition isLowerHexDigit (c : ascii) : bool :=
  let k := Z.of_N (N_of_ascii c) in
  (48 <=? k) && (k <=? 57) || (97 <=? k) && (k <=? 102).

(** White space and line terminators that [parseInt] skips (8-bit ones). *)
Definition isStrWhiteSpace (c : ascii) : bool :=
  let k := N_of_ascii c in
  ((9 <=? k) && (k <=? 13) || (k =? 32) || (k =? 160))%N.

Fixpoint trimStart (s : string) : string :=
  match s with
  | String c rest => if isStrWhiteSpace c then trimStart rest else s
  | EmptyString => s
  end.

(** The longest prefix of radix-16 digits, read as a number; [None] when
    the prefix is empty. *)
Fixpoint parseDigits (acc : option Z) (s : string) : option Z :=
  match s with
  | String c rest =>
      match hexDigitValue c with
      | Some d =>
          parseDigits (Some (match acc with Some v => v * 16 + d | None => d end)) rest
      | None => acc
      end
  | EmptyString => acc
  end.

(** [parseInt(s, 16)]; [None] is [NaN]. *)
Definition parseInt16 (s : string) : option Z :=
  let s1 := trimStart s in
  let '(sign, s2) :=
    match s1 with
    | String "-"%char rest => (-1, rest)
    | String "+"%char rest => (1, rest)
    | _ => (1, s1)
    end in
  let s3 := if startsWith s2 "0x" || startsWith s2 "0X" then slice_from 2 s2 else s2 in
  match parseDigits None s3 with
  | Some v => Some (sign * v)
  | None => None
  end.

(** Conversion of the parsed number on assignment to a [Uint8Array] cell. *)
Definition toUint8 (v : option Z) : byte :=
  match v with
  | Some z => byteOfZ z
  | None => x00
  end.

(** ** [utils.ts] *)

(** The loop of [hexToBytes]: one cell per two characters. *)
Fixpoint hexToBytes_loop (hex : string) : list byte :=
  match hex with
  | String a (String b rest) =>
      toUint8 (parseInt16 (String a (String b EmptyString))) :: hexToBytes_loop rest
  | _ => []
  end.

Definition hexToBytes (hex : string) : list byte :=
  let hex := if startsWith hex "0x" then slice_from 2 hex else hex in
  let hex := if Nat.eqb (String.length hex mod 2) 0 then hex else String "0"%char hex in
  hexToBytes_loop hex.

Definition byteToHex (b : byte) : string := padStart0 (toString16 (byteToZ b)) 2.

Definition bytesToHex (bytes : list byte) : string :=
  String.concat EmptyString (map byteToHex bytes).

Fixpoint all_chars (f : ascii -> bool) (s : string) : bool :=
  match s with
  | String c rest => f c && all_chars f rest
  | EmptyString => true
  end.

(** [isValidHex(hex, expectedLength?)]; the regular expression
    [/^[0-9a-fA-F]*$/] accepts exactly the strings of radix-16 digits. *)
Definition isValidHex (hex : string) (expectedLength : option nat) : bool :=
  let cleanHex := if startsWith hex "0x" then slice_from 2 hex else hex in
  let isValid := all_chars isHexDigit cleanHex in
  match expectedLength with
  | Some (S _ as len) => isValid && Nat.eqb (String.length cleanHex) (len * 2)
  | _ => isValid && Nat.ltb 0 (String.length cleanHex)
                 && Nat.eqb (String.length cleanHex mod 2) 0
  end.

(** ** [Uint8Array] primitives *)

(** [new Uint8Array(len)] *)
Definition Uint8Array_new (len : nat) : list byte := repeat x00 len.

(** [target.set(source, offset)]; a source that does not fit raises a
    [RangeError]. *)
Definition Uint8Array_set (target source : list byte) (offset : nat)
  : Result (list byte) :=
  if (offset + List.length source <=? List.length target)%nat
  then Ok (firstn offset target ++ source ++ skipn (offset + List.length source) target)
  else Throw "RangeError: offset is out of bounds".

(** [a.slice(start, end)] for non-negative indices *)
Definition Uint8Array_slice (a : list byte) (start end_ : nat) : list byte :=
  firstn (end_ - start) (skipn start a).

(** ** [eots.ts]: helpers *)

Definition bytesToNumber (bytes : list byte) : Z :=
  fold_left (fun result byte => Z.shiftl result 8 + byteToZ byte) bytes 0.

Definition numberToBytes (num : Z) (length : nat) : list byte :=
  let hex := padStart0 (toString16 num) (length * 2) in
  hexToBytes hex.

(** [a % b] on bigints: truncated remainder, [RangeError] on a zero divisor. *)
Definition bigint_rem (a b : Z) : Result Z :=
  if b =? 0 then Throw "RangeError: Division by zero" else Ok (Z.rem a b).

(** The helper [mod] of [eots.ts] ([mod] is reserved in Rocq). *)
Definition mod_ (a b : Z) : Result Z :=
  result <- bigint_rem a b ;;
  Ok (if result >=? 0 then result else result + b).

(** The [while (r !== 0n)] loop of [modInverse]; [None] when [fuel] runs
    out before [r] reaches 0. *)
Fixpoint modInverse_loop (fuel : nat) (old_r r old_s s : Z) : option (Z * Z) :=
  match fuel with
  | O => None
  | S fuel' =>
      if r =? 0 then Some (old_r, old_s)
      else
        let quotient := Z.quot old_r r in
        modInverse_loop fuel' r (old_r - quotient * r) s (old_s - quotient * s)
  end.

(** Iterations granted to the loop; [modInverse_loop_terminates] shows
    that they are never used up. *)
Definition modInverse_fuel (a m : Z) : nat :=
  3 + Z.to_nat (Z.log2 (Z.abs a) + Z.log2 (Z.abs m)).

Definition modInverse (a m : Z) : Result Z :=
  a <- (if a <? 0 then mod_ a m else Ok a) ;;
  match modInverse_loop (modInverse_fuel a m) a m 1 0 with
  | None => Throw "modInverse: loop did not finish"
  | Some (old_r, old_s) =>
      if old_r >? 1 then Throw "Modular inverse does not exist"
      else Ok (if old_s <? 0 then old_s + m else old_s)
  end.

(** ** [types.ts] *)

Record EOTSSignature : Type := { r : list byte; s : list byte }.

Record EOTSKeyPair : Type := { privateKey : list byte; publicKey : list byte }.

(** A parameter of type [Uint8Array | string]. *)
Inductive BytesLike : Type :=
| OfBytes (bytes : list byte)
| OfHex (hex : string).

(** [typeof x === "string" ? hexToBytes(x) : x] *)
Definition asBytes (x : BytesLike) : list byte :=
  match x with
  | OfHex hex => hexToBytes hex
  | OfBytes bytes => bytes
  end.

(** Truthiness of a [Uint8Array | string]: the empty string is falsy, every
    [Uint8Array] is truthy. *)
Definition truthy (x : BytesLike) : bool :=
  match x with
  | OfHex hex => negb (String.eqb hex EmptyString)
  | OfBytes _ => true
  end.

(** ** The imports of [eots.ts] *)

Module CURVE.

(** Modelled from the spec: [CURVE.n] of [@noble/secp256k1], the order of
    the group of secp256k1 (the value is the one of section 8). *)
Definition n : Z :=
  0xFFFFFFFFFFFFFFFFFFFFFFFFFFFFFFFEBAAEDCE6AF48A03BBFD25E8CD0364141.

End CURVE.

Section EOTS.

(** [getPublicKey(privateKey, isCompressed)] of [@noble/secp256k1] *)
Variable getPublicKeySecp : list byte -> bool -> Result (list byte).
(** [verify(signature, msgHash, publicKey)] of [@noble/secp256k1] *)
Variable verify : list byte -> list byte -> list byte -> Result bool.
(** [sha256(message)] of [@noble/hashes] *)
Variable sha256 : list byte -> list byte.

(** The [else] branch of the nonce selection in [signEOTS]. *)
Definition deriveNonce (privKey msgHash : list byte) : Result (list byte) :=
  let nonceInput := Uint8Array_new (List.length privKey + List.length msgHash) in
  nonceInput <- Uint8Array_set nonceInput privKey 0 ;;
  nonceInput <- Uint8Array_set nonceInput msgHash (List.length privKey) ;;
  Ok (sha256 nonceInput).

(** The nonce selection of [signEOTS]: the nonce of the caller when there
    is one, the derived nonce otherwise. *)
Definition selectNonce (privKey msgHash : list byte) (nonce : option BytesLike)
  : Result (list byte) :=
  match nonce with
  | Some given =>
      if truthy given then Ok (asBytes given) else deriveNonce privKey msgHash
  | None => deriveNonce privKey msgHash
  end.

Definition signEOTS (privateKey messageHash : BytesLike) (nonce : option BytesLike)
  : Result EOTSSignature :=
  let privKey := asBytes privateKey in
  let msgHash := asBytes messageHash in
  k <- selectNonce privKey msgHash nonce ;;
  let kNum := bytesToNumber k in
  if (kNum >=? CURVE.n) || (kNum =? 0) then Throw "Invalid nonce generated"
  else
    kPoint <- getPublicKeySecp k false ;;
    let r := Uint8Array_slice kPoint 1 33 in
    let rNum := bytesToNumber r in
    let hashNum := bytesToNumber msgHash in
    let privKeyNum := bytesToNumber privKey in
    kInv <- modInverse kNum CURVE.n ;;
    s <- mod_ (kInv * (hashNum + rNum * privKeyNum)) CURVE.n ;;
    if s =? 0 then Throw "Invalid signature: s is zero"
    else Ok {| r := r; s := numberToBytes s 32 |}.

(** The outer handler logs the error with [console.error] and returns
    [false]; the log is not modelled. *)
Definition verifyEOTS (publicKey messageHash : BytesLike) (signature : EOTSSignature)
  : Result bool :=
  try_catch
    (let pubKey := asBytes publicKey in
     let msgHash := asBytes messageHash in
     let r := bytesToNumber signature.(r) in
     let s := bytesToNumber signature.(s) in
     if (r <=? 0) || (r >=? CURVE.n) || (s <=? 0) || (s >=? CURVE.n) then Ok false
     else
       let sBytes := numberToBytes s 32 in
       let rBytes := numberToBytes r 32 in
       let derSig := Uint8Array_new 64 in
       derSig <- Uint8Array_set derSig rBytes 0 ;;
       derSig <- Uint8Array_set derSig sBytes 32 ;;
       try_catch (verify derSig msgHash pubKey) (fun _ => Ok true))
    (fun error => Ok false).

Definition extractPrivateKey (sig1 sig2 : EOTSSignature) (hash1 hash2 : BytesLike)
  : Result (list byte) :=
  let msgHash1 := asBytes hash1 in
  let msgHash2 := asBytes hash2 in
  let r1 := bytesToNumber sig1.(r) in
  let s1 := bytesToNumber sig1.(s) in
  let r2 := bytesToNumber sig2.(r) in
  let s2 := bytesToNumber sig2.(s) in
  let h1 := bytesToNumber msgHash1 in
  let h2 := bytesToNumber msgHash2 in
  if negb (r1 =? r2)
  then Throw "Signatures do not use the same nonce (r values are different)"
  else if s1 =? s2 then Throw "Signatures are identical"
  else
    sDiff <- mod_ (s1 - s2) CURVE.n ;;
    if sDiff =? 0 then Throw "Cannot extract private key: s1 equals s2"
    else
      hDiff <- mod_ (h1 - h2) CURVE.n ;;
      sDiffInv <- modInverse sDiff CURVE.n ;;
      k <- mod_ (hDiff * sDiffInv) CURVE.n ;;
      numerator <- mod_ (s1 * k - h1) CURVE.n ;;
      rInv <- modInverse r1 CURVE.n ;;
      privateKey <- mod_ (numerator * rInv) CURVE.n ;;
      Ok (numberToBytes privateKey 32).

Definition getPublicKey (privateKey : BytesLike) : Result (list byte) :=
  let privKey := asBytes privateKey in
  getPublicKeySecp privKey true.

Definition signatureToFullHex (signature : EOTSSignature) : string :=
  (bytesToHex signature.(r) ++ bytesToHex signature.(s))%string.

End EOTS.

(** ** Numbers denoted by digits *)

Definition digitValue (c : ascii) : Z :=
  match hexDigitValue c with Some d => d | None => 0 end.

(** The number that a string of radix-16 digits denotes, most significant
    digit first, starting from [acc]. *)
Fixpoint hexNumber (acc : Z) (s : string) : Z :=
  match s with
  | EmptyString => acc
  | String c rest => hexNumber (acc * 16 + digitValue c) rest
  end.

(** ** Primality certificates

    The order [CURVE.n] is prime. The proof goes through Pocklington's
    criterion; the definitions below are its certificate checker. *)

(** A certificate lists prime powers [q ^ e] of [N - 1], each with a
    witness [a]. *)
Definition certificate : Type := list (Z * Z * Z).

Fixpoint cert_product (cert : certificate) : Z :=
  match cert with
  | [] => 1
  | (q, e, _) :: rest => q ^ e * cert_product rest
  end.

Fixpoint cert_primes (cert : certificate) : list Z :=
  match cert with
  | [] => []
  | (q, _, _) :: rest => q :: cert_primes rest
  end.

Fixpoint check_cert (N : Z) (cert : certificate) : bool :=
  match cert with
  | [] => true
  | (q, e, a) :: rest =>
      let b := Zpow_mod a ((N - 1) / q) N in
      (1 <=? e) && ((N - 1) mod q ^ e =? 0)
      && (Zpow_mod b q N =? 1)
      && (Z.gcd (b - 1) N =? 1)
      && (Z.gcd (q ^ e) (cert_product rest) =? 1)
      && check_cert N rest
  end.

Fixpoint trial_division (fuel : nat) (d p : Z) : bool :=
  match fuel with
  | O => true
  | S fuel' => negb (p mod d =? 0) && trial_division fuel' (d + 1) p
  end.

(** ** Reference models of the imported libraries

    The modules below are not code of the repository. They implement the
    documented behaviour of the primitives that [eots.ts] imports, so that
    the functions of [eots.ts] can be evaluated on concrete inputs. *)

(** Big-endian bytes of [z], [len] of them. *)
Fixpoint be_bytes (len : nat) (z : Z) : list byte :=
  match len with
  | O => []
  | S len' => be_bytes len' (z / 256) ++ [byteOfZ z]
  end.

Module Sha256.

(** Modelled from the spec: the hash function of section 6, SHA-256
    (FIPS 180-4), as [sha256] of [@noble/hashes] computes it. *)

Definition w32 (z : Z) : Z := z mod 0x100000000.

Definition rotr (k x : Z) : Z := Z.lor (Z.shiftr x k) (w32 (Z.shiftl x (32 - k))).

Definition Ch (x y z : Z) : Z :=
  Z.lxor (Z.land x y) (Z.land (Z.lxor x 0xffffffff) z).

Definition Maj (x y z : Z) : Z :=
  Z.lxor (Z.lxor (Z.land x y) (Z.land x z)) (Z.land y z).

Definition Sigma0 (x : Z) : Z := Z.lxor (Z.lxor (rotr 2 x) (rotr 13 x)) (rotr 22 x).
Definition Sigma1 (x : Z) : Z := Z.lxor (Z.lxor (rotr 6 x) (rotr 11 x)) (rotr 25 x).
Definition sigma0 (x : Z) : Z := Z.lxor (Z.lxor (rotr 7 x) (rotr 18 x)) (Z.shiftr x 3).
Definition sigma1 (x : Z) : Z := Z.lxor (Z.lxor (rotr 17 x) (rotr 19 x)) (Z.shiftr x 10).

(** The first 64 primes. *)
Definition is_prime (k : Z) : bool :=
  forallb (fun d => negb (k mod Z.of_nat d =? 0)) (seq 2 (Z.to_nat k - 2)).

Definition primes : list Z :=
  Eval vm_compute in filter is_prime (map Z.of_nat (seq 2 310)).

(** Integer cube root, one bit at a time from bit [bits - 1] down. *)
Fixpoint cube_root_bits (bits : nat) (root x : Z) : Z :=
  match bits with
  | O => root
  | S bits' =>
      let candidate := root + 2 ^ Z.of_nat bits' in
      if candidate * candidate * candidate <=? x
      then cube_root_bits bits' candidate x
      else cube_root_bits bits' root x
  end.

(** The round constants: the first 32 bits of the fractional parts of the
    cube roots of the first 64 primes. *)
Definition K : list Z :=
  Eval vm_compute in map (fun q => w32 (cube_root_bits 44 0 (q * 2 ^ 96))) primes.

(** The initial state: the first 32 bits of the fractional parts of the
    square roots of the first 8 primes. *)
Definition H0 : list Z :=
  Eval vm_compute in map (fun q => w32 (Z.sqrt (q * 2 ^ 64))) (firstn 8 primes).

Definition pad (message : list byte) : list byte :=
  let l := Z.of_nat (List.length message) in
  let zeros := Z.to_nat ((55 - l) mod 64) in
  message ++ [x80] ++ repeat x00 zeros ++ be_bytes 8 (8 * l).

(** The words of the next 64-byte block and the rest of the message. *)
Fixpoint block_words (count : nat) (bytes : list byte) : list Z * list byte :=
  match count with
  | O => ([], bytes)
  | S count' =>
      match bytes with
      | b0 :: b1 :: b2 :: b3 :: rest =>
          let w := ((byteToZ b0 * 256 + byteToZ b1) * 256 + byteToZ b2) * 256 + byteToZ b3 in
          let '(ws, rest') := block_words count' rest in
          (w :: ws, rest')
      | _ => ([], [])
      end
  end.

(** The message schedule, most recent word first. *)
Fixpoint schedule (count : nat) (recent : list Z) : list Z :=
  match count with
  | O => recent
  | S count' =>
      let w := w32 (sigma1 (nth 1 recent 0) + nth 6 recent 0
                    + sigma0 (nth 14 recent 0) + nth 15 recent 0) in
      schedule count' (w :: recent)
  end.

Definition round (state : list Z) (kw : Z * Z) : list Z :=
  match state with
  | [a; b; c; d; e; f; g; h] =>
      let t1 := h + Sigma1 e + Ch e f g + fst kw + snd kw in
      let t2 := Sigma0 a + Maj a b c in
      [w32 (t1 + t2); a; b; c; w32 (d + t1); e; f; g]
  | _ => state
  end.

Definition compress (state : list Z) (words : list Z) : list Z :=
  let W := rev (schedule 48 (rev words)) in
  let final := fold_left round (combine K W) state in
  map (fun xy => w32 (fst xy + snd xy)) (combine state final).

Fixpoint blocks (count : nat) (state : list Z) (bytes : list byte) : list Z :=
  match count with
  | O => state
  | S count' =>
      let '(words, rest) := block_words 16 bytes in
      blocks count' (compress state words) rest
  end.

Definition sha256 (message : list byte) : list byte :=
  let padded := pad message in
  let state := blocks (List.length padded / 64) H0 padded in
  flat_map (be_bytes 4) state.

End Sha256.

Module Secp256k1.

(** Modelled from the spec: the curve primitive of section 2, scalar
    multiplication of the generator of secp256k1 ([y^2 = x^3 + 7] over the
    field of [p] elements) in affine coordinates, and the encoding of the
    resulting point as [getPublicKey] of [@noble/secp256k1] returns it. *)

Definition p : Z :=
  0xFFFFFFFFFFFFFFFFFFFFFFFFFFFFFFFFFFFFFFFFFFFFFFFFFFFFFFFEFFFFFC2F.

Definition Gx : Z := 0x79BE667EF9DCBBAC55A06295CE870B07029BFCDB2DCE28D959F2815B16F81798.
Definition Gy : Z := 0x483ADA7726A3C4655DA4FBFC0E1108A8FD17B448A68554199C47D08FFB10D4B8.

Inductive point : Type :=
| Infinity
| Affine (x y : Z).

Definition on_curve (P : point) : bool :=
  match P with
  | Infinity => true
  | Affine x y =>
      (0 <=? x) && (x <? p) && (0 <=? y) && (y <? p)
      && ((y * y) mod p =? (x * x * x + 7) mod p)
  end.

Definition add (P Q : point) : point :=
  match P, Q with
  | Infinity, _ => Q
  | _, Infinity => P
  | Affine x1 y1, Affine x2 y2 =>
      if (x1 =? x2) && ((y1 + y2) mod p =? 0) then Infinity
      else
        let lambda :=
          if x1 =? x2
          then (3 * x1 * x1 * Z.invmod (2 * y1) p) mod p
          else ((y2 - y1) * Z.invmod (x2 - x1) p) mod p in
        let x3 := (lambda * lambda - x1 - x2) mod p in
        Affine x3 ((lambda * (x1 - x3) - y1) mod p)
  end.

Fixpoint mul_pos (k : positive) (P : point) : point :=
  match k with
  | xH => P
  | xO k' => let Q := mul_pos k' P in add Q Q
  | xI k' => let Q := mul_pos k' P in add P (add Q Q)
  end.

Definition mul (k : Z) (P : point) : point :=
  match k with
  | Zpos k' => mul_pos k' P
  | _ => Infinity
  end.

Definition G : point := Affine Gx Gy.

Definition encode (P : point) (isCompressed : bool) : list byte :=
  match P with
  | Infinity => [x00]
  | Affine x y =>
      if isCompressed
      then (if Z.even y then x02 else x03) :: be_bytes 32 x
      else x04 :: be_bytes 32 x ++ be_bytes 32 y
  end.

Definition getPublicKey (privateKey : list byte) (isCompressed : bool)
  : Result (list byte) :=
  if negb (Nat.eqb (List.length privateKey) 32)
  then Throw "Expected 32 bytes of private key"
  else
    let d := bytesToNumber privateKey in
    if (0 <? d) && (d <? CURVE.n)
    then Ok (encode (mul d G) isCompressed)
    else Throw "Expected private key: 0 < key < n".

(** A point of the curve whose x-coordinate is the order of the group.
    The group is cyclic of prime order, so this point is [k * G] for some
    scalar [k] in [1, n - 1]. *)
Definition order_point : point :=
  Affine CURVE.n
    0x670999BE34F51E8894B9C14211C28801D9A70FDE24B71D3753854B35D07C9A11.

(** The library for the same curve and another base point: the scalar
    multiples of [B], checked and encoded as [getPublicKey] does for the
    multiples of [G]. *)
Definition getPublicKeyOn (B : point) (privateKey : list byte) (isCompressed : bool)
  : Result (list byte) :=
  if negb (Nat.eqb (List.length privateKey) 32)
  then Throw "Expected 32 bytes of private key"
  else
    let d := bytesToNumber privateKey in
    if (0 <? d) && (d <? CURVE.n)
    then Ok (encode (mul d B) isCompressed)
    else Throw "Expected private key: 0 < key < n".

(** The point [B] of the curve with [2 * B = order_point]. With [B = d * G],
    the scalar at which the multiples of [G] reach [order_point] is
    [2 * d mod n]; [d] is a discrete logarithm and is not known. *)
Definition half_order_point : point :=
  Affine
    0x41338663D26CF07282D620D208580888B933DE8E2D3AB437C15522144F42CE45
    0xDD4AEB0BFC2A811BEC78952569D5BB5799871EE4A56CCD577FBB6B94D1FC2745.

End Secp256k1.

(** The value of [s] that [signEOTS] computes. *)
Definition sValue (kNum hashNum rNum privKeyNum : Z) : Z :=
  (Z.invmod kNum CURVE.n * (hashNum + rNum * privKeyNum)) mod CURVE.n.

(** ** Congruence modulo [N] as a setoid *)

#[local] Instance eqm_equivalence (N : Z) : Equivalence (eqm N) := eqm_setoid N.
#[local] Instance add_eqm (N : Z) : Proper (eqm N ==> eqm N ==> eqm N) Z.add := Zplus_eqm N.
#[local] Instance sub_eqm (N : Z) : Proper (eqm N ==> eqm N ==> eqm N) Z.sub := Zminus_eqm N.
#[local] Instance mul_eqm (N : Z) : Proper (eqm N ==> eqm N ==> eqm N) Z.mul := Zmult_eqm N.

(** ** The concrete scenario of section 8 *)

Module Scenario.

(** Private key [0x01], as 64 characters. *)
Definition key : BytesLike :=
  OfHex "0000000000000000000000000000000000000000000000000000000000000001".

(** Explicit nonce [0x02]. *)
Definition nonce : BytesLike :=
  OfHex "0000000000000000000000000000000000000000000000000000000000000002".

(** The SHA-256 digests of the empty message and of the message [a]. *)
Definition digest1 : BytesLike := OfBytes (Sha256.sha256 []).
Definition digest2 : BytesLike := OfBytes (Sha256.sha256 [x61]).

(** The private key with its first character dropped: 63 characters. *)
Definition key63 : string :=
  "000000000000000000000000000000000000000000000000000000000000001".

(** Signing on secp256k1 with SHA-256. *)
Abbreviation sign := (signEOTS Secp256k1.getPublicKey Sha256.sha256).

(** Signing through the library of the base point [B] with
    [2 * B = order_point]: at the nonce 2 its point is the one whose
    x-coordinate is [n]. *)
Abbreviation sign_at_order_point :=
  (signEOTS (Secp256k1.getPublicKeyOn Secp256k1.half_order_point) Sha256.sha256).

Definition throwing_verify (signature msgHash publicKey : list byte) : Result bool :=
  Throw "verification failed".

Definition accepting_verify (signature msgHash publicKey : list byte) : Result bool :=
  Ok true.

(** The signatures of key 1 under nonce 2 on the two digests. *)
Definition sig1 : EOTSSignature :=
  Eval vm_compute in
    match sign key digest1 (Some nonce) with
    | Ok signature => signature
    | Throw _ => {| r := []; s := [] |}
    end.

Definition sig2 : EOTSSignature :=
  Eval vm_compute in
    match sign key digest2 (Some nonce) with
    | Ok signature => signature
    | Throw _ => {| r := []; s := [] |}
    end.

(** The same at the point whose x-coordinate is [n]. *)
Definition order_sig1 : EOTSSignature :=
  Eval vm_compute in
    match sign_at_order_point key digest1 (Some nonce) with
    | Ok signature => signature
    | Throw _ => {| r := []; s := [] |}
    end.

Definition order_sig2 : EOTSSignature :=
  Eval vm_compute in
    match sign_at_order_point key digest2 (Some nonce) with
    | Ok signature => signature
    | Throw _ => {| r := []; s := [] |}
    end.

(** Signatures with chosen components. *)
Definition signature_of (rNum sNum : Z) : EOTSSignature :=
  {| r := be_bytes 32 rNum; s := be_bytes 32 sNum |}.

End Scenario.

Import Scenario.

(** ** [eots.ts]: key generation and addresses *)

(** [s.toLowerCase()] on 8-bit code units: the letters [A-Z] and the
    uppercase letters of Latin-1. *)
Definition toLowerChar (c : ascii) : ascii :=
  let k := N_of_ascii c in
  if ((65 <=? k) && (k <=? 90) || (192 <=? k) && (k <=? 222) && negb (k =? 215))%N
  then ascii_of_N (k + 32)
  else c.

Fixpoint toLowerCase (s : string) : string :=
  match s with
  | EmptyString => EmptyString
  | String c rest => String (toLowerChar c) (toLowerCase rest)
  end.

Section Generation.

(** [getPublicKey(privateKey, isCompressed)] of [@noble/secp256k1] *)
Variable getPublicKeySecp : list byte -> bool -> Result (list byte).
(** [verify(signature, msgHash, publicKey)] of [@noble/secp256k1] *)
Variable verify : list byte -> list byte -> list byte -> Result bool.
(** [sha256(message)] of [@noble/hashes] *)
Variable sha256 : list byte -> list byte.
(** The entropy of the platform, as the stream of bytes that
    [crypto.getRandomValues] hands out; the state of the generator is the
    position in the stream. *)
Variable entropy : nat -> byte.

(** [crypto.getRandomValues(array)] on an array of [len] bytes *)
Definition getRandomValues (len position : nat) : list byte * nat :=
  (map entropy (seq position len), (position + len)%nat).

(** [utils.ts] *)
Definition generateRandomHex32 (position : nat) : string * nat :=
  let '(bytes, position) := getRandomValues 32 position in
  (bytesToHex bytes, position).

Definition generateRandomPrivateKey (position : nat) : string * nat :=
  generateRandomHex32 position.

Definition generateRandomNonce (position : nat) : string * nat :=
  generateRandomHex32 position.

Definition generateRandomMessageHash (position : nat) : string * nat :=
  generateRandomHex32 position.

(** The rejection loop of [generateEOTSKeyPair]; [None] when [fuel] runs
    out before a draw is below [n]. *)
Fixpoint generateEOTSKeyPair_loop (fuel : nat) (privateKey : list byte) (position : nat)
  : option (list byte * nat) :=
  match fuel with
  | O => None
  | S fuel' =>
      if bytesToNumber privateKey >=? CURVE.n
      then
        let '(privateKey, position) := getRandomValues 32 position in
        generateEOTSKeyPair_loop fuel' privateKey position
      else Some (privateKey, position)
  end.

Definition generateEOTSKeyPair (fuel position : nat)
  : option (Result EOTSKeyPair * nat) :=
  let '(privateKey, position) := getRandomValues 32 position in
  match generateEOTSKeyPair_loop fuel privateKey position with
  | None => None
  | Some (privateKey, position) =>
      Some (publicKey <- getPublicKeySecp privateKey true ;;
            Ok {| privateKey := privateKey; publicKey := publicKey |},
            position)
  end.

Definition deriveTaprootAddress (privateKey : BytesLike) : Result string :=
  let privKey := asBytes privateKey in
  publicKey <- getPublicKeySecp privKey true ;;
  let xOnlyPubKey := skipn 1 publicKey in
  let hex := bytesToHex xOnlyPubKey in
  Ok ("bc1p" ++ hex)%string.

(** ** [demo.ts] *)

Record SignatureReport : Type :=
  { report_r : string; report_s : string; report_message : string }.

Record SignatureReports : Type :=
  { report_sig1 : SignatureReport; report_sig2 : SignatureReport }.

Record NonceReuseReport : Type :=
  { originalPrivateKey : string;
    extractedPrivateKey : string;
    keysMatch : bool;
    taprootAddress : string;
    signatures : SignatureReports }.

(** [demonstrateNonceReuse()]; the lines it logs are not modelled. The
    field [match] of the result is [keysMatch] here, the fields [r], [s],
    [message], [sig1] and [sig2] carry the prefix [report_]. [None] when
    the key generation runs out of [fuel]. *)
Definition demonstrateNonceReuse (fuel position : nat) : option (Result NonceReuseReport) :=
  match generateEOTSKeyPair fuel position with
  | None => None
  | Some (generated, position) =>
      Some (keyPair <- generated ;;
            let privateKeyHex := bytesToHex keyPair.(privateKey) in
            let '(sharedNonce, position) := generateRandomNonce position in
            let '(messageHash1, position) := generateRandomMessageHash position in
            let '(messageHash2, position) := generateRandomMessageHash position in
            sig1 <- signEOTS getPublicKeySecp sha256 (OfBytes keyPair.(privateKey))
                      (OfHex messageHash1) (Some (OfHex sharedNonce)) ;;
            sig2 <- signEOTS getPublicKeySecp sha256 (OfBytes keyPair.(privateKey))
                      (OfHex messageHash2) (Some (OfHex sharedNonce)) ;;
            valid1 <- verifyEOTS verify (OfBytes keyPair.(publicKey)) (OfHex messageHash1) sig1 ;;
            valid2 <- verifyEOTS verify (OfBytes keyPair.(publicKey)) (OfHex messageHash2) sig2 ;;
            extractedKey <- extractPrivateKey sig1 sig2 (OfHex messageHash1) (OfHex messageHash2) ;;
            let extractedKeyHex := bytesToHex extractedKey in
            let keysMatch :=
              String.eqb (toLowerCase privateKeyHex) (toLowerCase extractedKeyHex) in
            taprootAddress <- deriveTaprootAddress (OfBytes keyPair.(privateKey)) ;;
            Ok {| originalPrivateKey := privateKeyHex;
                  extractedPrivateKey := extractedKeyHex;
                  keysMatch := keysMatch;
                  taprootAddress := taprootAddress;
                  signatures :=
                    {| report_sig1 := {| report_r := bytesToHex sig1.(r);
                                         report_s := bytesToHex sig1.(s);
                                         report_message := messageHash1 |};
                       report_sig2 := {| report_r := bytesToHex sig2.(r);
                                         report_s := bytesToHex sig2.(s);
                                         report_message := messageHash2 |} |} |})
  end.

End Generation.

(** ** Auxiliary definitions of the properties *)

(** The coefficients of the extended Euclidean loop of [modInverse]
    alternate in sign and stay bounded by the modulus. *)
Definition modInverse_invariant (m old_r r old_s s : Z) : Prop :=
  0 <= old_r /\ 0 <= r
  /\ old_s * s <= 0
  /\ Z.abs s * old_r + Z.abs old_s * r = m
  /\ (Z.abs old_s <= Z.abs s \/ s = 0)
  /\ (r <= old_r \/ s = 0).

(** Characters that [parseInt] neither skips nor reads. *)
Definition isOther (c : ascii) : bool :=
  negb (isHexDigit c) && negb (isStrWhiteSpace c)
  && negb (Ascii.eqb c "+") && negb (Ascii.eqb c "-").

(** ** Concrete entropy *)

Module Entropy.

(** Thirty-two bytes [ff], then zeros: the first draw of 32 bytes is above
    [n], the second is 0. *)
Definition ones_then_zeros (i : nat) : byte := if (i <? 32)%nat then xff else x00.

(** The draws 1, 2, 3 and 4, of 32 bytes each, then zeros. *)
Definition one_to_four (i : nat) : byte :=
  nth i (be_bytes 32 1 ++ be_bytes 32 2 ++ be_bytes 32 3 ++ be_bytes 32 4) x00.

(** The key pair of the private key 1. *)
Definition keyPair_one : EOTSKeyPair :=
  {| privateKey := be_bytes 32 1; publicKey := Secp256k1.encode Secp256k1.G true |}.

(** What [demonstrateNonceReuse] returns on the draws 1, 2, 3 and 4 for
    key, nonce and the two digests. *)
Definition report : NonceReuseReport :=
  Eval vm_compute in
    match demonstrateNonceReuse Secp256k1.getPublicKey accepting_verify Sha256.sha256
            one_to_four 1 0 with
    | Some (Ok result) => result
    | _ => {| originalPrivateKey := EmptyString;
              extractedPrivateKey := EmptyString;
              keysMatch := false;
              taprootAddress := EmptyString;
              signatures :=
                {| report_sig1 := {| report_r := EmptyString; report_s := EmptyString;
                                     report_message := EmptyString |};
                   report_sig2 := {| report_r := EmptyString; report_s := EmptyString;
                                     report_message := EmptyString |} |} |}
    end.

End Entropy.

(** * Properties *)

(** ** The hex codec *)

Lemma byteToZ_range b : 0 <= byteToZ b < 256.
Proof.
  unfold byteToZ. pose proof (Byte.to_N_bounded b). lia.
Qed.

Lemma byteOfZ_byteToZ b : byteOfZ (byteToZ b) = b.
Proof.
  unfold byteOfZ. rewrite Z.mod_small by apply byteToZ_range.
  unfold byteToZ. rewrite N2Z.id, Byte.of_to_N. reflexivity.
Qed.

Lemma byteToZ_byteOfZ z : byteToZ (byteOfZ z) = z mod 256.
Proof.
  unfold byteOfZ, byteToZ.
  pose proof (Z.mod_pos_bound z 256 ltac:(lia)) as Hb.
  destruct (Byte.of_N (Z.to_N (z mod 256))) as [b|] eqn:E.
  - apply Byte.to_of_N in E. rewrite E. lia.
  - apply Byte.of_N_None_iff in E. lia.
Qed.

(** What [byteToHex] yields for each of the 256 bytes: two lowercase
    digits that [hexToBytes] reads back as the byte. *)
Lemma byteToHex_spec b :
  exists c1 c2,
    byteToHex b = String c1 (String c2 EmptyString)
    /\ isLowerHexDigit c1 = true /\ isLowerHexDigit c2 = true
    /\ toUint8 (parseInt16 (String c1 (String c2 EmptyString))) = b.
Proof.
  destruct b; do 2 eexists; repeat split.
Qed.

Lemma concat_empty_cons x xs :
  String.concat EmptyString (x :: xs) = (x ++ String.concat EmptyString xs)%string.
Proof.
  destruct xs as [|y ys]; simpl; [|reflexivity].
  induction x as [|c x IH]; simpl; [reflexivity | now rewrite <- IH].
Qed.

Lemma bytesToHex_cons b bytes :
  bytesToHex (b :: bytes) = (byteToHex b ++ bytesToHex bytes)%string.
Proof. unfold bytesToHex. simpl map. apply concat_empty_cons. Qed.

Lemma length_bytesToHex bytes :
  String.length (bytesToHex bytes) = (2 * List.length bytes)%nat.
Proof.
  induction bytes as [|b bytes IH]; [reflexivity|].
  rewrite bytesToHex_cons.
  destruct (byteToHex_spec b) as (c1 & c2 & -> & _).
  simpl. rewrite IH. lia.
Qed.

Lemma lower_bytesToHex bytes : all_chars isLowerHexDigit (bytesToHex bytes) = true.
Proof.
  induction bytes as [|b bytes IH]; [reflexivity|].
  rewrite bytesToHex_cons.
  destruct (byteToHex_spec b) as (c1 & c2 & -> & H1 & H2 & _).
  simpl. now rewrite H1, H2, IH.
Qed.

Lemma hexToBytes_loop_bytesToHex bytes : hexToBytes_loop (bytesToHex bytes) = bytes.
Proof.
  induction bytes as [|b bytes IH]; [reflexivity|].
  rewrite bytesToHex_cons.
  destruct (byteToHex_spec b) as (c1 & c2 & -> & _ & _ & Hb).
  simpl. now rewrite Hb, IH.
Qed.

Lemma startsWith_0x_digits c1 c2 rest :
  isHexDigit c2 = true -> startsWith (String c1 (String c2 rest)) "0x" = false.
Proof.
  intros H. unfold startsWith. cbn [String.prefix].
  destruct (ascii_dec "0" c1); [|reflexivity].
  destruct (ascii_dec "x" c2) as [<-|]; [discriminate | reflexivity].
Qed.

Lemma lower_isHexDigit c : isLowerHexDigit c = true -> isHexDigit c = true.
Proof.
  unfold isLowerHexDigit, isHexDigit, hexDigitValue.
  destruct (_ && _); [reflexivity|]. simpl.
  destruct (_ && _); [reflexivity | discriminate].
Qed.

Lemma startsWith_0x_bytesToHex bytes : startsWith (bytesToHex bytes) "0x" = false.
Proof.
  destruct bytes as [|b bytes]; [reflexivity|].
  rewrite bytesToHex_cons.
  destruct (byteToHex_spec b) as (c1 & c2 & -> & _ & H2 & _).
  apply startsWith_0x_digits, lower_isHexDigit, H2.
Qed.

(** C10. The hex codec round-trips on the bytes side: [hexToBytes] reads
    back every byte array that [bytesToHex] wrote, and [bytesToHex] writes
    two lowercase radix-16 digits per byte. *)
Theorem hexToBytes_bytesToHex (b : list byte) :
  hexToBytes (bytesToHex b) = b
  /\ String.length (bytesToHex b) = (2 * List.length b)%nat
  /\ all_chars isLowerHexDigit (bytesToHex b) = true.
Proof.
  split; [|split; [apply length_bytesToHex | apply lower_bytesToHex]].
  unfold hexToBytes.
  rewrite startsWith_0x_bytesToHex, length_bytesToHex.
  replace (2 * List.length b)%nat with (List.length b * 2)%nat by lia.
  rewrite Nat.Div0.mod_mul. simpl.
  apply hexToBytes_loop_bytesToHex.
Qed.

(** ** Numbers and their big-endian bytes *)

Lemma hexDigitValue_range c v : hexDigitValue c = Some v -> 0 <= v < 16.
Proof.
  unfold hexDigitValue.
  repeat match goal with
         | |- context [if ?b then _ else _] => destruct b eqn:?
         end; intros [= <-]; lia.
Qed.

Lemma hexDigitChar_spec d :
  0 <= d < 16 ->
  hexDigitValue (hexDigitChar d) = Some d /\ isLowerHexDigit (hexDigitChar d) = true.
Proof.
  intros H.
  assert (C : d = 0 \/ d = 1 \/ d = 2 \/ d = 3 \/ d = 4 \/ d = 5 \/ d = 6 \/ d = 7
              \/ d = 8 \/ d = 9 \/ d = 10 \/ d = 11 \/ d = 12 \/ d = 13 \/ d = 14
              \/ d = 15) by lia.
  repeat (destruct C as [-> | C]; [split; reflexivity|]).
  subst; split; reflexivity.
Qed.

Lemma hexNumber_app s1 s2 acc :
  hexNumber acc (s1 ++ s2)%string = hexNumber (hexNumber acc s1) s2.
Proof.
  revert acc. induction s1 as [|c s1 IH]; intros acc; simpl; [reflexivity | apply IH].
Qed.

Lemma all_chars_app f s1 s2 :
  all_chars f (s1 ++ s2)%string = all_chars f s1 && all_chars f s2.
Proof.
  induction s1 as [|c s1 IH]; simpl; [reflexivity|].
  now rewrite IH, andb_assoc.
Qed.

Lemma append_assoc s1 s2 s3 : ((s1 ++ s2) ++ s3 = s1 ++ (s2 ++ s3))%string.
Proof. induction s1 as [|c s1 IH]; simpl; [reflexivity | now rewrite IH]. Qed.

Lemma append_empty_r s : (s ++ EmptyString)%string = s.
Proof. induction s as [|c s IH]; simpl; [reflexivity | now rewrite IH]. Qed.

Lemma length_append s1 s2 :
  String.length (s1 ++ s2)%string = (String.length s1 + String.length s2)%nat.
Proof. induction s1 as [|c s1 IH]; simpl; [reflexivity | now rewrite IH]. Qed.

(** The digits that [toString16_digits] puts in front of [acc]. *)
Lemma toString16_digits_spec fuel : forall z acc,
  0 <= z < 16 ^ Z.of_nat fuel ->
  exists digits,
    toString16_digits fuel z acc = (digits ++ acc)%string
    /\ all_chars isLowerHexDigit digits = true
    /\ (forall a, hexNumber a digits = a * 16 ^ Z.of_nat (String.length digits) + z)
    /\ (forall k, z < 16 ^ Z.of_nat (S k) -> (String.length digits <= S k)%nat).
Proof.
  induction fuel as [|fuel IH]; intros z acc Hz.
  - exists EmptyString. simpl in *. repeat split; intros; lia.
  - simpl toString16_digits.
    assert (Hd : 0 <= z mod 16 < 16) by (apply Z.mod_pos_bound; lia).
    destruct (hexDigitChar_spec _ Hd) as [Hv Hl].
    destruct (Z.ltb_spec z 16) as [Hlt | Hge].
    + exists (String (hexDigitChar (z mod 16)) EmptyString).
      repeat split.
      * simpl. now rewrite Hl.
      * intros a. simpl. unfold digitValue. rewrite Hv.
        rewrite Z.mod_small by lia. change (16 ^ Z.of_nat 1) with 16. reflexivity.
      * intros k _. simpl. lia.
    + assert (Hq : 0 <= z / 16 < 16 ^ Z.of_nat fuel).
      { split; [apply Z.div_pos; lia|].
        apply Z.div_lt_upper_bound; [lia|].
        rewrite Nat2Z.inj_succ, Z.pow_succ_r in Hz by lia. lia. }
      destruct (IH (z / 16) (String (hexDigitChar (z mod 16)) acc) Hq)
        as (digits & E & Hall & Hnum & Hlen).
      exists (digits ++ String (hexDigitChar (z mod 16)) EmptyString)%string.
      repeat split.
      * rewrite E, append_assoc. reflexivity.
      * rewrite all_chars_app, Hall. simpl. now rewrite Hl.
      * intros a. rewrite hexNumber_app, Hnum. simpl. unfold digitValue. rewrite Hv.
        rewrite length_append. simpl String.length.
        rewrite Nat2Z.inj_add, Z.pow_add_r by lia. change (16 ^ Z.of_nat 1) with 16.
        pose proof (Z.div_mod z 16 ltac:(lia)). lia.
      * intros k Hk. rewrite length_append. simpl String.length.
        destruct k as [|k].
        { change (16 ^ Z.of_nat 1) with 16 in Hk. lia. }
        assert (z / 16 < 16 ^ Z.of_nat (S k)).
        { apply Z.div_lt_upper_bound; [lia|].
          rewrite (Nat2Z.inj_succ (S k)), Z.pow_succ_r in Hk by lia. lia. }
        specialize (Hlen k ltac:(assumption)). lia.
Qed.

Lemma toString16_nonneg_fuel z :
  0 <= z -> z < 16 ^ Z.of_nat (S (Z.to_nat (Z.log2 z))).
Proof.
  intros Hz.
  destruct (Z.eq_dec z 0) as [->|Hnz]; [reflexivity|].
  pose proof (Z.log2_nonneg z).
  rewrite Nat2Z.inj_succ, Z2Nat.id by lia.
  pose proof (Z.log2_spec z ltac:(lia)) as [_ Hs].
  eapply Z.lt_le_trans; [exact Hs|].
  apply Z.pow_le_mono_l. lia.
Qed.

(** [toString(16)] of a non-negative number: lowercase digits that denote
    it, no more of them than its size needs. *)
Lemma toString16_spec z :
  0 <= z ->
  all_chars isLowerHexDigit (toString16 z) = true
  /\ hexNumber 0 (toString16 z) = z
  /\ (forall k, z < 16 ^ Z.of_nat (S k) -> (String.length (toString16 z) <= S k)%nat).
Proof.
  intros Hz. unfold toString16.
  destruct (Z.ltb_spec z 0); [lia|].
  unfold toString16_nonneg.
  destruct (toString16_digits_spec _ z EmptyString
              (conj Hz (toString16_nonneg_fuel z Hz)))
    as (digits & E & Hall & Hnum & Hlen).
  rewrite E.
  rewrite append_empty_r. repeat split; trivial.
Qed.

Lemma isHexDigit_value c : isHexDigit c = true -> exists v, hexDigitValue c = Some v.
Proof.
  unfold isHexDigit. destruct (hexDigitValue c) as [v|]; [eauto | discriminate].
Qed.

Lemma hexDigit_not_space c : isHexDigit c = true -> isStrWhiteSpace c = false.
Proof.
  destruct c as [[] [] [] [] [] [] [] []]; try reflexivity; discriminate.
Qed.

Lemma hexDigit_not_sign c (rest : string) :
  isHexDigit c = true ->
  match String c rest with
  | String "-"%char rest' => (-1, rest')
  | String "+"%char rest' => (1, rest')
  | _ => (1, String c rest)
  end = (1, String c rest).
Proof.
  destruct c as [[] [] [] [] [] [] [] []]; try reflexivity; discriminate.
Qed.

Lemma startsWith_0X_digits c1 c2 rest :
  isHexDigit c2 = true -> startsWith (String c1 (String c2 rest)) "0X" = false.
Proof.
  intros H. unfold startsWith. cbn [String.prefix].
  destruct (ascii_dec "0" c1); [|reflexivity].
  destruct (ascii_dec "X" c2) as [<-|]; [discriminate | reflexivity].
Qed.

(** [parseInt] on two radix-16 digits. *)
Lemma parseInt16_two_digits c1 c2 v1 v2 :
  hexDigitValue c1 = Some v1 -> hexDigitValue c2 = Some v2 ->
  parseInt16 (String c1 (String c2 EmptyString)) = Some (v1 * 16 + v2).
Proof.
  intros H1 H2.
  assert (D1 : isHexDigit c1 = true) by (unfold isHexDigit; now rewrite H1).
  assert (D2 : isHexDigit c2 = true) by (unfold isHexDigit; now rewrite H2).
  unfold parseInt16. cbn [trimStart].
  rewrite (hexDigit_not_space c1 D1), (hexDigit_not_sign c1 _ D1).
  rewrite startsWith_0x_digits, startsWith_0X_digits by exact D2.
  simpl. rewrite H1, H2.
  destruct (v1 * 16 + v2); reflexivity.
Qed.

Lemma shiftl_8 z : Z.shiftl z 8 = z * 256.
Proof. now rewrite Z.shiftl_mul_pow2 by lia. Qed.

(** On an even number of digits the loop of [hexToBytes] yields the bytes
    of the number that the digits denote. *)
Lemma hexToBytes_loop_digits k : forall s acc,
  String.length s = (2 * k)%nat -> all_chars isHexDigit s = true ->
  List.length (hexToBytes_loop s) = k
  /\ fold_left (fun result byte => Z.shiftl result 8 + byteToZ byte)
       (hexToBytes_loop s) acc = hexNumber acc s.
Proof.
  induction k as [|k IH]; intros s acc Hlen Hall.
  - destruct s; [split; reflexivity | discriminate].
  - destruct s as [|c1 [|c2 rest]]; try (simpl in Hlen; lia).
    simpl in Hall.
    apply andb_prop in Hall. destruct Hall as [D1 Hall].
    apply andb_prop in Hall. destruct Hall as [D2 Hall].
    destruct (isHexDigit_value _ D1) as [v1 H1].
    destruct (isHexDigit_value _ D2) as [v2 H2].
    pose proof (hexDigitValue_range _ _ H1).
    pose proof (hexDigitValue_range _ _ H2).
    cbn [hexToBytes_loop]. rewrite (parseInt16_two_digits _ _ _ _ H1 H2).
    destruct (IH rest (acc * 256 + (v1 * 16 + v2)) ltac:(simpl in Hlen; lia) Hall)
      as [IHl IHn].
    split; [simpl; now rewrite IHl|].
    cbn [fold_left toUint8 hexNumber].
    rewrite byteToZ_byteOfZ, Z.mod_small, shiftl_8 by lia.
    rewrite IHn. unfold digitValue. rewrite H1, H2. f_equal. lia.
Qed.

Lemma hexNumber_zeros k s : hexNumber 0 (repeat_char "0" k ++ s)%string = hexNumber 0 s.
Proof. induction k as [|k IH]; simpl; [reflexivity | exact IH]. Qed.

Lemma length_repeat_char c k : String.length (repeat_char c k) = k.
Proof. induction k as [|k IH]; simpl; [reflexivity | now rewrite IH]. Qed.

Lemma all_chars_repeat_zero k : all_chars isHexDigit (repeat_char "0" k) = true.
Proof. induction k as [|k IH]; simpl; [reflexivity | exact IH]. Qed.

Lemma all_chars_weaken (f g : ascii -> bool) s :
  (forall c, f c = true -> g c = true) -> all_chars f s = true -> all_chars g s = true.
Proof.
  intros Hfg. induction s as [|c s IH]; simpl; [reflexivity|].
  intros H. apply andb_prop in H. destruct H as [H1 H2].
  now rewrite (Hfg _ H1), IH.
Qed.

(** A string of digits does not start with the prefix that [hexToBytes]
    strips. *)
Lemma startsWith_0x_all_digits s :
  all_chars isHexDigit s = true -> startsWith s "0x" = false.
Proof.
  destruct s as [|c1 [|c2 rest]]; intros H.
  - reflexivity.
  - unfold startsWith. cbn [String.prefix]. destruct (ascii_dec "0" c1); reflexivity.
  - simpl in H. apply andb_prop in H. destruct H as [_ H].
    apply andb_prop in H. destruct H as [H _].
    now apply startsWith_0x_digits.
Qed.

(** [hexToBytes] on exactly [2 * k] digits. *)
Lemma hexToBytes_digits k s :
  String.length s = (2 * k)%nat -> all_chars isHexDigit s = true ->
  List.length (hexToBytes s) = k /\ bytesToNumber (hexToBytes s) = hexNumber 0 s.
Proof.
  intros Hlen Hall. unfold hexToBytes.
  rewrite (startsWith_0x_all_digits s Hall), Hlen.
  replace (2 * k)%nat with (k * 2)%nat by lia.
  rewrite Nat.Div0.mod_mul. cbn [Nat.eqb].
  apply hexToBytes_loop_digits; trivial.
Qed.

(** [numberToBytes] writes a number that fits as exactly [len] bytes, and
    [bytesToNumber] reads it back. *)
Lemma numberToBytes_spec num len :
  (0 < len)%nat -> 0 <= num < 256 ^ Z.of_nat len ->
  List.length (numberToBytes num len) = len
  /\ bytesToNumber (numberToBytes num len) = num.
Proof.
  intros Hpos [H0 Hlt].
  destruct (toString16_spec num H0) as (Hall & Hnum & Hlen).
  unfold numberToBytes.
  assert (Hshort : (String.length (toString16 num) <= len * 2)%nat).
  { destruct len as [|len].
    - lia.
    - replace (S len * 2)%nat with (S (S (2 * len))) by lia.
      apply Hlen.
      replace (Z.of_nat (S (S (2 * len)))) with (2 * Z.of_nat (S len)) by lia.
      rewrite Z.pow_mul_r by lia. exact Hlt. }
  assert (Hhex : all_chars isHexDigit (padStart0 (toString16 num) (len * 2)) = true).
  { unfold padStart0. rewrite all_chars_app, all_chars_repeat_zero. simpl.
    revert Hall. apply all_chars_weaken, lower_isHexDigit. }
  destruct (hexToBytes_digits len (padStart0 (toString16 num) (len * 2))) as [L N];
    trivial.
  - unfold padStart0. rewrite length_append, length_repeat_char. lia.
  - split; [exact L|]. rewrite N. unfold padStart0. now rewrite hexNumber_zeros.
Qed.

(** ** Modular arithmetic *)

Lemma mod_spec a b : 0 < b -> mod_ a b = Ok (a mod b).
Proof.
  intros Hb. unfold mod_, bigint_rem.
  destruct (Z.eqb_spec b 0); [lia|]. cbn [bind]. f_equal.
  pose proof (Z.rem_bound_abs a b ltac:(lia)).
  pose proof (Z.quot_rem' a b).
  pose proof (Z.rem_sign_nz a b ltac:(lia)).
  destruct (Z.geb_spec (Z.rem a b) 0).
  - apply (Z.mod_unique_pos a b (Z.quot a b)); lia.
  - apply (Z.mod_unique_pos a b (Z.quot a b - 1)); lia.
Qed.

(** One iteration of the loop of [modInverse] shrinks the remainder. *)
Lemma modInverse_step_bound old_r r :
  r <> 0 ->
  let r' := old_r - Z.quot old_r r * r in
  Z.abs r' < Z.abs r
  /\ (Z.abs r <= Z.abs old_r -> 2 * Z.abs r' <= Z.abs old_r).
Proof.
  intros Hr r'.
  assert (E : r' = Z.rem old_r r).
  { unfold r'. pose proof (Z.quot_rem' old_r r). lia. }
  pose proof (Z.rem_bound_abs old_r r Hr) as Hb.
  rewrite E. split; [exact Hb|]. intros Hle.
  pose proof (Z.quot_rem' old_r r) as Hq.
  pose proof (Z.rem_sign_mul old_r r Hr) as Hs.
  assert (Hq1 : Z.quot old_r r <> 0).
  { intros Hz. apply Z.quot_small_iff in Hz; trivial. lia. }
  nia.
Qed.

Lemma log2_half a b : 0 < a -> 2 * a <= b -> Z.log2 a + 1 <= Z.log2 b.
Proof.
  intros Ha Hab.
  replace (Z.log2 a + 1) with (Z.log2 (2 * a)) by (rewrite Z.log2_double; lia).
  apply Z.log2_le_mono. exact Hab.
Qed.

Lemma modInverse_loop_enough fuel : forall old_r r old_s s,
  (r = 0 /\ (1 <= fuel)%nat)
  \/ (Z.abs r <= Z.abs old_r
      /\ Z.log2 (Z.abs old_r) + Z.log2 (Z.abs r) + 2 <= Z.of_nat fuel) ->
  modInverse_loop fuel old_r r old_s s <> None.
Proof.
  induction fuel as [|fuel IH]; intros old_r r old_s s H.
  - destruct H as [[_ H] | [_ H]]; [lia|].
    pose proof (Z.log2_nonneg (Z.abs old_r)). pose proof (Z.log2_nonneg (Z.abs r)). lia.
  - cbn [modInverse_loop].
    destruct (Z.eqb_spec r 0) as [->|Hr]; [discriminate|].
    destruct H as [[H _] | [Hle Hf]]; [contradiction|].
    destruct (modInverse_step_bound old_r r Hr) as [Hlt Hhalf].
    specialize (Hhalf Hle).
    set (r' := old_r - Z.quot old_r r * r) in *.
    pose proof (Z.log2_nonneg (Z.abs old_r)). pose proof (Z.log2_nonneg (Z.abs r)).
    apply IH.
    destruct (Z.eq_dec r' 0) as [Hz | Hnz]; [left; split; [exact Hz | lia]|].
    right. split; [lia|].
    pose proof (log2_half (Z.abs r') (Z.abs old_r) ltac:(lia) Hhalf). lia.
Qed.

(** The loop of [modInverse] ends within the iterations it is granted. *)
Lemma modInverse_loop_terminates a m :
  exists old_r old_s, modInverse_loop (modInverse_fuel a m) a m 1 0 = Some (old_r, old_s).
Proof.
  assert (H : modInverse_loop (modInverse_fuel a m) a m 1 0 <> None).
  { unfold modInverse_fuel.
    pose proof (Z.log2_nonneg (Z.abs a)). pose proof (Z.log2_nonneg (Z.abs m)).
    set (t := Z.to_nat (Z.log2 (Z.abs a) + Z.log2 (Z.abs m))).
    assert (Ht : Z.of_nat t = Z.log2 (Z.abs a) + Z.log2 (Z.abs m))
      by (unfold t; lia).
    destruct (Z_le_gt_dec (Z.abs m) (Z.abs a)) as [Hle | Hgt].
    - apply modInverse_loop_enough. right. split; [exact Hle | lia].
    - change (3 + t)%nat with (S (2 + t)). cbn [modInverse_loop].
      destruct (Z.eqb_spec m 0) as [->|Hm]; [discriminate|].
      assert (Hq : Z.quot a m = 0) by (apply Z.quot_small_iff; lia).
      rewrite Hq. replace (a - 0 * m) with a by lia.
      apply modInverse_loop_enough.
      destruct (Z.eq_dec a 0) as [Ha | Ha]; [left; split; [exact Ha | lia]|].
      right. split; lia. }
  destruct (modInverse_loop (modInverse_fuel a m) a m 1 0) as [[old_r old_s]|];
    [eauto | contradiction].
Qed.

(** What the loop computes on non-negative remainders: the greatest common
    divisor, and a coefficient of [a] for it modulo [m]. *)
Lemma modInverse_loop_spec a m fuel : forall old_r r old_s s res,
  0 <= old_r -> 0 <= r ->
  (m | old_s * a - old_r) -> (m | s * a - r) ->
  modInverse_loop fuel old_r r old_s s = Some res ->
  fst res = Z.gcd old_r r /\ (m | snd res * a - fst res).
Proof.
  induction fuel as [|fuel IH]; intros old_r r old_s s res Hold Hr Hdo Hds E.
  - discriminate.
  - cbn [modInverse_loop] in E.
    destruct (Z.eqb_spec r 0) as [->|Hnz].
    + injection E as <-. simpl. rewrite Z.gcd_0_r, Z.abs_eq by lia. split; trivial.
    + assert (Hq : Z.quot old_r r = old_r / r) by (apply Z.quot_div_nonneg; lia).
      rewrite Hq in E.
      assert (Hm : old_r - old_r / r * r = old_r mod r).
      { pose proof (Z.div_mod old_r r Hnz). lia. }
      pose proof (Z.mod_pos_bound old_r r ltac:(lia)).
      apply IH in E; try lia; trivial.
      * destruct E as [E1 E2]. split; [|exact E2].
        rewrite E1, Hm, Z.gcd_comm. apply Z.gcd_mod_l.
      * replace ((old_s - old_r / r * s) * a - (old_r - old_r / r * r))
          with ((old_s * a - old_r) - (old_r / r) * (s * a - r)) by ring.
        apply Z.divide_sub_r; [exact Hdo|]. now apply Z.divide_mul_r.
Qed.

Lemma divide_sub_mod_eq m a b : 0 < m -> (m | a - b) -> a mod m = b mod m.
Proof.
  intros Hm [c Hc]. replace a with (b + c * m) by lia.
  now rewrite Z.mod_add by lia.
Qed.

(** [modInverse] on a non-negative number: the inverse modulo [m] when
    there is one, the error otherwise. *)
Lemma modInverse_nonneg a m :
  0 <= a -> 1 < m ->
  (Z.gcd a m = 1 -> exists v, modInverse a m = Ok v /\ (v * a) mod m = 1)
  /\ (Z.gcd a m <> 1 -> modInverse a m = Throw "Modular inverse does not exist").
Proof.
  intros Ha Hm. unfold modInverse.
  destruct (Z.ltb_spec a 0); [lia|]. cbn [bind].
  destruct (modInverse_loop_terminates a m) as (old_r & old_s & E).
  rewrite E.
  destruct (modInverse_loop_spec a m _ a m 1 0 _ Ha ltac:(lia)
              ltac:(exists 0; lia) ltac:(exists (-1); lia) E) as [G D].
  simpl in G, D. split; intros Hg.
  - rewrite G, Hg. cbn [Z.gtb Z.compare Pos.compare].
    eexists; split; [reflexivity|].
    rewrite G, Hg in D.
    rewrite <- (Z.mod_small 1 m) by lia.
    apply divide_sub_mod_eq; [lia|].
    destruct (old_s <? 0); trivial.
    replace ((old_s + m) * a - 1) with ((old_s * a - 1) + a * m) by ring.
    apply Z.divide_add_r; trivial. now apply Z.divide_mul_r, Z.divide_refl.
  - pose proof (Z.gcd_nonneg a m).
    assert (Z.gcd a m <> 0) by (intros Hz; apply Z.gcd_eq_0_r in Hz; lia).
    rewrite G. destruct (Z.gtb_spec (Z.gcd a m) 1); [reflexivity | lia].
Qed.

(** ** The order of the group is prime *)

Lemma fermat_little p a : Z.prime p -> a mod p <> 0 -> a ^ (p - 1) mod p = 1.
Proof.
  intros Hp Ha.
  pose proof (Z.prime_ge_2 _ Hp) as Hp2.
  assert (Hc : Z.coprime (Zmod.unsigned (Zmod.of_Z p a)) p).
  { rewrite Zmod.unsigned_of_Z. apply Z.coprime_mod_l_iff.
    unfold Z.coprime. rewrite Z.gcd_comm. apply Z.coprime_prime_l; trivial.
    intros Hd. apply Ha. apply Z.mod0_divide; trivial. }
  pose proof (Zstar.fermat (Zstar.of_Zmod (Zmod.of_Z p a)) Hp) as F.
  apply (f_equal Zstar.to_Zmod) in F.
  rewrite Zstar.to_Zmod_pow, Zstar.to_Zmod_1, Zstar.to_Zmod_of_Zmod in F by exact Hc.
  apply (f_equal Zmod.unsigned) in F.
  rewrite Zmod.unsigned_pow_nonneg_r, Zmod.unsigned_of_Z in F by lia.
  rewrite Zmod.unsigned_1, Z.mod_pow_l in F.
  replace (Z.pred p) with (p - 1) in F by lia.
  rewrite F. apply Z.mod_small; lia.
Qed.

Lemma pow_mul_one p a u c :
  1 < p -> 0 <= u -> 0 <= c -> a ^ u mod p = 1 -> a ^ (u * c) mod p = 1.
Proof.
  intros Hp Hu Hc H.
  rewrite Z.pow_mul_r by lia.
  rewrite <- Z.mod_pow_l, H, Z.pow_1_l by lia.
  apply Z.mod_small; lia.
Qed.

(** The exponents that send [a] to 1 modulo [p] are closed under [gcd]. *)
Lemma pow_gcd_one p a : 1 < p ->
  forall v u, 0 <= v -> 0 <= u ->
    a ^ u mod p = 1 -> a ^ v mod p = 1 -> a ^ Z.gcd u v mod p = 1.
Proof.
  intros Hp v.
  induction v as [v IH] using (well_founded_induction (Z.lt_wf 0)).
  intros u Hv Hu Au Av.
  destruct (Z.eq_dec v 0) as [->|Hnz].
  - rewrite Z.gcd_0_r, Z.abs_eq by lia. exact Au.
  - rewrite <- Z.gcd_mod_l, Z.gcd_comm.
    pose proof (Z.mod_pos_bound u v ltac:(lia)) as Hb.
    apply IH; try lia; trivial.
    pose proof (Z.div_mod u v Hnz) as E.
    assert (0 <= u / v) by (apply Z.div_pos; lia).
    rewrite E, Z.pow_add_r, <- Z.mul_mod_idemp_l in Au by nia.
    rewrite (pow_mul_one p a v (u / v)) in Au by (trivial; lia).
    rewrite Z.mul_1_l in Au. exact Au.
Qed.

(** One step of Pocklington's criterion: a prime power of [N - 1] that has
    a witness divides [p - 1] for every prime divisor [p] of [N]. *)
Lemma prime_power_divides_pred N p q e a :
  1 < N -> Z.prime p -> (p | N) -> Z.prime q -> 0 <= e -> (q ^ e | N - 1) ->
  a ^ (N - 1) mod N = 1 ->
  Z.gcd (a ^ ((N - 1) / q) mod N - 1) N = 1 ->
  (q ^ e | p - 1).
Proof.
  intros HN Hp HpN Hq He Hqe Ha Hg.
  pose proof (Z.prime_ge_2 _ Hp) as Hp2.
  pose proof (Z.prime_ge_2 _ Hq) as Hq2.
  assert (Ap : a ^ (N - 1) mod p = 1).
  { rewrite <- (Z.mod_mod_divide _ N p HpN), Ha. apply Z.mod_small; lia. }
  assert (Anz : a mod p <> 0).
  { intros Hz. rewrite <- Z.mod_pow_l, Hz, Z.pow_0_l, Z.mod_0_l in Ap by lia. lia. }
  pose proof (fermat_little p a Hp Anz) as Fp.
  pose proof (pow_gcd_one p a ltac:(lia) (p - 1) (N - 1) ltac:(lia) ltac:(lia) Ap Fp) as Ad.
  set (d := Z.gcd (N - 1) (p - 1)) in *.
  assert (Hd0 : 0 < d).
  { pose proof (Z.gcd_nonneg (N - 1) (p - 1)).
    assert (d <> 0); [|lia]. unfold d. intros G. apply Z.gcd_eq_0_l in G. lia. }
  destruct (Z.gcd_divide_l (N - 1) (p - 1)) as [c Hc]. fold d in Hc.
  assert (Hc0 : 0 <= c) by nia.
  destruct (Z.BoolSpec_divide_nz q c ltac:(lia)) as [[c' Hc'] | Hnd].
  - exfalso.
    assert (E : (N - 1) / q = d * c').
    { rewrite Hc, Hc'. replace (c' * q * d) with (d * c' * q) by ring.
      apply Z.div_mul; lia. }
    assert (0 <= c') by nia.
    assert (A1 : a ^ ((N - 1) / q) mod p = 1).
    { rewrite E. apply pow_mul_one; trivial; lia. }
    assert (D1 : (p | a ^ ((N - 1) / q) mod N - 1)).
    { apply Z.mod_divide; [lia|].
      rewrite <- Zminus_mod_idemp_l, (Z.mod_mod_divide _ N p HpN), A1.
      reflexivity. }
    pose proof (Z.gcd_greatest _ _ _ D1 HpN) as G. rewrite Hg in G.
    apply Z.divide_1_r in G. lia.
  - apply Z.divide_trans with d; [|apply Z.gcd_divide_r].
    apply Z.gauss with c; [rewrite Hc in Hqe; exact Hqe|].
    apply Z.coprime_pow_l; trivial.
    apply Z.coprime_prime_l; trivial.
Qed.


Lemma coprime_divisors_mul a b m :
  Z.gcd a b = 1 -> (a | m) -> (b | m) -> (a * b | m).
Proof.
  intros G [k Hk] Hb. subst m.
  assert (Hbk : (b | k)).
  { apply Z.gauss with a; [rewrite Z.mul_comm; exact Hb|].
    rewrite Z.gcd_comm; exact G. }
  destruct Hbk as [j ->]. exists j. ring.
Qed.

Lemma exists_prime_divisor d : 1 < d -> exists p, Z.prime p /\ (p | d).
Proof.
  induction d as [d IH] using (well_founded_induction (Z.lt_wf 0)).
  intros Hd.
  destruct (prime_dec d) as [Hp | Hn].
  - exists d. split; [apply prime_alt; exact Hp | apply Z.divide_refl].
  - destruct (not_prime_divide d Hd Hn) as [k [Hk Hkd]].
    destruct (IH k ltac:(lia) ltac:(lia)) as [p [Hp Hpk]].
    exists p. split; trivial. apply Z.divide_trans with k; trivial.
Qed.

Lemma cert_product_divides N p cert :
  1 < N -> Z.prime p -> (p | N) ->
  Forall Z.prime (cert_primes cert) -> check_cert N cert = true ->
  (cert_product cert | p - 1).
Proof.
  intros HN Hp HpN.
  induction cert as [|[[q e] a] rest IH]; cbn [cert_product cert_primes check_cert];
    intros Hq Hc.
  - apply Z.divide_1_l.
  - inversion Hq as [|? ? Hq1 Hq2]; subst.
    cbv zeta in Hc.
    repeat (apply andb_prop in Hc; destruct Hc as [Hc ?]).
    pose proof (Z.prime_ge_2 _ Hq1) as Hq2'.
    assert (He : 1 <= e) by (apply Z.leb_le; assumption).
    assert (Hqe : (q ^ e | N - 1)).
    { apply Z.mod_divide; [|apply Z.eqb_eq; assumption].
      apply Z.pow_nonzero; lia. }
    assert (Hdiv : (N - 1) / q * q = N - 1).
    { assert (D : (q | N - 1)).
      { apply Z.divide_trans with (q ^ e); [|exact Hqe].
        apply Z.divide_pow_same_r; lia. }
      destruct D as [c Hc']. rewrite Hc', Z.div_mul by lia. reflexivity. }
    apply coprime_divisors_mul.
    + apply Z.eqb_eq; assumption.
    + apply (prime_power_divides_pred N p q e a); trivial; try lia.
      * rewrite <- Hdiv at 1.
        rewrite Z.pow_mul_r, <- Z.mod_pow_l, <- !Zpow_mod_correct by (try apply Z.div_pos; lia).
        apply Z.eqb_eq; assumption.
      * rewrite <- Zpow_mod_correct by lia. apply Z.eqb_eq; assumption.
    + apply IH; trivial.
Qed.

(** Pocklington's criterion. *)
Theorem pocklington N cert :
  1 < N -> Forall Z.prime (cert_primes cert) -> check_cert N cert = true ->
  N < cert_product cert * cert_product cert -> Z.prime N.
Proof.
  intros HN Hq Hc HF. split; trivial.
  intros n Hn [m Hm].
  assert (Hm1 : 1 < m < N) by nia.
  assert (Hsmall : exists d, 1 < d /\ (d | N) /\ d * d <= N).
  { destruct (Z_le_gt_dec n m).
    - exists n. repeat split; try lia; [exists m; lia | nia].
    - exists m. repeat split; try lia; [exists n; lia | nia]. }
  destruct Hsmall as [d [Hd1 [HdN Hdd]]].
  destruct (exists_prime_divisor d Hd1) as [p [Hp Hpd]].
  pose proof (Z.prime_ge_2 _ Hp) as Hp2.
  assert (Hpled : p <= d) by (apply Z.divide_pos_le; trivial; lia).
  assert (HpN : (p | N)) by (apply Z.divide_trans with d; trivial).
  pose proof (cert_product_divides N p cert HN Hp HpN Hq Hc) as HFp.
  apply Z.divide_abs_l in HFp.
  apply Z.divide_pos_le in HFp; [|lia].
  nia.
Qed.

Lemma trial_division_sound fuel : forall d p,
  0 < d -> trial_division fuel d p = true ->
  forall k, d <= k < d + Z.of_nat fuel -> ~ (k | p).
Proof.
  induction fuel as [|fuel IH]; intros d p Hd Ht k Hk; [lia|].
  simpl in Ht. apply andb_prop in Ht. destruct Ht as [H1 H2].
  destruct (Z.eq_dec k d) as [->|Hne].
  - intros Hdiv. apply Z.mod_divide in Hdiv; [|lia].
    rewrite Hdiv in H1. discriminate.
  - apply (IH (d + 1) p); trivial; lia.
Qed.

Lemma prime_by_trial_division p :
  1 < p -> trial_division (Z.to_nat (p - 2)) 2 p = true -> Z.prime p.
Proof.
  intros Hp Ht. split; trivial.
  intros n Hn. apply (trial_division_sound _ 2 p ltac:(lia) Ht). lia.
Qed.

Ltac small_prime := apply prime_by_trial_division; [reflexivity | vm_cast_no_check (eq_refl true)].

Ltac pocklington_with cert :=
  apply (pocklington _ cert);
  [ reflexivity | repeat (apply Forall_cons || apply Forall_nil)
  | vm_cast_no_check (eq_refl true) | vm_cast_no_check (eq_refl Lt) ].

Lemma prime_1871 : Z.prime 1871.
Proof. small_prime. Qed.

Lemma prime_2731 : Z.prime 2731.
Proof. small_prime. Qed.

Lemma prime_2861 : Z.prime 2861.
Proof. small_prime. Qed.

Lemma prime_16699 : Z.prime 16699.
Proof. small_prime. Qed.

Lemma prime_85831 : Z.prime 85831.
Proof. pocklington_with [(2861, 1, 2)]. exact prime_2861. Qed.

Lemma prime_305873 : Z.prime 305873.
Proof. pocklington_with [(2731, 1, 2)]. exact prime_2731. Qed.

Lemma prime_1627771 : Z.prime 1627771.
Proof. pocklington_with [(1871, 1, 2)]. exact prime_1871. Qed.

Lemma prime_297159362677 : Z.prime 297159362677.
Proof. pocklington_with [(1627771, 1, 2)]. exact prime_1627771. Qed.

Lemma prime_107361793816595537 : Z.prime 107361793816595537.
Proof.
  pocklington_with [(16699, 1, 2); (85831, 1, 2)].
  - exact prime_16699.
  - exact prime_85831.
Qed.

Lemma prime_29047611873442575647497758179 : Z.prime 29047611873442575647497758179.
Proof.
  pocklington_with [(305873, 1, 2); (297159362677, 1, 2)].
  - exact prime_305873.
  - exact prime_297159362677.
Qed.

Lemma prime_341948486974166000522343609283189 :
  Z.prime 341948486974166000522343609283189.
Proof.
  pocklington_with [(29047611873442575647497758179, 1, 2)].
  exact prime_29047611873442575647497758179.
Qed.

(** The order of the group of secp256k1 is prime. *)
Lemma CURVE_n_prime : Z.prime CURVE.n.
Proof.
  pocklington_with
    [(107361793816595537, 1, 2); (341948486974166000522343609283189, 1, 2)].
  - exact prime_107361793816595537.
  - exact prime_341948486974166000522343609283189.
Qed.

(** ** Facts about [CURVE.n] *)

Lemma CURVE_n_gt_1 : 1 < CURVE.n.
Proof. reflexivity. Qed.

Lemma CURVE_n_fits : CURVE.n < 256 ^ Z.of_nat 32.
Proof. reflexivity. Qed.

Lemma mod_n a : mod_ a CURVE.n = Ok (a mod CURVE.n).
Proof. apply mod_spec. pose proof CURVE_n_gt_1. lia. Qed.

Lemma coprime_n a : a mod CURVE.n <> 0 -> Z.gcd a CURVE.n = 1.
Proof.
  intros H. rewrite Z.gcd_comm. apply Z.coprime_prime_l; [exact CURVE_n_prime|].
  intros D. apply H. apply Z.mod0_divide. exact D.
Qed.

(** [modInverse] modulo the order: an inverse for every number that is not
    a multiple of [n], the error for the multiples. *)
Lemma modInverse_n a :
  0 <= a ->
  (a mod CURVE.n <> 0 ->
   exists v, modInverse a CURVE.n = Ok v /\ (v * a) mod CURVE.n = 1)
  /\ (a mod CURVE.n = 0 ->
      modInverse a CURVE.n = Throw "Modular inverse does not exist").
Proof.
  intros Ha. pose proof CURVE_n_gt_1 as Hn.
  destruct (modInverse_nonneg a CURVE.n Ha Hn) as [H1 H2].
  split; intros H.
  - apply H1, coprime_n, H.
  - apply H2. intros G.
    apply Z.mod_divide in H; [|lia].
    assert (D : (CURVE.n | 1)).
    { rewrite <- G. apply Z.gcd_greatest; [exact H | apply Z.divide_refl]. }
    apply Z.divide_1_r in D. lia.
Qed.

(** Two inverses of the same number are congruent. *)
Lemma inverse_unique N a v w :
  eqm N (v * a) 1 -> eqm N (w * a) 1 -> eqm N v w.
Proof.
  intros Hv Hw.
  transitivity (v * (w * a)); [rewrite Hw; now rewrite Z.mul_1_r|].
  replace (v * (w * a)) with ((v * a) * w) by ring.
  rewrite Hv. now rewrite Z.mul_1_l.
Qed.

(** ** Signing *)

Lemma bytesToNumber_snoc bytes b :
  bytesToNumber (bytes ++ [b]) = bytesToNumber bytes * 256 + byteToZ b.
Proof.
  unfold bytesToNumber. rewrite fold_left_app. cbn [fold_left]. now rewrite shiftl_8.
Qed.

Lemma bytesToNumber_range bytes :
  0 <= bytesToNumber bytes < 256 ^ Z.of_nat (List.length bytes).
Proof.
  induction bytes as [|b bytes IH] using rev_ind.
  - simpl. unfold bytesToNumber. simpl. lia.
  - rewrite bytesToNumber_snoc, length_app. simpl List.length.
    rewrite Nat2Z.inj_add, Z.pow_add_r by lia. change (256 ^ Z.of_nat 1) with 256.
    pose proof (byteToZ_range b). lia.
Qed.

Lemma Uint8Array_set_front source k1 k2 :
  List.length source = k1 ->
  Uint8Array_set (repeat x00 (k1 + k2)) source 0 = Ok (source ++ repeat x00 k2).
Proof.
  intros <-. unfold Uint8Array_set. rewrite repeat_length.
  destruct (Nat.leb_spec (0 + List.length source) (List.length source + k2)); [|lia].
  cbn [firstn app Nat.add]. rewrite repeat_app, skipn_app, repeat_length, Nat.sub_diag.
  rewrite skipn_all2 by (rewrite repeat_length; lia). reflexivity.
Qed.

Lemma Uint8Array_set_back front source k :
  List.length source = k ->
  Uint8Array_set (front ++ repeat x00 k) source (List.length front) = Ok (front ++ source).
Proof.
  intros <-. unfold Uint8Array_set. rewrite length_app, repeat_length, Nat.leb_refl.
  rewrite firstn_app, firstn_all, Nat.sub_diag, skipn_all2
    by (rewrite length_app, repeat_length; lia).
  cbn [firstn]. now rewrite !app_nil_r.
Qed.

Section Signing.

Variable getPublicKeySecp : list byte -> bool -> Result (list byte).
Variable sha256 : list byte -> list byte.

(** The derived nonce is the hash of the key bytes followed by the digest
    bytes; building the input of the hash never fails. *)
Lemma deriveNonce_ok privKey msgHash :
  deriveNonce sha256 privKey msgHash = Ok (sha256 (privKey ++ msgHash)).
Proof.
  unfold deriveNonce, Uint8Array_new.
  rewrite Uint8Array_set_front by reflexivity. cbn [bind].
  rewrite Uint8Array_set_back by reflexivity. reflexivity.
Qed.

(** [signEOTS] after the nonce is chosen: the modular inverse exists for
    every nonce that passes the range check. *)
Lemma signEOTS_unfold privateKey messageHash nonce k :
  selectNonce sha256 (asBytes privateKey) (asBytes messageHash) nonce = Ok k ->
  signEOTS getPublicKeySecp sha256 privateKey messageHash nonce =
  let kNum := bytesToNumber k in
  if (kNum >=? CURVE.n) || (kNum =? 0) then Throw "Invalid nonce generated"
  else
    kPoint <- getPublicKeySecp k false ;;
    let r := Uint8Array_slice kPoint 1 33 in
    let sNum := sValue kNum (bytesToNumber (asBytes messageHash)) (bytesToNumber r)
                  (bytesToNumber (asBytes privateKey)) in
    if sNum =? 0 then Throw "Invalid signature: s is zero"
    else Ok {| r := r; s := numberToBytes sNum 32 |}.
Proof.
  intros Hk. unfold signEOTS. rewrite Hk. cbn [bind]. cbv zeta.
  destruct (Z.geb_spec (bytesToNumber k) CURVE.n) as [|Hlt]; [reflexivity|].
  destruct (Z.eqb_spec (bytesToNumber k) 0) as [|Hnz]; [reflexivity|].
  cbn [orb].
  destruct (getPublicKeySecp k false) as [kPoint|e]; [|reflexivity].
  cbn [bind].
  pose proof (bytesToNumber_range k) as [Hk0 _].
  pose proof CURVE_n_gt_1 as Hn.
  assert (Hmod : bytesToNumber k mod CURVE.n <> 0) by (rewrite Z.mod_small; lia).
  destruct (modInverse_n _ Hk0) as [Hinv _].
  destruct (Hinv Hmod) as (kInv & -> & HkInv).
  cbn [bind]. rewrite mod_n. cbn [bind].
  assert (E : eqm CURVE.n kInv (Z.invmod (bytesToNumber k) CURVE.n)).
  { apply (inverse_unique _ (bytesToNumber k)).
    - unfold eqm. rewrite HkInv. symmetry. apply Z.mod_small; lia.
    - unfold eqm. rewrite Z.invmod_coprime; [|lia|apply coprime_n, Hmod].
      symmetry. apply Z.mod_small; lia. }
  unfold sValue.
  match goal with
  | |- context [ (kInv * ?t) mod CURVE.n ] =>
      assert (E' : (kInv * t) mod CURVE.n
                   = (Z.invmod (bytesToNumber k) CURVE.n * t) mod CURVE.n)
        by (change (eqm CURVE.n (kInv * t) (Z.invmod (bytesToNumber k) CURVE.n * t));
            now rewrite E)
  end.
  rewrite E'. reflexivity.
Qed.

End Signing.

(** ** Key extraction *)

Section NonceReuse.

(** The algebra of nonce reuse, modulo any [N]: two signatures with the
    same [k] and [r] determine [k], then the key. *)
Variables N k kInv x r h1 h2 s1 s2 : Z.
Hypothesis kInv_k : eqm N (kInv * k) 1.
Hypothesis sign1 : eqm N s1 (kInv * (h1 + r * x)).
Hypothesis sign2 : eqm N s2 (kInv * (h2 + r * x)).

Lemma k_times_sDiff : eqm N (k * (s1 - s2)) (h1 - h2).
Proof.
  rewrite sign1, sign2.
  replace (k * (kInv * (h1 + r * x) - kInv * (h2 + r * x)))
    with ((kInv * k) * (h1 - h2)) by ring.
  rewrite kInv_k. now rewrite Z.mul_1_l.
Qed.

Lemma same_s_same_digest : eqm N s1 s2 -> eqm N h1 h2.
Proof.
  intros E.
  assert (Z0 : eqm N (h1 - h2) 0).
  { rewrite <- k_times_sDiff, E.
    now replace (k * (s2 - s2)) with 0 by ring. }
  replace h1 with ((h1 - h2) + h2) by ring.
  rewrite Z0. reflexivity.
Qed.

Variables sDiffInv rInv : Z.
Hypothesis sDiffInv_ok : eqm N (sDiffInv * (s1 - s2)) 1.
Hypothesis rInv_ok : eqm N (rInv * r) 1.

Lemma recovered_nonce : eqm N ((h1 - h2) * sDiffInv) k.
Proof.
  rewrite <- k_times_sDiff.
  replace (k * (s1 - s2) * sDiffInv) with (k * (sDiffInv * (s1 - s2))) by ring.
  rewrite sDiffInv_ok. now rewrite Z.mul_1_r.
Qed.

Lemma recovered_key : eqm N ((s1 * ((h1 - h2) * sDiffInv) - h1) * rInv) x.
Proof.
  rewrite recovered_nonce, sign1.
  replace ((kInv * (h1 + r * x) * k - h1) * rInv)
    with (((kInv * k) * (h1 + r * x) - h1) * rInv) by ring.
  rewrite kInv_k.
  replace ((1 * (h1 + r * x) - h1) * rInv) with ((rInv * r) * x) by ring.
  rewrite rInv_ok. now rewrite Z.mul_1_l.
Qed.

End NonceReuse.

Lemma eqm_mod_eq N a b : eqm N a b -> a mod N = b mod N.
Proof. intros H; exact H. Qed.

Lemma selectNonce_explicit sha256 privKey msgHash nonce :
  bytesToNumber (asBytes nonce) <> 0 ->
  selectNonce sha256 privKey msgHash (Some nonce) = Ok (asBytes nonce).
Proof.
  intros H. unfold selectNonce.
  destruct nonce as [bytes | hex]; [reflexivity|].
  destruct hex; [exfalso; apply H; reflexivity | reflexivity].
Qed.

Section Extraction.

Variable getPublicKeySecp : list byte -> bool -> Result (list byte).
Variable sha256 : list byte -> list byte.

(** What a successful [signEOTS] returned. *)
Lemma signEOTS_Ok_inv privateKey messageHash nonce k sig :
  selectNonce sha256 (asBytes privateKey) (asBytes messageHash) nonce = Ok k ->
  signEOTS getPublicKeySecp sha256 privateKey messageHash nonce = Ok sig ->
  0 < bytesToNumber k < CURVE.n
  /\ exists kPoint,
       getPublicKeySecp k false = Ok kPoint
       /\ sig.(r) = Uint8Array_slice kPoint 1 33
       /\ sig.(s) = numberToBytes
                      (sValue (bytesToNumber k) (bytesToNumber (asBytes messageHash))
                         (bytesToNumber sig.(r)) (bytesToNumber (asBytes privateKey))) 32
       /\ sValue (bytesToNumber k) (bytesToNumber (asBytes messageHash))
            (bytesToNumber sig.(r)) (bytesToNumber (asBytes privateKey)) <> 0.
Proof.
  intros Hk Hs. rewrite (signEOTS_unfold _ _ _ _ _ _ Hk) in Hs. cbv zeta in Hs.
  pose proof (bytesToNumber_range k) as [Hk0 _].
  destruct (Z.geb_spec (bytesToNumber k) CURVE.n); [discriminate|].
  destruct (Z.eqb_spec (bytesToNumber k) 0); [discriminate|].
  cbn [orb] in Hs. split; [lia|].
  destruct (getPublicKeySecp k false) as [kPoint|]; [|discriminate].
  cbn [bind] in Hs. exists kPoint.
  destruct (Z.eqb_spec (sValue (bytesToNumber k) (bytesToNumber (asBytes messageHash))
              (bytesToNumber (Uint8Array_slice kPoint 1 33))
              (bytesToNumber (asBytes privateKey))) 0) as [|Hnz]; [discriminate|].
  injection Hs as <-. cbn [r s]. auto.
Qed.

Lemma sValue_range k h rr x : 0 <= sValue k h rr x < 256 ^ Z.of_nat 32.
Proof.
  unfold sValue. pose proof CURVE_n_gt_1. pose proof CURVE_n_fits.
  pose proof (Z.mod_pos_bound (Z.invmod k CURVE.n * (h + rr * x)) CURVE.n ltac:(lia)).
  lia.
Qed.

End Extraction.

(** C5. [extractPrivateKey] checks its preconditions in order, each with
    its own error, before any modular inverse is computed: different [r]
    values first, then equal [s] values, then [s] values that are equal
    modulo [n]. The three errors are pairwise distinct. *)
Theorem extractPrivateKey_precondition_order (sig1 sig2 : EOTSSignature)
  (hash1 hash2 : BytesLike) :
  let r1 := bytesToNumber sig1.(r) in
  let s1 := bytesToNumber sig1.(s) in
  let r2 := bytesToNumber sig2.(r) in
  let s2 := bytesToNumber sig2.(s) in
  let nonceMismatch :=
    "Signatures do not use the same nonce (r values are different)" in
  let identical := "Signatures are identical" in
  let degenerate := "Cannot extract private key: s1 equals s2" in
  (r1 <> r2 -> extractPrivateKey sig1 sig2 hash1 hash2 = Throw nonceMismatch)
  /\ (r1 = r2 -> s1 = s2 ->
      extractPrivateKey sig1 sig2 hash1 hash2 = Throw identical)
  /\ (r1 = r2 -> s1 <> s2 -> (s1 - s2) mod CURVE.n = 0 ->
      extractPrivateKey sig1 sig2 hash1 hash2 = Throw degenerate)
  /\ nonceMismatch <> identical /\ identical <> degenerate
  /\ nonceMismatch <> degenerate.
Proof.
  cbv zeta. unfold extractPrivateKey.
  repeat split; try discriminate.
  - intros Hr. apply Z.eqb_neq in Hr. now rewrite Hr.
  - intros Hr Hs. apply Z.eqb_eq in Hr, Hs. now rewrite Hr, Hs.
  - intros Hr Hs Hd. apply Z.eqb_eq in Hr. apply Z.eqb_neq in Hs.
    rewrite Hr, Hs. cbn [negb]. rewrite mod_n. cbn [bind]. now rewrite Hd.
Qed.

(** [extractPrivateKey] past its three checks: the modular inverse of [r]
    decides between the key and the error of [modInverse]. *)
Lemma extractPrivateKey_unfold (sig1 sig2 : EOTSSignature) (hash1 hash2 : BytesLike) :
  let r1 := bytesToNumber sig1.(r) in
  let s1 := bytesToNumber sig1.(s) in
  let s2 := bytesToNumber sig2.(s) in
  let h1 := bytesToNumber (asBytes hash1) in
  let h2 := bytesToNumber (asBytes hash2) in
  r1 = bytesToNumber sig2.(r) -> (s1 - s2) mod CURVE.n <> 0 ->
  (r1 mod CURVE.n = 0 ->
   extractPrivateKey sig1 sig2 hash1 hash2 = Throw "Modular inverse does not exist")
  /\ (r1 mod CURVE.n <> 0 ->
      exists sDiffInv rInv,
        eqm CURVE.n (sDiffInv * (s1 - s2)) 1 /\ eqm CURVE.n (rInv * r1) 1
        /\ extractPrivateKey sig1 sig2 hash1 hash2 =
           Ok (numberToBytes
                 (((s1 * (((h1 - h2) mod CURVE.n * sDiffInv) mod CURVE.n) - h1)
                     mod CURVE.n * rInv) mod CURVE.n) 32)).
Proof.
  cbv zeta. intros Hr Hd. unfold extractPrivateKey.
  pose proof CURVE_n_gt_1 as Hn.
  rewrite <- Hr, Z.eqb_refl. cbn [negb].
  assert (Hs : bytesToNumber sig1.(s) <> bytesToNumber sig2.(s)).
  { intros E. apply Hd. rewrite E, Z.sub_diag. apply Z.mod_0_l. lia. }
  apply Z.eqb_neq in Hs. rewrite Hs.
  rewrite !mod_n. cbn [bind].
  apply Z.eqb_neq in Hd. rewrite Hd. apply Z.eqb_neq in Hd.
  set (sDiff := (bytesToNumber sig1.(s) - bytesToNumber sig2.(s)) mod CURVE.n) in *.
  assert (Hsd : 0 <= sDiff < CURVE.n) by (apply Z.mod_pos_bound; lia).
  destruct (modInverse_n sDiff ltac:(lia)) as [Hinv _].
  destruct Hinv as (sDiffInv & -> & HsDiffInv).
  { rewrite Z.mod_small; lia. }
  cbn [bind]. repeat (rewrite mod_n; cbn [bind]).
  pose proof (bytesToNumber_range sig1.(r)) as [Hr0 _].
  destruct (modInverse_n (bytesToNumber sig1.(r)) Hr0) as [Hrinv Hrnone].
  split; intros Hrm.
  - now rewrite (Hrnone Hrm).
  - destruct (Hrinv Hrm) as (rInv & -> & HrInv).
    cbn [bind]. repeat (rewrite mod_n; cbn [bind]).
    exists sDiffInv, rInv. repeat split.
    + unfold eqm. rewrite <- Z.mul_mod_idemp_r by lia. fold sDiff.
      rewrite HsDiffInv. symmetry. apply Z.mod_small; lia.
    + unfold eqm. rewrite HrInv. symmetry. apply Z.mod_small; lia.
Qed.

Section Recovery.

Variable getPublicKeySecp : list byte -> bool -> Result (list byte).
Variable sha256 : list byte -> list byte.

(** Nonce-reuse recovery away from the defect: when the same key [x] and
    the same explicit nonce [k] sign two digests that differ modulo [n], and
    the shared [r] is not a multiple of [n], [extractPrivateKey] returns the
    32 bytes whose big-endian value is [x]. *)
Lemma nonce_reuse_recovery (privateKey nonce hash1 hash2 : BytesLike)
  (sig1 sig2 : EOTSSignature) :
  let x := bytesToNumber (asBytes privateKey) in
  let k := bytesToNumber (asBytes nonce) in
  0 < x < CURVE.n -> 0 < k < CURVE.n ->
  bytesToNumber (asBytes hash1) mod CURVE.n
    <> bytesToNumber (asBytes hash2) mod CURVE.n ->
  signEOTS getPublicKeySecp sha256 privateKey hash1 (Some nonce) = Ok sig1 ->
  signEOTS getPublicKeySecp sha256 privateKey hash2 (Some nonce) = Ok sig2 ->
  bytesToNumber sig1.(r) mod CURVE.n <> 0 ->
  exists out,
    extractPrivateKey sig1 sig2 hash1 hash2 = Ok out
    /\ List.length out = 32%nat /\ bytesToNumber out = x.
Proof.
  cbv zeta. intros Hx Hk Hh Hs1 Hs2 Hr.
  pose proof CURVE_n_gt_1 as Hn. pose proof CURVE_n_fits as Hfit.
  assert (Hsel : forall h, selectNonce sha256 (asBytes privateKey) (asBytes h)
                     (Some nonce) = Ok (asBytes nonce))
    by (intros h; apply selectNonce_explicit; lia).
  destruct (signEOTS_Ok_inv _ _ _ _ _ _ _ (Hsel hash1) Hs1)
    as (_ & kPoint1 & Hp1 & Hr1 & Hsig1 & Hnz1).
  destruct (signEOTS_Ok_inv _ _ _ _ _ _ _ (Hsel hash2) Hs2)
    as (_ & kPoint2 & Hp2 & Hr2 & Hsig2 & Hnz2).
  rewrite Hp1 in Hp2. injection Hp2 as <-.
  assert (Hrr : sig2.(r) = sig1.(r)) by congruence.
  rewrite Hrr in Hsig2, Hnz2.
  set (kn := bytesToNumber (asBytes nonce)) in *.
  set (xn := bytesToNumber (asBytes privateKey)) in *.
  set (rn := bytesToNumber sig1.(r)) in *.
  set (h1 := bytesToNumber (asBytes hash1)) in *.
  set (h2 := bytesToNumber (asBytes hash2)) in *.
  destruct (numberToBytes_spec (sValue kn h1 rn xn) 32 ltac:(lia) (sValue_range _ _ _ _))
    as [_ Hv1].
  destruct (numberToBytes_spec (sValue kn h2 rn xn) 32 ltac:(lia) (sValue_range _ _ _ _))
    as [_ Hv2].
  rewrite <- Hsig1 in Hv1. rewrite <- Hsig2 in Hv2.
  (* the signing equations, modulo n *)
  assert (HkInv : eqm CURVE.n (Z.invmod kn CURVE.n * kn) 1).
  { unfold eqm. rewrite Z.invmod_coprime; [symmetry; apply Z.mod_small; lia | lia |].
    apply coprime_n. rewrite Z.mod_small; lia. }
  assert (E1 : eqm CURVE.n (bytesToNumber sig1.(s)) (Z.invmod kn CURVE.n * (h1 + rn * xn))).
  { rewrite Hv1. unfold sValue. apply Zmod_eqm. }
  assert (E2 : eqm CURVE.n (bytesToNumber sig2.(s)) (Z.invmod kn CURVE.n * (h2 + rn * xn))).
  { rewrite Hv2. unfold sValue. apply Zmod_eqm. }
  assert (Hd : (bytesToNumber sig1.(s) - bytesToNumber sig2.(s)) mod CURVE.n <> 0).
  { intros Hz. apply Hh.
    apply (same_s_same_digest CURVE.n kn (Z.invmod kn CURVE.n) xn rn h1 h2
             (bytesToNumber sig1.(s)) (bytesToNumber sig2.(s)) HkInv E1 E2).
    unfold eqm.
    replace (bytesToNumber sig1.(s))
      with ((bytesToNumber sig1.(s) - bytesToNumber sig2.(s)) + bytesToNumber sig2.(s))
      by ring.
    rewrite <- Z.add_mod_idemp_l, Hz by lia. reflexivity. }
  assert (Hreq : bytesToNumber sig1.(r) = bytesToNumber sig2.(r)) by now rewrite Hrr.
  destruct (extractPrivateKey_unfold sig1 sig2 hash1 hash2 Hreq Hd) as [_ Hok].
  destruct (Hok Hr) as (sDiffInv & rInv & HsDiffInv & HrInv & ->).
  fold rn h1 h2 in HrInv |- *.
  eexists. split; [reflexivity|].
  match goal with
  | |- context [numberToBytes ?v 32] =>
      assert (Hval : v = xn); [|rewrite Hval; apply numberToBytes_spec; lia]
  end.
  rewrite <- (Z.mod_small xn CURVE.n) by lia.
  apply eqm_mod_eq.
  rewrite !Zmod_eqm.
  exact (recovered_key CURVE.n kn (Z.invmod kn CURVE.n) xn rn h1 h2
           (bytesToNumber sig1.(s)) (bytesToNumber sig2.(s)) HkInv E1 E2
           sDiffInv rInv HsDiffInv HrInv).
Qed.

End Recovery.

Section SigningClaims.

Variable getPublicKeySecp : list byte -> bool -> Result (list byte).
Variable sha256 : list byte -> list byte.

(** C6 (amended). [signEOTS] rejects a nonce (given or derived) that is 0
    or not below [n] with the invalid-nonce error. A nonce in range is
    handed to the curve library, and [signEOTS] fails with the error of the
    library when that throws. When the library returns the point, it
    computes [s = k^-1 * (digest_int + r * privateKey_int) mod n], fails
    when [s] is 0, and otherwise returns [(r, s)] with [s] written as the
    32 bytes whose big-endian value it is. *)
Theorem signEOTS_nonce_check_and_s (privateKey messageHash : BytesLike)
  (nonce : option BytesLike) (k : list byte) :
  selectNonce sha256 (asBytes privateKey) (asBytes messageHash) nonce = Ok k ->
  let kNum := bytesToNumber k in
  let sign := signEOTS getPublicKeySecp sha256 privateKey messageHash nonce in
  (kNum = 0 \/ CURVE.n <= kNum -> sign = Throw "Invalid nonce generated")
  /\ (0 < kNum < CURVE.n ->
      (Z.invmod kNum CURVE.n * kNum) mod CURVE.n = 1
      /\ (forall message, getPublicKeySecp k false = Throw message ->
          sign = Throw message)
      /\ forall kPoint, getPublicKeySecp k false = Ok kPoint ->
         let r := Uint8Array_slice kPoint 1 33 in
         let sNum :=
           (Z.invmod kNum CURVE.n
            * (bytesToNumber (asBytes messageHash)
               + bytesToNumber r * bytesToNumber (asBytes privateKey)))
           mod CURVE.n in
         (sNum = 0 -> sign = Throw "Invalid signature: s is zero")
         /\ (sNum <> 0 ->
             exists sBytes,
               sign = Ok {| r := r; s := sBytes |}
               /\ List.length sBytes = 32%nat /\ bytesToNumber sBytes = sNum)).
Proof.
  intros Hk. cbv zeta. rewrite (signEOTS_unfold _ _ _ _ _ _ Hk). cbv zeta.
  pose proof CURVE_n_gt_1 as Hn.
  split.
  - intros [H0 | Hge].
    + rewrite H0. reflexivity.
    + destruct (Z.geb_spec (bytesToNumber k) CURVE.n); [reflexivity | lia].
  - intros Hr. split.
    { apply Z.invmod_coprime; [lia|]. apply coprime_n. rewrite Z.mod_small; lia. }
    destruct (Z.geb_spec (bytesToNumber k) CURVE.n); [lia|].
    destruct (Z.eqb_spec (bytesToNumber k) 0); [lia|].
    cbn [orb]. split; [intros message Hp; now rewrite Hp |].
    intros kPoint Hp.
    rewrite Hp. cbn [bind]. unfold sValue.
    split.
    + intros ->. reflexivity.
    + intros Hs. apply Z.eqb_neq in Hs. rewrite Hs. apply Z.eqb_neq in Hs.
      eexists. split; [reflexivity|].
      apply numberToBytes_spec; [lia|]. apply sValue_range.
Qed.

(** C9. Without an explicit nonce (none, or the empty string) the nonce of
    [signEOTS] is the hash of the key bytes followed by the digest bytes:
    the range check, the scalar handed to the curve library and the inverse
    in [s] are all taken at that hash, and the result is the one of the
    call that passes the hash as explicit nonce. The result is a function
    of key and digest, so two calls return the same signature. *)
Theorem signEOTS_derived_nonce (privateKey messageHash : BytesLike) :
  let k := sha256 (asBytes privateKey ++ asBytes messageHash) in
  let kNum := bytesToNumber k in
  let sign := signEOTS getPublicKeySecp sha256 privateKey messageHash in
  selectNonce sha256 (asBytes privateKey) (asBytes messageHash) None = Ok k
  /\ sign None =
     (if (kNum >=? CURVE.n) || (kNum =? 0) then Throw "Invalid nonce generated"
      else
        kPoint <- getPublicKeySecp k false ;;
        let r := Uint8Array_slice kPoint 1 33 in
        let sNum :=
          (Z.invmod kNum CURVE.n
           * (bytesToNumber (asBytes messageHash)
              + bytesToNumber r * bytesToNumber (asBytes privateKey)))
          mod CURVE.n in
        if sNum =? 0 then Throw "Invalid signature: s is zero"
        else Ok {| r := r; s := numberToBytes sNum 32 |})
  /\ sign None = sign (Some (OfBytes k))
  /\ sign (Some (OfHex EmptyString)) = sign None
  /\ (forall sig1 sig2, sign None = Ok sig1 -> sign None = Ok sig2 -> sig1 = sig2).
Proof.
  cbv zeta.
  assert (Hk : selectNonce sha256 (asBytes privateKey) (asBytes messageHash) None
               = Ok (sha256 (asBytes privateKey ++ asBytes messageHash)))
    by apply deriveNonce_ok.
  split; [exact Hk | split].
  - rewrite (signEOTS_unfold _ _ _ _ _ _ Hk). reflexivity.
  - repeat split.
    + unfold signEOTS, selectNonce. cbn [truthy]. now rewrite deriveNonce_ok.
    + intros sig1 sig2 H1 H2. congruence.
Qed.

End SigningClaims.

(** ** Verification *)

Section Verification.

Variable verify : list byte -> list byte -> list byte -> Result bool.

(** [verifyEOTS] never throws: the outer handler turns every error of its
    body into [false]. *)
Lemma verifyEOTS_total (publicKey messageHash : BytesLike) (signature : EOTSSignature) :
  exists b, verifyEOTS verify publicKey messageHash signature = Ok b.
Proof.
  unfold verifyEOTS.
  match goal with
  | |- exists b, try_catch ?body _ = Ok b => destruct body as [b|e] eqn:E
  end; cbn [try_catch]; eauto.
Qed.

(** C7. A signature whose [r] or [s] is not strictly between 0 and [n]
    (0 and [n] included) makes [verifyEOTS] return [false]; the result is
    the same for every behaviour of the library verification routine, which
    is therefore not consulted. *)
Theorem verifyEOTS_rejects_out_of_range (publicKey messageHash : BytesLike)
  (signature : EOTSSignature) :
  let r := bytesToNumber signature.(r) in
  let s := bytesToNumber signature.(s) in
  r <= 0 \/ CURVE.n <= r \/ s <= 0 \/ CURVE.n <= s ->
  verifyEOTS verify publicKey messageHash signature = Ok false.
Proof.
  cbv zeta. intros H. unfold verifyEOTS.
  assert (E : (bytesToNumber signature.(r) <=? 0)
              || (bytesToNumber signature.(r) >=? CURVE.n)
              || (bytesToNumber signature.(s) <=? 0)
              || (bytesToNumber signature.(s) >=? CURVE.n) = true).
  { repeat rewrite orb_true_iff.
    rewrite !Z.leb_le, !Z.geb_le. tauto. }
  now rewrite E.
Qed.

(** [verifyEOTS] on components in range: the verdict of the library on the
    64 bytes [r ‖ s], and [true] when the library throws. *)
Lemma verifyEOTS_in_range (publicKey messageHash : BytesLike) (signature : EOTSSignature) :
  let r := bytesToNumber signature.(r) in
  let s := bytesToNumber signature.(s) in
  0 < r < CURVE.n -> 0 < s < CURVE.n ->
  verifyEOTS verify publicKey messageHash signature =
  Ok match verify (numberToBytes r 32 ++ numberToBytes s 32)
             (asBytes messageHash) (asBytes publicKey) with
     | Ok b => b
     | Throw _ => true
     end.
Proof.
  cbv zeta. intros Hr Hs. unfold verifyEOTS.
  pose proof CURVE_n_fits as Hfit.
  destruct (Z.leb_spec (bytesToNumber signature.(r)) 0); [lia|].
  destruct (Z.geb_spec (bytesToNumber signature.(r)) CURVE.n); [lia|].
  destruct (Z.leb_spec (bytesToNumber signature.(s)) 0); [lia|].
  destruct (Z.geb_spec (bytesToNumber signature.(s)) CURVE.n); [lia|].
  cbn [orb].
  destruct (numberToBytes_spec (bytesToNumber signature.(r)) 32 ltac:(lia) ltac:(lia))
    as [Lr _].
  destruct (numberToBytes_spec (bytesToNumber signature.(s)) 32 ltac:(lia) ltac:(lia))
    as [Ls _].
  unfold Uint8Array_new. change 64%nat with (32 + 32)%nat.
  rewrite Uint8Array_set_front by exact Lr. cbn [bind].
  pose proof (Uint8Array_set_back
                (numberToBytes (bytesToNumber signature.(r)) 32) _ 32 Ls) as Hback.
  rewrite Lr in Hback. rewrite Hback. cbn [bind].
  destruct (verify _ _ _) as [b|e]; reflexivity.
Qed.

(** C3, at the failing input. When [r] and [s] are in range and the
    library verification routine throws, [verifyEOTS] returns [true]: the
    inner handler accepts the signature instead of rejecting it. *)
Theorem verifyEOTS_accepts_when_library_throws (publicKey messageHash : BytesLike)
  (signature : EOTSSignature) (message : string) :
  let r := bytesToNumber signature.(r) in
  let s := bytesToNumber signature.(s) in
  0 < r < CURVE.n -> 0 < s < CURVE.n ->
  verify (numberToBytes r 32 ++ numberToBytes s 32)
    (asBytes messageHash) (asBytes publicKey) = Throw message ->
  verifyEOTS verify publicKey messageHash signature = Ok true.
Proof.
  cbv zeta. intros Hr Hs Hv.
  rewrite verifyEOTS_in_range by assumption. now rewrite Hv.
Qed.

End Verification.

(** ** Hex strings of 63 characters *)

Lemma length_slice_from k s :
  String.length (slice_from k s) = (String.length s - k)%nat.
Proof.
  revert s. induction k as [|k IH]; intros s; simpl; [lia|].
  destruct s as [|c s]; simpl; [reflexivity | apply IH].
Qed.

(** [isValidHex(hex, 32)] is false on every string of 63 characters. *)
Lemma isValidHex_63 hex :
  String.length hex = 63%nat -> isValidHex hex (Some 32%nat) = false.
Proof.
  intros H. unfold isValidHex.
  destruct (startsWith hex "0x").
  - rewrite length_slice_from, H. cbn. apply andb_false_r.
  - rewrite H. cbn. apply andb_false_r.
Qed.

Lemma hexToBytes_63 hex :
  String.length hex = 63%nat -> all_chars isHexDigit hex = true ->
  hexToBytes hex = hexToBytes (String "0" hex)
  /\ List.length (hexToBytes hex) = 32%nat
  /\ bytesToNumber (hexToBytes hex) = hexNumber 0 hex.
Proof.
  intros Hlen Hall.
  assert (Hall' : all_chars isHexDigit (String "0" hex) = true)
    by (simpl; exact Hall).
  assert (E : hexToBytes hex = hexToBytes (String "0" hex)).
  { unfold hexToBytes.
    rewrite (startsWith_0x_all_digits _ Hall), (startsWith_0x_all_digits _ Hall').
    cbn [String.length]. rewrite Hlen. reflexivity. }
  rewrite E.
  destruct (hexToBytes_digits 32 (String "0" hex)) as [L N]; trivial.
  { cbn [String.length]. rewrite Hlen. reflexivity. }
  repeat split; trivial.
Qed.

Lemma signEOTS_asBytes getPublicKeySecp sha256 key key' digest digest' nonce nonce' :
  asBytes key = asBytes key' -> asBytes digest = asBytes digest' ->
  asBytes nonce = asBytes nonce' -> truthy nonce = truthy nonce' ->
  signEOTS getPublicKeySecp sha256 key digest (Some nonce)
  = signEOTS getPublicKeySecp sha256 key' digest' (Some nonce').
Proof.
  intros Hk Hd Hn Ht. unfold signEOTS, selectNonce. now rewrite Hk, Hd, Hn, Ht.
Qed.

(** C8 (amended). A key, digest or nonce of 63 radix-16 digits is not
    rejected by [signEOTS]: [hexToBytes] puts a ["0"] in front of it and the
    signing proceeds as for that 64-character value, on 32 bytes. The check
    that does reject such a value is [isValidHex(value, 32)]. *)
Theorem signEOTS_pads_63_digits (hex : string) :
  String.length hex = 63%nat -> all_chars isHexDigit hex = true ->
  let padded := String "0" hex in
  List.length (asBytes (OfHex hex)) = 32%nat
  /\ bytesToNumber (asBytes (OfHex hex)) = hexNumber 0 hex
  /\ (forall getPublicKeySecp sha256 other1 other2,
        let sign := signEOTS getPublicKeySecp sha256 in
        sign (OfHex hex) other1 (Some other2) = sign (OfHex padded) other1 (Some other2)
        /\ sign other1 (OfHex hex) (Some other2) = sign other1 (OfHex padded) (Some other2)
        /\ sign other1 other2 (Some (OfHex hex)) = sign other1 other2 (Some (OfHex padded)))
  /\ isValidHex hex (Some 32%nat) = false.
Proof.
  intros Hlen Hall. cbv zeta.
  destruct (hexToBytes_63 hex Hlen Hall) as (E & L & N).
  repeat split; trivial.
  - apply signEOTS_asBytes; trivial.
  - apply signEOTS_asBytes; trivial.
  - apply signEOTS_asBytes; trivial.
    destruct hex; [discriminate | reflexivity].
  - now apply isValidHex_63.
Qed.

(** ** The claims on concrete inputs *)

Lemma sign_digest1 : sign key digest1 (Some nonce) = Ok sig1.
Proof. vm_compute; reflexivity. Qed.

Lemma sign_digest2 : sign key digest2 (Some nonce) = Ok sig2.
Proof. vm_compute; reflexivity. Qed.

Lemma order_point_on_curve : Secp256k1.on_curve Secp256k1.order_point = true.
Proof. vm_compute; reflexivity. Qed.

(** The recovery at key 1 and nonce 2 on the digests of the empty message
    and of the message [a], on secp256k1. *)
Lemma nonce_reuse_recovery_at_nonce_2 :
  (0 < bytesToNumber (asBytes key) < CURVE.n)
  /\ (0 < bytesToNumber (asBytes nonce) < CURVE.n)
  /\ bytesToNumber (asBytes digest1) mod CURVE.n
     <> bytesToNumber (asBytes digest2) mod CURVE.n
  /\ sign key digest1 (Some nonce) = Ok sig1
  /\ sign key digest2 (Some nonce) = Ok sig2
  /\ bytesToNumber sig1.(r) mod CURVE.n <> 0
  /\ exists out,
       extractPrivateKey sig1 sig2 digest1 digest2 = Ok out
       /\ List.length out = 32%nat
       /\ bytesToNumber out = bytesToNumber (asBytes key).
Proof.
  assert (Hx : 0 < bytesToNumber (asBytes key) < CURVE.n)
    by (split; vm_compute; reflexivity).
  assert (Hk : 0 < bytesToNumber (asBytes nonce) < CURVE.n)
    by (split; vm_compute; reflexivity).
  assert (Hh : bytesToNumber (asBytes digest1) mod CURVE.n
               <> bytesToNumber (asBytes digest2) mod CURVE.n)
    by (vm_compute; discriminate).
  assert (Hr : bytesToNumber sig1.(r) mod CURVE.n <> 0) by (vm_compute; discriminate).
  repeat (split; [assumption || exact sign_digest1 || exact sign_digest2|]).
  exact (nonce_reuse_recovery Secp256k1.getPublicKey Sha256.sha256
           key nonce digest1 digest2 sig1 sig2 Hx Hk Hh sign_digest1 sign_digest2 Hr).
Defined.

(** Witness of C6 (amended), on secp256k1: nonce 2 is accepted and [s] is
    written on 32 bytes; the nonces 0 and [n] are rejected; the nonce 2
    written on one byte is in range and the library refuses it. *)
Lemma signEOTS_nonce_check_and_s_witness :
  (exists sBytes,
     sign key digest1 (Some nonce)
     = Ok {| r := Uint8Array_slice
                    (Secp256k1.encode (Secp256k1.mul 2 Secp256k1.G) false) 1 33;
             s := sBytes |}
     /\ List.length sBytes = 32%nat
     /\ bytesToNumber sBytes
        = (Z.invmod (bytesToNumber (asBytes nonce)) CURVE.n
           * (bytesToNumber (asBytes digest1)
              + bytesToNumber
                  (Uint8Array_slice
                     (Secp256k1.encode (Secp256k1.mul 2 Secp256k1.G) false) 1 33)
                * bytesToNumber (asBytes key)))
          mod CURVE.n)
  /\ sign key digest1 (Some (OfBytes (be_bytes 32 0))) = Throw "Invalid nonce generated"
  /\ sign key digest1 (Some (OfBytes (be_bytes 32 CURVE.n)))
     = Throw "Invalid nonce generated"
  /\ sign key digest1 (Some (OfHex "02")) = Throw "Expected 32 bytes of private key".
Proof.
  assert (Hsel : forall given, truthy given = true ->
            selectNonce Sha256.sha256 (asBytes key) (asBytes digest1) (Some given)
            = Ok (asBytes given)) by (intros given H; unfold selectNonce; now rewrite H).
  pose proof (signEOTS_nonce_check_and_s Secp256k1.getPublicKey Sha256.sha256
                key digest1 (Some nonce) (asBytes nonce) (Hsel nonce eq_refl)) as T.
  pose proof (signEOTS_nonce_check_and_s Secp256k1.getPublicKey Sha256.sha256
                key digest1 (Some (OfBytes (be_bytes 32 0))) (be_bytes 32 0)
                (Hsel (OfBytes (be_bytes 32 0)) eq_refl)) as T0.
  pose proof (signEOTS_nonce_check_and_s Secp256k1.getPublicKey Sha256.sha256
                key digest1 (Some (OfBytes (be_bytes 32 CURVE.n))) (be_bytes 32 CURVE.n)
                (Hsel (OfBytes (be_bytes 32 CURVE.n)) eq_refl)) as Tn.
  pose proof (signEOTS_nonce_check_and_s Secp256k1.getPublicKey Sha256.sha256
                key digest1 (Some (OfHex "02")) (asBytes (OfHex "02"))
                (Hsel (OfHex "02") eq_refl)) as Ts.
  cbv zeta in T, T0, Tn, Ts.
  destruct T as [_ T]. destruct T0 as [T0 _]. destruct Tn as [Tn _].
  destruct Ts as [_ Ts].
  assert (Hk : 0 < bytesToNumber (asBytes nonce) < CURVE.n)
    by (split; vm_compute; reflexivity).
  assert (Hp : Secp256k1.getPublicKey (asBytes nonce) false
               = Ok (Secp256k1.encode (Secp256k1.mul 2 Secp256k1.G) false))
    by (vm_compute; reflexivity).
  assert (Hks : 0 < bytesToNumber (asBytes (OfHex "02")) < CURVE.n)
    by (split; vm_compute; reflexivity).
  destruct (T Hk) as [_ [_ T']]. destruct (T' _ Hp) as [_ T''].
  destruct (Ts Hks) as [_ [Ts' _]].
  split; [apply T''; vm_compute; discriminate|].
  split; [apply T0; left; vm_compute; reflexivity|].
  split; [apply Tn; right; vm_compute; discriminate|].
  apply Ts'. vm_compute; reflexivity.
Defined.

(** Counterexample to C6 as stated: the nonce 2 written on one byte is in
    range, and [signEOTS] neither computes [s] nor reports an invalid
    nonce: the curve library refuses a scalar that is not 32 bytes long and
    its error is the one of [signEOTS]. *)
Lemma signEOTS_in_range_nonce_refused :
  (0 < bytesToNumber (asBytes (OfHex "02")) < CURVE.n)
  /\ List.length (asBytes (OfHex "02")) = 1%nat
  /\ sign key digest1 (Some (OfHex "02")) = Throw "Expected 32 bytes of private key"
  /\ "Expected 32 bytes of private key" <> "Invalid nonce generated"
  /\ "Expected 32 bytes of private key" <> "Invalid signature: s is zero".
Proof.
  split; [split; vm_compute; reflexivity|].
  split; [vm_compute; reflexivity|].
  split; [vm_compute; reflexivity|].
  split; discriminate.
Qed.

(** Witness of C5: the three failures, in order. *)
Lemma extractPrivateKey_precondition_order_witness :
  extractPrivateKey (signature_of 1 1) (signature_of 2 1) digest1 digest2
  = Throw "Signatures do not use the same nonce (r values are different)"
  /\ extractPrivateKey (signature_of 1 1) (signature_of 1 1) digest1 digest2
     = Throw "Signatures are identical"
  /\ extractPrivateKey (signature_of 1 (CURVE.n + 1)) (signature_of 1 1) digest1 digest2
     = Throw "Cannot extract private key: s1 equals s2".
Proof.
  pose proof (extractPrivateKey_precondition_order
                (signature_of 1 1) (signature_of 2 1) digest1 digest2) as T1.
  pose proof (extractPrivateKey_precondition_order
                (signature_of 1 1) (signature_of 1 1) digest1 digest2) as T2.
  pose proof (extractPrivateKey_precondition_order
                (signature_of 1 (CURVE.n + 1)) (signature_of 1 1) digest1 digest2) as T3.
  cbv zeta in T1, T2, T3.
  destruct T1 as [T1 _]. destruct T2 as [_ [T2 _]]. destruct T3 as [_ [_ [T3 _]]].
  split; [apply T1; vm_compute; discriminate|].
  split; [apply T2; vm_compute; reflexivity|].
  apply T3; [vm_compute; reflexivity | vm_compute; discriminate | vm_compute; reflexivity].
Defined.

(** Witness of C7: [r = 0], [r = n] and [s = n] are rejected, also by a
    library that would accept everything. *)
Lemma verifyEOTS_rejects_out_of_range_witness :
  verifyEOTS accepting_verify key digest1 (signature_of 0 1) = Ok false
  /\ verifyEOTS accepting_verify key digest1 (signature_of CURVE.n 1) = Ok false
  /\ verifyEOTS accepting_verify key digest1 (signature_of 1 CURVE.n) = Ok false.
Proof.
  split; [|split]; apply verifyEOTS_rejects_out_of_range.
  - left. vm_compute; discriminate.
  - right; left. vm_compute; discriminate.
  - right; right; right. vm_compute; discriminate.
Defined.

(** Witness of C3 at the failing input: [r = s = 1] and a library routine
    that throws. *)
Lemma verifyEOTS_accepts_when_library_throws_witness :
  verifyEOTS throwing_verify key digest1 (signature_of 1 1) = Ok true.
Proof.
  apply (verifyEOTS_accepts_when_library_throws throwing_verify key digest1
           (signature_of 1 1) "verification failed").
  - split; vm_compute; reflexivity.
  - split; vm_compute; reflexivity.
  - reflexivity.
Defined.

(** Witness of C8 (amended): the key of the scenario without its first
    character. *)
Lemma signEOTS_pads_63_digits_witness :
  String.length key63 = 63%nat
  /\ all_chars isHexDigit key63 = true
  /\ List.length (asBytes (OfHex key63)) = 32%nat
  /\ isValidHex key63 (Some 32%nat) = false.
Proof.
  assert (Hlen : String.length key63 = 63%nat) by reflexivity.
  assert (Hall : all_chars isHexDigit key63 = true) by reflexivity.
  repeat (split; [assumption|]).
  destruct (signEOTS_pads_63_digits key63 Hlen Hall) as (L & _ & _ & V).
  exact (conj L V).
Defined.

(** Counterexample to C8 as stated: [signEOTS] signs with a private key of
    63 characters, and returns the signature of the 64-character key. *)
Lemma signEOTS_accepts_63_digits :
  String.length key63 = 63%nat
  /\ sign (OfHex key63) digest1 (Some nonce) = Ok sig1.
Proof.
  split; [reflexivity | vm_compute; reflexivity].
Qed.

(** ** The reference models against known values *)

Example sha256_empty :
  bytesToHex (Sha256.sha256 [])
  = "e3b0c44298fc1c149afbf4c8996fb92427ae41e4649b934ca495991b7852b855".
Proof. vm_compute; reflexivity. Qed.

Example sha256_abc :
  bytesToHex (Sha256.sha256 [x61; x62; x63])
  = "ba7816bf8f01cfea414140de5dae2223b00361a396177a9cb410ff61f20015ad".
Proof. vm_compute; reflexivity. Qed.

Example sha256_two_blocks :
  bytesToHex (Sha256.sha256 (repeat x61 70))
  = "6bd5e5034855a11241f0dee8fc72850ffd9955b28347a86428b5fa19119f6ad0".
Proof. vm_compute; reflexivity. Qed.

Example generator_on_curve : Secp256k1.on_curve Secp256k1.G = true.
Proof. vm_compute; reflexivity. Qed.

Example double_generator :
  Secp256k1.mul 2 Secp256k1.G
  = Secp256k1.Affine
      0xC6047F9441ED7D6D3045406E95C07CD85C778E4B8CEF3CA7ABAC09B95C709EE5
      0x1AE168FEA63DC339A3C58419466CEAEEF7F632653266D0E1236431A950CFE52A.
Proof. vm_compute; reflexivity. Qed.

(** * Further properties of the code *)

(** ** More on modular arithmetic *)

Lemma modInverse_invariant_step m old_r r old_s s :
  r <> 0 -> modInverse_invariant m old_r r old_s s ->
  let quotient := Z.quot old_r r in
  modInverse_invariant m r (old_r - quotient * r) s (old_s - quotient * s).
Proof.
  intros Hr (Hor & Hr0 & Hsign & Hsum & Hle & Hord) q.
  assert (Hq : 0 <= q) by (apply Z.quot_pos; lia).
  assert (Hrem : old_r - q * r = Z.rem old_r r).
  { unfold q. pose proof (Z.quot_rem' old_r r). lia. }
  assert (Hbound : 0 <= Z.rem old_r r < r) by (apply Z.rem_bound_pos; lia).
  assert (Habs : Z.abs (old_s - q * s) = Z.abs old_s + q * Z.abs s).
  { destruct (Z.eq_dec s 0) as [-> | Hs]; [rewrite Z.mul_0_r, Z.sub_0_r; simpl; lia |].
    destruct (Z.lt_trichotomy s 0) as [Hneg | [? | Hpos]]; [| lia |].
    - assert (0 <= old_s) by nia. rewrite (Z.abs_neq s), (Z.abs_eq old_s) by lia.
      rewrite Z.abs_eq by nia. lia.
    - assert (old_s <= 0) by nia. rewrite (Z.abs_eq s), (Z.abs_neq old_s) by lia.
      rewrite Z.abs_neq by nia. lia. }
  unfold modInverse_invariant. rewrite Habs, Hrem.
  repeat split; try lia.
  - left. destruct Hord as [Hord | ->]; [| simpl; lia].
    assert (1 <= q) by (unfold q; apply Z.quot_le_lower_bound; lia).
    nia.
Qed.

Lemma modInverse_loop_invariant m fuel : forall old_r r old_s s res,
  modInverse_invariant m old_r r old_s s ->
  modInverse_loop fuel old_r r old_s s = Some res ->
  exists s', modInverse_invariant m (fst res) 0 (snd res) s'.
Proof.
  induction fuel as [| fuel IH]; intros old_r r old_s s res Hinv Hloop; [discriminate |].
  cbn [modInverse_loop] in Hloop. destruct (Z.eqb_spec r 0) as [-> | Hr].
  - injection Hloop as <-. now exists s.
  - eapply IH; [| exact Hloop]. now apply modInverse_invariant_step.
Qed.

(** Whatever [modInverse] returns for a non-negative argument lies in
    [0, m) and is an inverse. *)
Lemma modInverse_nonneg_range a m v :
  0 <= a -> 1 < m -> modInverse a m = Ok v -> 0 <= v < m /\ (v * a) mod m = 1.
Proof.
  intros Ha Hm Hinv.
  destruct (Z.eq_dec (Z.gcd a m) 1) as [Hg | Hg].
  2:{ apply (modInverse_nonneg a m Ha Hm) in Hg. congruence. }
  destruct (proj1 (modInverse_nonneg a m Ha Hm) Hg) as (w & Hw & Hmul).
  assert (w = v) by congruence. subst w. split; [| exact Hmul].
  unfold modInverse in Hinv. destruct (Z.ltb_spec a 0); [lia |]. cbn [bind] in Hinv.
  destruct (modInverse_loop (modInverse_fuel a m) a m 1 0) as [[old_r old_s] |] eqn:Hloop;
    [| discriminate].
  assert (Hinit : modInverse_invariant m a m 1 0).
  { unfold modInverse_invariant. change (Z.abs 0) with 0. change (Z.abs 1) with 1.
    repeat split; try lia; now right. }
  destruct (modInverse_loop_invariant m _ _ _ _ _ _ Hinit Hloop)
    as (s' & Hor & _ & Hsign & Hsum & Hle & _).
  cbn [fst snd] in *.
  assert (Hspec := modInverse_loop_spec a m _ a m 1 0 _ Ha ltac:(lia)
                     ltac:(exists 0; lia) ltac:(exists (-1); lia) Hloop).
  cbn [fst snd] in Hspec. destruct Hspec as [Hgcd Hdiv].
  rewrite Hg in Hgcd. subst old_r.
  destruct (Z.gtb_spec 1 1); [lia |].
  assert (Hs' : Z.abs s' = m) by lia.
  assert (Hold : Z.abs old_s <= m) by lia.
  assert (Hne : Z.abs old_s <> m).
  { intros Heq. destruct Hdiv as [c Hc].
    assert (Hm1 : (m | 1)).
    { destruct (Z.abs_spec old_s) as [[_ E] | [_ E]]; rewrite E in Heq.
      - exists (a - c). nia.
      - exists (- a - c). nia. }
    apply Z.divide_1_r_nonneg in Hm1; lia. }
  destruct (Z.ltb_spec old_s 0); injection Hinv as <-; lia.
Qed.

Lemma invmod_unique a m v :
  1 < m -> 0 <= v < m -> (v * a) mod m = 1 -> v = Z.invmod a m.
Proof.
  intros Hm Hv Hmul.
  assert (Hco : Z.coprime a m).
  { unfold Z.coprime. apply Z.bezout_1_gcd. 
    exists v, (- ((v * a) / m)). pose proof (Z.div_mod (v * a) m ltac:(lia)). lia. }
  pose proof (Z.invmod_coprime a m ltac:(lia) Hco) as Hinv.
  assert (E : eqm m v (Z.invmod a m)).
  { apply (inverse_unique m a); unfold eqm; rewrite ?Hmul, ?Hinv, Z.mod_1_l by lia;
      reflexivity. }
  unfold eqm in E. rewrite Z.mod_invmod, Z.mod_small in E by lia. exact E.
Qed.

(** X1. [mod] is the Euclidean remainder for a positive modulus. *)
Theorem mod_euclidean (a b : Z) :
  0 < b ->
  mod_ a b = Ok (a mod b) /\ 0 <= a mod b < b
  /\ mod_ (a + b) b = mod_ a b /\ mod_ a 0 = Throw "RangeError: Division by zero".
Proof.
  intros Hb. rewrite !mod_spec by lia. repeat split.
  - apply Z.mod_pos_bound; lia.
  - apply Z.mod_pos_bound; lia.
  - f_equal. rewrite <- (Z.mul_1_l b) at 1. apply Z.mod_add. lia.
Qed.

Lemma mod_euclidean_witness :
  0 < 5
  /\ mod_ (-7) 5 = Ok ((-7) mod 5) /\ 0 <= (-7) mod 5 < 5
  /\ mod_ (-7 + 5) 5 = mod_ (-7) 5 /\ mod_ (-7) 0 = Throw "RangeError: Division by zero".
Proof. split; [lia | apply (mod_euclidean (-7) 5); lia]. Defined.

(** X2. [modInverse] computes the inverse in [0, m) exactly when there is
    one. *)
Theorem modInverse_invmod (a m : Z) :
  1 < m ->
  modInverse a m =
  if Z.gcd a m =? 1 then Ok (Z.invmod a m) else Throw "Modular inverse does not exist".
Proof.
  intros Hm.
  assert (Hnonneg : forall b, 0 <= b ->
    modInverse b m =
    if Z.gcd b m =? 1 then Ok (Z.invmod b m) else Throw "Modular inverse does not exist").
  { intros b Hb. destruct (Z.eqb_spec (Z.gcd b m) 1) as [Hg | Hg].
    - destruct (proj1 (modInverse_nonneg b m Hb Hm) Hg) as (v & Hv & _).
      rewrite Hv. f_equal.
      destruct (modInverse_nonneg_range b m v Hb Hm Hv). now apply invmod_unique.
    - now apply (modInverse_nonneg b m Hb Hm). }
  destruct (Z.ltb_spec a 0) as [Hneg | Hpos]; [| now apply Hnonneg].
  assert (Hred : modInverse a m = modInverse (a mod m) m).
  { unfold modInverse. destruct (Z.ltb_spec a 0); [| lia].
    rewrite mod_spec by lia. cbn [bind].
    destruct (Z.ltb_spec (a mod m) 0); [pose proof (Z.mod_pos_bound a m); lia |].
    reflexivity. }
  rewrite Hred, Hnonneg by (apply Z.mod_pos_bound; lia).
  rewrite Z.invmod_mod_l. rewrite Z.gcd_mod, (Z.gcd_comm m a) by lia.
  reflexivity.
Qed.

Lemma modInverse_invmod_witness :
  1 < 7
  /\ modInverse (-3) 7 =
     if Z.gcd (-3) 7 =? 1 then Ok (Z.invmod (-3) 7)
     else Throw "Modular inverse does not exist".
Proof. split; [lia | apply (modInverse_invmod (-3) 7); lia]. Defined.

(** ** More on numbers and bytes *)

Lemma bytesToNumber_fold bytes : forall acc,
  fold_left (fun result byte => Z.shiftl result 8 + byteToZ byte) bytes acc
  = acc * 256 ^ Z.of_nat (List.length bytes) + bytesToNumber bytes.
Proof.
  unfold bytesToNumber. induction bytes as [|b bytes IH]; intros acc.
  - cbn [fold_left List.length]. change (256 ^ Z.of_nat 0) with 1. lia.
  - cbn [fold_left List.length]. rewrite IH, (IH (Z.shiftl 0 8 + byteToZ b)).
    rewrite !shiftl_8, Nat2Z.inj_succ, Z.pow_succ_r by lia. ring.
Qed.

Lemma bytesToNumber_app a b :
  bytesToNumber (a ++ b)
  = bytesToNumber a * 256 ^ Z.of_nat (List.length b) + bytesToNumber b.
Proof.
  unfold bytesToNumber at 1. rewrite fold_left_app. apply bytesToNumber_fold.
Qed.

Lemma bytesToNumber_cons b bytes :
  bytesToNumber (b :: bytes)
  = byteToZ b * 256 ^ Z.of_nat (List.length bytes) + bytesToNumber bytes.
Proof.
  change (b :: bytes) with ([b] ++ bytes). rewrite bytesToNumber_app.
  f_equal.
Qed.

Lemma bytesToNumber_zeros k bytes :
  bytesToNumber (repeat x00 k ++ bytes) = bytesToNumber bytes.
Proof.
  induction k as [|k IH]; [reflexivity |].
  cbn [repeat app]. rewrite bytesToNumber_cons, IH. change (byteToZ x00) with 0. lia.
Qed.

Lemma byteToZ_inj a b : byteToZ a = byteToZ b -> a = b.
Proof.
  intros H. rewrite <- (byteOfZ_byteToZ a), <- (byteOfZ_byteToZ b). now rewrite H.
Qed.

Lemma bytesToNumber_inj : forall a b,
  List.length a = List.length b -> bytesToNumber a = bytesToNumber b -> a = b.
Proof.
  induction a as [|x a IH]; intros [|y b] Hlen Hnum; try discriminate; [reflexivity |].
  injection Hlen as Hlen. rewrite !bytesToNumber_cons, Hlen in Hnum.
  pose proof (bytesToNumber_range a) as Ra. pose proof (bytesToNumber_range b) as Rb.
  rewrite Hlen in Ra.
  pose proof (byteToZ_range x). pose proof (byteToZ_range y).
  set (P := 256 ^ Z.of_nat (List.length b)) in *.
  assert (byteToZ x = byteToZ y) by nia.
  f_equal; [now apply byteToZ_inj | apply IH; [exact Hlen | nia]].
Qed.

(** X3. [bytesToNumber] reads its argument as one big-endian number. *)
Theorem bytesToNumber_big_endian (a b : list byte) (k : nat) :
  bytesToNumber (a ++ b)
  = bytesToNumber a * 256 ^ Z.of_nat (List.length b) + bytesToNumber b
  /\ bytesToNumber (repeat x00 k ++ b) = bytesToNumber b
  /\ 0 <= bytesToNumber b < 256 ^ Z.of_nat (List.length b).
Proof.
  split; [apply bytesToNumber_app | split].
  - apply bytesToNumber_zeros.
  - apply bytesToNumber_range.
Qed.

(** X4. Two arrays of one length with the same number are the same array. *)
Theorem bytesToNumber_injective (a b : list byte) :
  List.length a = List.length b -> bytesToNumber a = bytesToNumber b -> a = b.
Proof. apply bytesToNumber_inj. Qed.

Lemma bytesToNumber_injective_witness :
  List.length [x00; x2a] = List.length (hexToBytes "002A")
  /\ bytesToNumber [x00; x2a] = bytesToNumber (hexToBytes "002A")
  /\ [x00; x2a] = hexToBytes "002A".
Proof.
  split; [reflexivity | split; [reflexivity |]].
  apply (bytesToNumber_injective [x00; x2a] (hexToBytes "002A")); reflexivity.
Defined.

(** [hexToBytes] on a string of digits of odd length. *)
Lemma hexToBytes_odd k s :
  String.length s = S (2 * k) -> all_chars isHexDigit s = true ->
  hexToBytes s = hexToBytes (String "0" s).
Proof.
  intros Hlen Hall.
  assert (Hall' : all_chars isHexDigit (String "0" s) = true) by (simpl; exact Hall).
  unfold hexToBytes.
  rewrite (startsWith_0x_all_digits _ Hall), (startsWith_0x_all_digits _ Hall').
  cbn [String.length]. rewrite Hlen.
  replace (S (2 * k)) with (1 + k * 2)%nat by lia.
  replace (S (1 + k * 2)) with ((1 + k) * 2)%nat by lia.
  rewrite Nat.Div0.mod_add, Nat.Div0.mod_mul. reflexivity.
Qed.

(** [hexToBytes] on any string of digits. *)
Lemma hexToBytes_all_digits s :
  all_chars isHexDigit s = true ->
  List.length (hexToBytes s) = Nat.div2 (S (String.length s))
  /\ bytesToNumber (hexToBytes s) = hexNumber 0 s.
Proof.
  intros Hall. destruct (Nat.Even_or_Odd (String.length s)) as [[k Hk] | [k Hk]].
  - destruct (hexToBytes_digits k s Hk Hall) as [L N]. split; [| exact N].
    rewrite L, Hk. clear. induction k as [|k IH]; [reflexivity |].
    replace (2 * S k)%nat with (S (S (2 * k))) by lia.
    change (Nat.div2 (S (S (S (2 * k))))) with (S (Nat.div2 (S (2 * k)))). now f_equal.
  - replace (2 * k + 1)%nat with (S (2 * k)) in Hk by lia.
    rewrite (hexToBytes_odd k s Hk Hall).
    destruct (hexToBytes_digits (S k) (String "0" s)) as [L N].
    + cbn [String.length]. lia.
    + exact Hall.
    + split; [| exact N]. rewrite L, Hk. clear.
      replace (S (S (2 * k))) with (2 * S k)%nat by lia. now rewrite Nat.div2_double.
Qed.

Lemma padStart0_digits s target :
  all_chars isLowerHexDigit s = true ->
  all_chars isHexDigit (padStart0 s target) = true
  /\ hexNumber 0 (padStart0 s target) = hexNumber 0 s
  /\ String.length (padStart0 s target) = Nat.max target (String.length s).
Proof.
  intros Hall. unfold padStart0. rewrite all_chars_app, all_chars_repeat_zero.
  rewrite hexNumber_zeros, length_append, length_repeat_char. repeat split; [| lia].
  revert Hall. apply all_chars_weaken, lower_isHexDigit.
Qed.

Lemma numberToBytes_number num len :
  0 <= num -> bytesToNumber (numberToBytes num len) = num.
Proof.
  intros H0. destruct (toString16_spec num H0) as (Hall & Hnum & _).
  destruct (padStart0_digits _ (len * 2) Hall) as (Hd & Hn & _).
  unfold numberToBytes. destruct (hexToBytes_all_digits _ Hd) as [_ N].
  now rewrite N, Hn.
Qed.

Lemma numberToBytes_length_ge num len :
  0 <= num -> (len <= List.length (numberToBytes num len))%nat.
Proof.
  intros H0. destruct (toString16_spec num H0) as (Hall & _ & _).
  destruct (padStart0_digits _ (len * 2) Hall) as (Hd & _ & Hl).
  unfold numberToBytes. destruct (hexToBytes_all_digits _ Hd) as [L _].
  rewrite L, Hl.
  assert (Hmono : forall a b, (a <= b)%nat -> (Nat.div2 a <= Nat.div2 b)%nat).
  { intros a b Hab. rewrite !Nat.div2_div. apply Nat.Div0.div_le_mono. exact Hab. }
  transitivity (Nat.div2 (S (len * 2))).
  - replace (S (len * 2)) with (S (2 * len)) by lia. rewrite Nat.div2_succ_double. lia.
  - apply Hmono. lia.
Qed.

(** X5. [numberToBytes] followed by [bytesToNumber] gives the number back,
    for every [length]; the array has at least [length] bytes and more
    when the number does not fit. *)
Theorem numberToBytes_round_trip (num : Z) (len : nat) :
  0 <= num ->
  bytesToNumber (numberToBytes num len) = num
  /\ (len <= List.length (numberToBytes num len))%nat
  /\ ((0 < len)%nat -> num < 256 ^ Z.of_nat len ->
      List.length (numberToBytes num len) = len)
  /\ (256 ^ Z.of_nat len <= num -> (len < List.length (numberToBytes num len))%nat).
Proof.
  intros H0. pose proof (numberToBytes_number num len H0) as N.
  pose proof (numberToBytes_length_ge num len H0) as L.
  repeat split; trivial.
  - intros Hlen Hlt. now apply numberToBytes_spec.
  - intros Hge. pose proof (bytesToNumber_range (numberToBytes num len)) as R.
    rewrite N in R.
    destruct (Nat.eq_dec (List.length (numberToBytes num len)) len) as [E | E]; [| lia].
    rewrite E in R. lia.
Qed.

Lemma numberToBytes_round_trip_witness :
  0 <= 65536
  /\ bytesToNumber (numberToBytes 65536 2) = 65536
  /\ (2 <= List.length (numberToBytes 65536 2))%nat
  /\ ((0 < 2)%nat -> 65536 < 256 ^ Z.of_nat 2 ->
      List.length (numberToBytes 65536 2) = 2%nat)
  /\ (256 ^ Z.of_nat 2 <= 65536 -> (2 < List.length (numberToBytes 65536 2))%nat).
Proof. split; [lia | apply (numberToBytes_round_trip 65536 2); lia]. Defined.

Lemma numberToBytes_of_bytes bytes :
  bytes <> [] -> numberToBytes (bytesToNumber bytes) (List.length bytes) = bytes.
Proof.
  intros Hne. pose proof (bytesToNumber_range bytes) as R.
  assert (0 < List.length bytes)%nat by (destruct bytes; [congruence | simpl; lia]).
  destruct (numberToBytes_spec (bytesToNumber bytes) (List.length bytes)) as [L N];
    trivial.
  now apply bytesToNumber_inj.
Qed.

(** X6. [bytesToNumber] followed by [numberToBytes] at the same length
    gives a non-empty array back. *)
Theorem numberToBytes_bytesToNumber (bytes : list byte) :
  bytes <> [] ->
  numberToBytes (bytesToNumber bytes) (List.length bytes) = bytes
  /\ numberToBytes (bytesToNumber []) (List.length (@nil byte)) = [x00].
Proof.
  intros Hne. split; [now apply numberToBytes_of_bytes | reflexivity].
Qed.

Lemma numberToBytes_bytesToNumber_witness :
  [x00; xff] <> []
  /\ numberToBytes (bytesToNumber [x00; xff]) (List.length [x00; xff]) = [x00; xff]
  /\ numberToBytes (bytesToNumber []) (List.length (@nil byte)) = [x00].
Proof.
  split; [discriminate | apply (numberToBytes_bytesToNumber [x00; xff]); discriminate].
Defined.

(** ** More on the hex codec *)

Lemma length_hexToBytes_loop n : forall s,
  (String.length s <= n)%nat ->
  List.length (hexToBytes_loop s) = Nat.div2 (String.length s).
Proof.
  induction n as [|n IH]; intros s Hn.
  - destruct s; [reflexivity | simpl in Hn; lia].
  - destruct s as [|a [|b rest]]; try reflexivity.
    cbn [hexToBytes_loop List.length String.length Nat.div2]. f_equal.
    apply IH. simpl in Hn. lia.
Qed.

Lemma div2_even_succ k : (k mod 2 = 0 -> Nat.div2 k = Nat.div2 (S k))%nat.
Proof.
  intros H. apply Nat.Div0.div_exact in H. rewrite H.
  now rewrite Nat.div2_succ_double, Nat.div2_double.
Qed.

(** X7. [hexToBytes] never fails: every string becomes an array of half as
    many bytes, rounded up, after the prefix is removed. *)
Theorem hexToBytes_length (hex : string) :
  let clean := if startsWith hex "0x" then slice_from 2 hex else hex in
  List.length (hexToBytes hex) = Nat.div2 (S (String.length clean)).
Proof.
  intros clean. unfold hexToBytes. fold clean.
  destruct (Nat.eqb_spec (String.length clean mod 2) 0) as [E | E].
  - rewrite (length_hexToBytes_loop _ _ (Nat.le_refl _)). now apply div2_even_succ.
  - rewrite (length_hexToBytes_loop _ _ (Nat.le_refl _)). reflexivity.
Qed.

Lemma parseInt16_other c rest : isOther c = true -> parseInt16 (String c rest) = None.
Proof.
  unfold isOther. intros H.
  apply andb_prop in H. destruct H as [H Hminus].
  apply andb_prop in H. destruct H as [H Hplus].
  apply andb_prop in H. destruct H as [Hdigit Hspace].
  apply negb_true_iff in Hminus, Hplus, Hdigit, Hspace.
  apply Ascii.eqb_neq in Hminus, Hplus.
  unfold parseInt16. cbn [trimStart]. rewrite Hspace.
  assert (Hsign : match String c rest with
                  | String "-"%char rest' => (-1, rest')
                  | String "+"%char rest' => (1, rest')
                  | _ => (1, String c rest)
                  end = (1, String c rest)).
  { destruct c as [[] [] [] [] [] [] [] []]; try reflexivity; congruence. }
  rewrite Hsign.
  assert (H0x : startsWith (String c rest) "0x" = false
                /\ startsWith (String c rest) "0X" = false).
  { unfold startsWith. cbn [String.prefix].
    destruct (ascii_dec "0" c) as [<- | ?]; [discriminate Hdigit | now split]. }
  destruct H0x as [-> ->]. cbn [orb parseDigits].
  unfold isHexDigit in Hdigit. destruct (hexDigitValue c); [discriminate | reflexivity].
Qed.

Lemma hexToBytes_loop_other c1 c2 rest :
  isOther c1 = true ->
  hexToBytes_loop (String c1 (String c2 rest)) = x00 :: hexToBytes_loop rest.
Proof.
  intros H. cbn [hexToBytes_loop]. now rewrite parseInt16_other.
Qed.

(** X8. [hexToBytes] decodes what [isValidHex] rejects: two characters
    that do not start a number become the byte 0. *)
Theorem hexToBytes_not_a_number (c1 c2 : ascii) :
  isOther c1 = true ->
  hexToBytes (String c1 (String c2 EmptyString)) = [x00]
  /\ isValidHex (String c1 (String c2 EmptyString)) None = false.
Proof.
  intros H.
  assert (Hd : isHexDigit c1 = false).
  { unfold isOther in H. destruct (isHexDigit c1); [discriminate | reflexivity]. }
  assert (H0x : startsWith (String c1 (String c2 EmptyString)) "0x" = false).
  { unfold startsWith. cbn [String.prefix].
    destruct (ascii_dec "0" c1) as [<- | ?]; [discriminate Hd | reflexivity]. }
  split.
  - transitivity (hexToBytes_loop (String c1 (String c2 EmptyString))).
    + unfold hexToBytes. rewrite H0x. reflexivity.
    + now rewrite hexToBytes_loop_other.
  - unfold isValidHex. rewrite H0x. cbn [all_chars]. now rewrite Hd.
Qed.

Lemma hexToBytes_not_a_number_witness :
  isOther "z" = true
  /\ hexToBytes "zz" = [x00] /\ isValidHex "zz" None = false.
Proof.
  split; [reflexivity | apply (hexToBytes_not_a_number "z" "z"); reflexivity].
Defined.

Lemma byteToHex_digits b :
  byteToHex b
  = String (hexDigitChar (byteToZ b / 16)) (String (hexDigitChar (byteToZ b mod 16)) EmptyString).
Proof. destruct b; reflexivity. Qed.

Lemma hexDigitChar_lower_bool c :
  match hexDigitValue c with
  | Some v => Ascii.eqb (hexDigitChar v) (toLowerChar c)
  | None => true
  end = true.
Proof. destruct c as [[] [] [] [] [] [] [] []]; reflexivity. Qed.

Lemma hexDigitChar_lower c v : hexDigitValue c = Some v -> hexDigitChar v = toLowerChar c.
Proof.
  intros H. pose proof (hexDigitChar_lower_bool c) as B. rewrite H in B.
  now apply Ascii.eqb_eq.
Qed.

Lemma byteToHex_parse c1 c2 :
  isHexDigit c1 = true -> isHexDigit c2 = true ->
  byteToHex (toUint8 (parseInt16 (String c1 (String c2 EmptyString))))
  = String (toLowerChar c1) (String (toLowerChar c2) EmptyString).
Proof.
  intros H1 H2.
  destruct (isHexDigit_value c1 H1) as [v1 Hv1].
  destruct (isHexDigit_value c2 H2) as [v2 Hv2].
  rewrite (parseInt16_two_digits c1 c2 v1 v2 Hv1 Hv2). cbn [toUint8].
  pose proof (hexDigitValue_range _ _ Hv1). pose proof (hexDigitValue_range _ _ Hv2).
  rewrite byteToHex_digits, byteToZ_byteOfZ, (Z.mod_small (v1 * 16 + v2) 256) by lia.
  replace ((v1 * 16 + v2) / 16) with v1 by (apply Z.div_unique with v2; lia).
  replace ((v1 * 16 + v2) mod 16) with v2 by (apply Z.mod_unique with v1; lia).
  now rewrite (hexDigitChar_lower c1 v1), (hexDigitChar_lower c2 v2).
Qed.

Lemma bytesToHex_hexToBytes_loop k : forall s,
  String.length s = (2 * k)%nat -> all_chars isHexDigit s = true ->
  bytesToHex (hexToBytes_loop s) = toLowerCase s.
Proof.
  induction k as [|k IH]; intros s Hlen Hall.
  - destruct s; [reflexivity | discriminate].
  - destruct s as [|c1 [|c2 rest]]; try (simpl in Hlen; lia).
    cbn [all_chars] in Hall.
    apply andb_prop in Hall. destruct Hall as [H1 Hall].
    apply andb_prop in Hall. destruct Hall as [H2 Hall].
    cbn [hexToBytes_loop toLowerCase]. rewrite bytesToHex_cons, byteToHex_parse by trivial.
    rewrite IH; [reflexivity | simpl in Hlen; lia | exact Hall].
Qed.

Lemma toLowerCase_lower s : all_chars isLowerHexDigit s = true -> toLowerCase s = s.
Proof.
  induction s as [|c s IH]; [reflexivity |].
  cbn [all_chars toLowerCase]. intros H. apply andb_prop in H. destruct H as [Hc Hs].
  rewrite IH by exact Hs. f_equal.
  revert Hc. destruct c as [[] [] [] [] [] [] [] []]; vm_compute; congruence.
Qed.

Lemma bytesToHex_hexToBytes_even k s :
  String.length s = (2 * k)%nat -> all_chars isHexDigit s = true ->
  bytesToHex (hexToBytes s) = toLowerCase s.
Proof.
  intros Hlen Hall. unfold hexToBytes.
  rewrite (startsWith_0x_all_digits s Hall), Hlen.
  replace (2 * k)%nat with (k * 2)%nat by lia.
  rewrite Nat.Div0.mod_mul. cbn [Nat.eqb].
  apply (bytesToHex_hexToBytes_loop k); [lia | exact Hall].
Qed.

(** X9. [hexToBytes] followed by [bytesToHex] gives an even number of
    digits back in lowercase, and unchanged when they are lowercase. *)
Theorem bytesToHex_hexToBytes (hex : string) :
  (String.length hex mod 2 = 0)%nat -> all_chars isHexDigit hex = true ->
  bytesToHex (hexToBytes hex) = toLowerCase hex
  /\ (all_chars isLowerHexDigit hex = true -> bytesToHex (hexToBytes hex) = hex).
Proof.
  intros Hlen Hall. apply Nat.Div0.div_exact in Hlen.
  pose proof (bytesToHex_hexToBytes_even _ hex Hlen Hall) as E.
  split; [exact E |]. intros Hlow. now rewrite E, toLowerCase_lower.
Qed.

Lemma bytesToHex_hexToBytes_witness :
  (String.length "00Ff" mod 2 = 0)%nat /\ all_chars isHexDigit "00Ff" = true
  /\ bytesToHex (hexToBytes "00Ff") = toLowerCase "00Ff"
  /\ (all_chars isLowerHexDigit "00Ff" = true -> bytesToHex (hexToBytes "00Ff") = "00Ff").
Proof.
  split; [reflexivity | split; [reflexivity |]].
  apply (bytesToHex_hexToBytes "00Ff"); reflexivity.
Defined.

Lemma isValidHex_Some hex len :
  isValidHex hex (Some (S len)) = true ->
  all_chars isHexDigit (if startsWith hex "0x" then slice_from 2 hex else hex) = true
  /\ String.length (if startsWith hex "0x" then slice_from 2 hex else hex)
     = (2 * S len)%nat.
Proof.
  unfold isValidHex. intros H.
  apply andb_prop in H. destruct H as [Hall Hlen].
  apply Nat.eqb_eq in Hlen. split; [exact Hall | lia].
Qed.

Lemma hexToBytes_clean hex :
  all_chars isHexDigit (if startsWith hex "0x" then slice_from 2 hex else hex) = true ->
  hexToBytes hex = hexToBytes (if startsWith hex "0x" then slice_from 2 hex else hex).
Proof.
  intros Hall. unfold hexToBytes at 2.
  rewrite (startsWith_0x_all_digits _ Hall). reflexivity.
Qed.

(** X10. What [isValidHex(hex, length)] accepts, [hexToBytes] decodes to
    exactly [length] bytes, without loss. *)
Theorem isValidHex_hexToBytes (hex : string) (len : nat) :
  (0 < len)%nat -> isValidHex hex (Some len) = true ->
  let clean := if startsWith hex "0x" then slice_from 2 hex else hex in
  List.length (hexToBytes hex) = len
  /\ bytesToNumber (hexToBytes hex) = hexNumber 0 clean
  /\ bytesToHex (hexToBytes hex) = toLowerCase clean.
Proof.
  intros Hpos Hvalid clean. destruct len as [|len]; [lia |].
  destruct (isValidHex_Some hex len Hvalid) as [Hall Hlen]. fold clean in Hall, Hlen.
  rewrite (hexToBytes_clean hex Hall). fold clean.
  destruct (hexToBytes_digits (S len) clean Hlen Hall) as [L N].
  repeat split; trivial.
  now apply (bytesToHex_hexToBytes_even (S len)).
Qed.

Lemma isValidHex_hexToBytes_witness :
  (0 < 2)%nat /\ isValidHex "0xBEEF" (Some 2%nat) = true
  /\ List.length (hexToBytes "0xBEEF") = 2%nat
  /\ bytesToNumber (hexToBytes "0xBEEF") = hexNumber 0 "BEEF"
  /\ bytesToHex (hexToBytes "0xBEEF") = toLowerCase "BEEF".
Proof.
  split; [lia | split; [reflexivity |]].
  apply (isValidHex_hexToBytes "0xBEEF" 2); [lia | reflexivity].
Defined.

(** X11. Without an expected length, and with the expected length 0,
    [isValidHex] accepts a non-empty even number of digits, which decode
    to half as many bytes. *)
Theorem isValidHex_no_length (hex : string) :
  isValidHex hex (Some 0%nat) = isValidHex hex None
  /\ (isValidHex hex None = true ->
      let clean := if startsWith hex "0x" then slice_from 2 hex else hex in
      (0 < List.length (hexToBytes hex))%nat
      /\ (2 * List.length (hexToBytes hex))%nat = String.length clean
      /\ bytesToHex (hexToBytes hex) = toLowerCase clean).
Proof.
  split; [reflexivity |]. intros H clean. unfold isValidHex in H. fold clean in H.
  apply andb_prop in H. destruct H as [H Heven].
  apply andb_prop in H. destruct H as [Hall Hpos].
  apply Nat.eqb_eq in Heven. apply Nat.ltb_lt in Hpos.
  apply Nat.Div0.div_exact in Heven.
  rewrite (hexToBytes_clean hex Hall). fold clean.
  destruct (hexToBytes_digits _ clean Heven Hall) as [L N].
  rewrite L. repeat split; [lia | lia |].
  now apply (bytesToHex_hexToBytes_even (String.length clean / 2)).
Qed.

Lemma isValidHex_bytesToHex_Some bytes :
  bytes <> [] -> isValidHex (bytesToHex bytes) (Some (List.length bytes)) = true.
Proof.
  intros Hne. unfold isValidHex. rewrite startsWith_0x_bytesToHex.
  rewrite (all_chars_weaken _ _ _ lower_isHexDigit (lower_bytesToHex bytes)).
  rewrite length_bytesToHex.
  destruct bytes as [|b bytes]; [congruence |]. cbn [List.length andb].
  apply Nat.eqb_eq. lia.
Qed.

(** X12. The output of [bytesToHex] on a non-empty array passes
    [isValidHex], with and without the length; on the empty array it does
    not. *)
Theorem isValidHex_bytesToHex (bytes : list byte) :
  bytes <> [] ->
  isValidHex (bytesToHex bytes) (Some (List.length bytes)) = true
  /\ isValidHex (bytesToHex bytes) None = true
  /\ isValidHex (bytesToHex []) (Some (List.length (@nil byte))) = false.
Proof.
  intros Hne. split; [now apply isValidHex_bytesToHex_Some | split; [| reflexivity]].
  unfold isValidHex. rewrite startsWith_0x_bytesToHex.
  rewrite (all_chars_weaken _ _ _ lower_isHexDigit (lower_bytesToHex bytes)).
  rewrite length_bytesToHex. replace (2 * List.length bytes)%nat
    with (List.length bytes * 2)%nat by lia.
  rewrite Nat.Div0.mod_mul. destruct bytes; [congruence | reflexivity].
Qed.

Lemma isValidHex_bytesToHex_witness :
  [x0a; xff] <> []
  /\ isValidHex (bytesToHex [x0a; xff]) (Some (List.length [x0a; xff])) = true
  /\ isValidHex (bytesToHex [x0a; xff]) None = true
  /\ isValidHex (bytesToHex []) (Some (List.length (@nil byte))) = false.
Proof.
  split; [discriminate | apply (isValidHex_bytesToHex [x0a; xff]); discriminate].
Defined.

(** ** Random values and key generation *)

Lemma hexToBytes_of_bytesToHex bytes : hexToBytes (bytesToHex bytes) = bytes.
Proof.
  unfold hexToBytes. rewrite startsWith_0x_bytesToHex, length_bytesToHex.
  replace (2 * List.length bytes)%nat with (List.length bytes * 2)%nat by lia.
  rewrite Nat.Div0.mod_mul. cbn [Nat.eqb]. apply hexToBytes_loop_bytesToHex.
Qed.

Lemma length_getRandomValues entropy len position :
  List.length (fst (getRandomValues entropy len position)) = len.
Proof. unfold getRandomValues. cbn [fst]. now rewrite length_map, length_seq. Qed.

Lemma generateRandomHex32_unfold entropy position :
  generateRandomHex32 entropy position
  = (bytesToHex (map entropy (seq position 32)), (position + 32)%nat).
Proof. reflexivity. Qed.

(** X13. [generateRandomHex32] returns the 32 bytes it draws as 64
    lowercase digits that pass [isValidHex(hex, 32)], and so do the three
    generators defined by it. *)
Theorem generateRandomHex32_valid (entropy : nat -> byte) (position : nat) :
  let hex := fst (generateRandomHex32 entropy position) in
  hexToBytes hex = map entropy (seq position 32)
  /\ String.length hex = 64%nat
  /\ all_chars isLowerHexDigit hex = true
  /\ isValidHex hex (Some 32%nat) = true
  /\ snd (generateRandomHex32 entropy position) = (position + 32)%nat
  /\ generateRandomPrivateKey entropy position = generateRandomHex32 entropy position
  /\ generateRandomNonce entropy position = generateRandomHex32 entropy position
  /\ generateRandomMessageHash entropy position = generateRandomHex32 entropy position.
Proof.
  unfold generateRandomHex32, getRandomValues. cbn [fst snd].
  assert (L : List.length (map entropy (seq position 32)) = 32%nat)
    by now rewrite length_map, length_seq.
  repeat split.
  - apply hexToBytes_of_bytesToHex.
  - now rewrite length_bytesToHex, L.
  - apply lower_bytesToHex.
  - rewrite <- L at 2. apply isValidHex_bytesToHex_Some.
    intros E. rewrite E in L. discriminate.
Qed.

Lemma generateEOTSKeyPair_loop_first entropy j : forall fuel position,
  (forall i, (i < j)%nat ->
     CURVE.n <= bytesToNumber (map entropy (seq (position + 32 * i) 32))) ->
  bytesToNumber (map entropy (seq (position + 32 * j) 32)) < CURVE.n ->
  (j < fuel)%nat ->
  generateEOTSKeyPair_loop entropy fuel (map entropy (seq position 32)) (position + 32)
  = Some (map entropy (seq (position + 32 * j) 32), (position + 32 * j + 32)%nat).
Proof.
  induction j as [|j IH]; intros fuel position Hrej Hacc Hfuel;
    (destruct fuel as [|fuel]; [lia |]); cbn [generateEOTSKeyPair_loop].
  - replace (position + 32 * 0)%nat with position in * by lia.
    destruct (Z.geb_spec (bytesToNumber (map entropy (seq position 32))) CURVE.n);
      [lia | reflexivity].
  - pose proof (Hrej 0%nat ltac:(lia)) as H0.
    replace (position + 32 * 0)%nat with position in H0 by lia.
    destruct (Z.geb_spec (bytesToNumber (map entropy (seq position 32))) CURVE.n);
      [| lia].
    unfold getRandomValues.
    rewrite (IH fuel (position + 32)%nat).
    + replace (position + 32 + 32 * j)%nat with (position + 32 * S j)%nat by lia.
      reflexivity.
    + intros i Hi. specialize (Hrej (S i) ltac:(lia)).
      replace (position + 32 + 32 * i)%nat with (position + 32 * S i)%nat by lia.
      exact Hrej.
    + replace (position + 32 + 32 * j)%nat with (position + 32 * S j)%nat by lia.
      exact Hacc.
    + lia.
Qed.

(** X14. [generateEOTSKeyPair] redraws while the draw is [n] or more and
    hands the first draw below [n] to the curve library; the draw that is
    0 is not redrawn. *)
Theorem generateEOTSKeyPair_first_draw_below_n
  (getPublicKeySecp : list byte -> bool -> Result (list byte))
  (entropy : nat -> byte) (position j fuel : nat) :
  let draw i := map entropy (seq (position + 32 * i) 32) in
  (forall i, (i < j)%nat -> CURVE.n <= bytesToNumber (draw i)) ->
  bytesToNumber (draw j) < CURVE.n ->
  (j < fuel)%nat ->
  generateEOTSKeyPair getPublicKeySecp entropy fuel position
  = Some (publicKey <- getPublicKeySecp (draw j) true ;;
          Ok {| privateKey := draw j; publicKey := publicKey |},
          (position + 32 * S j)%nat).
Proof.
  intros draw Hrej Hacc Hfuel. unfold generateEOTSKeyPair, getRandomValues.
  rewrite (generateEOTSKeyPair_loop_first entropy j fuel position Hrej Hacc Hfuel).
  replace (position + 32 * j + 32)%nat with (position + 32 * S j)%nat by lia.
  reflexivity.
Qed.

Lemma generateEOTSKeyPair_loop_range entropy fuel : forall privateKey position result,
  List.length privateKey = 32%nat ->
  generateEOTSKeyPair_loop entropy fuel privateKey position = Some result ->
  List.length (fst result) = 32%nat /\ 0 <= bytesToNumber (fst result) < CURVE.n
  /\ exists draws, snd result = (position + 32 * draws)%nat.
Proof.
  induction fuel as [|fuel IH]; intros key position result Hlen Hloop; [discriminate |].
  cbn [generateEOTSKeyPair_loop] in Hloop.
  destruct (Z.geb_spec (bytesToNumber key) CURVE.n) as [Hge | Hlt].
  - unfold getRandomValues in Hloop. apply IH in Hloop.
    + destruct Hloop as (L & R & draws & P). repeat split; try tauto.
      exists (S draws). lia.
    + now rewrite length_map, length_seq.
  - injection Hloop as <-. cbn [fst snd]. pose proof (bytesToNumber_range key).
    repeat split; try lia. exists 0%nat. lia.
Qed.

(** X15. Every key pair that [generateEOTSKeyPair] returns has a private
    key of 32 bytes below [n], and the public key that [getPublicKey]
    gives for it. *)
Theorem generateEOTSKeyPair_key_range
  (getPublicKeySecp : list byte -> bool -> Result (list byte))
  (entropy : nat -> byte) (fuel position next : nat) (keyPair : EOTSKeyPair) :
  generateEOTSKeyPair getPublicKeySecp entropy fuel position = Some (Ok keyPair, next) ->
  List.length keyPair.(privateKey) = 32%nat
  /\ 0 <= bytesToNumber keyPair.(privateKey) < CURVE.n
  /\ getPublicKey getPublicKeySecp (OfBytes keyPair.(privateKey))
     = Ok keyPair.(publicKey)
  /\ (position + 32 <= next)%nat.
Proof.
  unfold generateEOTSKeyPair, getRandomValues. intros H.
  destruct (generateEOTSKeyPair_loop entropy fuel (map entropy (seq position 32))
              (position + 32)) as [[key pos] |] eqn:Hloop; [| discriminate].
  apply generateEOTSKeyPair_loop_range in Hloop;
    [| now rewrite length_map, length_seq].
  cbn [fst snd] in Hloop. destruct Hloop as (L & R & draws & P).
  injection H as Hkey Hnext. unfold getPublicKey. cbn [asBytes].
  destruct (getPublicKeySecp key true) as [pub |] eqn:Hpub; [| discriminate].
  cbn [bind] in Hkey. injection Hkey as <-. cbn [privateKey publicKey].
  repeat split; trivial; try lia; try tauto.
Qed.

(** ** Addresses and the signature string *)

Lemma bytesToHex_app a b : bytesToHex (a ++ b) = (bytesToHex a ++ bytesToHex b)%string.
Proof.
  induction a as [|x a IH]; [reflexivity |].
  cbn [app]. now rewrite !bytesToHex_cons, IH, append_assoc.
Qed.

(** X16. The address is [bc1p] followed by the digits of the public key
    without its first byte; the byte that tells the two points of one
    x-coordinate apart does not enter it. *)
Theorem deriveTaprootAddress_x_only
  (getPublicKeySecp : list byte -> bool -> Result (list byte))
  (privateKey : BytesLike) (prefix : byte) (x : list byte) :
  getPublicKeySecp (asBytes privateKey) true = Ok (prefix :: x) ->
  exists address,
    deriveTaprootAddress getPublicKeySecp privateKey = Ok address
    /\ address = ("bc1p" ++ bytesToHex x)%string
    /\ String.length address = (4 + 2 * List.length x)%nat
    /\ hexToBytes (slice_from 4 address) = x.
Proof.
  intros H. eexists. unfold deriveTaprootAddress. rewrite H. cbn [bind skipn].
  repeat split.
  - rewrite length_append, length_bytesToHex. reflexivity.
  - cbn [append slice_from]. apply hexToBytes_of_bytesToHex.
Qed.

(** X17. [signatureToFullHex] writes [r] and then [s]; decoding the string
    gives the two arrays, one after the other. *)
Theorem signatureToFullHex_decodes (signature : EOTSSignature) :
  signatureToFullHex signature = bytesToHex (signature.(r) ++ signature.(s))
  /\ hexToBytes (signatureToFullHex signature) = signature.(r) ++ signature.(s)
  /\ String.length (signatureToFullHex signature)
     = (2 * (List.length signature.(r) + List.length signature.(s)))%nat.
Proof.
  unfold signatureToFullHex. rewrite <- bytesToHex_app. repeat split.
  - apply hexToBytes_of_bytesToHex.
  - rewrite length_bytesToHex, length_app. reflexivity.
Qed.

(** ** More on signing *)

Lemma selectNonce_total sha256 privKey msgHash nonce :
  exists k, selectNonce sha256 privKey msgHash nonce = Ok k.
Proof.
  unfold selectNonce. destruct nonce as [given |]; [destruct (truthy given) |];
    rewrite ?deriveNonce_ok; eauto.
Qed.

Lemma invmod_n k : 0 < k < CURVE.n -> eqm CURVE.n (Z.invmod k CURVE.n * k) 1.
Proof.
  intros Hk. pose proof CURVE_n_gt_1. unfold eqm.
  rewrite Z.invmod_coprime; [symmetry; apply Z.mod_small; lia | lia |].
  apply coprime_n. rewrite Z.mod_small; lia.
Qed.

Lemma mod_eqm N a : eqm N (a mod N) a.
Proof. apply Zmod_eqm. Qed.

Lemma sValue_equation k h rr x :
  0 < k < CURVE.n -> eqm CURVE.n (sValue k h rr x * k) (h + rr * x).
Proof.
  intros Hk. unfold sValue. rewrite mod_eqm.
  replace (Z.invmod k CURVE.n * (h + rr * x) * k)
    with ((Z.invmod k CURVE.n * k) * (h + rr * x)) by ring.
  rewrite (invmod_n k Hk). now rewrite Z.mul_1_l.
Qed.

Lemma length_Uint8Array_slice a start end_ :
  (List.length (Uint8Array_slice a start end_) <= end_ - start)%nat.
Proof. unfold Uint8Array_slice. apply firstn_le_length. Qed.

(** What every signature returned by [signEOTS] satisfies. *)
Lemma signEOTS_Ok_facts getPublicKeySecp sha256 privateKey messageHash nonce sig :
  signEOTS getPublicKeySecp sha256 privateKey messageHash nonce = Ok sig ->
  exists k,
    selectNonce sha256 (asBytes privateKey) (asBytes messageHash) nonce = Ok k
    /\ 0 < bytesToNumber k < CURVE.n
    /\ (List.length sig.(r) <= 32)%nat
    /\ List.length sig.(s) = 32%nat
    /\ 0 < bytesToNumber sig.(s) < CURVE.n
    /\ bytesToNumber sig.(s)
       = sValue (bytesToNumber k) (bytesToNumber (asBytes messageHash))
           (bytesToNumber sig.(r)) (bytesToNumber (asBytes privateKey)).
Proof.
  intros H.
  destruct (selectNonce_total sha256 (asBytes privateKey) (asBytes messageHash) nonce)
    as [k Hk].
  destruct (signEOTS_Ok_inv _ _ _ _ _ _ _ Hk H) as (Hrange & kPoint & _ & Hr & Hs & Hnz).
  exists k.
  set (sv := sValue (bytesToNumber k) (bytesToNumber (asBytes messageHash))
               (bytesToNumber sig.(r)) (bytesToNumber (asBytes privateKey))) in *.
  destruct (numberToBytes_spec sv 32 ltac:(lia) (sValue_range _ _ _ _)) as [L N].
  rewrite <- Hs in L, N.
  assert (0 <= sv < CURVE.n).
  { unfold sv, sValue. apply Z.mod_pos_bound. pose proof CURVE_n_gt_1. lia. }
  repeat split; trivial; try lia.
  rewrite Hr. apply (length_Uint8Array_slice kPoint 1 33).
Qed.

(** X18. Every signature that [signEOTS] returns has an [s] of 32 bytes
    with [0 < s < n], an [r] of at most 32 bytes, and satisfies the
    signing equation [s * k = h + r * x] modulo [n] for the nonce [k] in
    use. *)
Theorem signEOTS_signature_equation
  (getPublicKeySecp : list byte -> bool -> Result (list byte))
  (sha256 : list byte -> list byte)
  (privateKey messageHash : BytesLike) (nonce : option BytesLike)
  (sig : EOTSSignature) :
  signEOTS getPublicKeySecp sha256 privateKey messageHash nonce = Ok sig ->
  exists k,
    selectNonce sha256 (asBytes privateKey) (asBytes messageHash) nonce = Ok k
    /\ 0 < bytesToNumber k < CURVE.n
    /\ (List.length sig.(r) <= 32)%nat
    /\ List.length sig.(s) = 32%nat
    /\ 0 < bytesToNumber sig.(s) < CURVE.n
    /\ eqm CURVE.n (bytesToNumber sig.(s) * bytesToNumber k)
         (bytesToNumber (asBytes messageHash)
          + bytesToNumber sig.(r) * bytesToNumber (asBytes privateKey)).
Proof.
  intros H.
  destruct (signEOTS_Ok_facts _ _ _ _ _ _ H) as (k & Hk & Hrange & Lr & Ls & Hs & Hv).
  exists k. repeat split; trivial; try lia.
  rewrite Hv. now apply sValue_equation.
Qed.

(** X19. A key, digest and nonce given as the digits that [bytesToHex]
    writes sign as the arrays themselves do; an empty array as nonce is
    not replaced by the derived nonce, it is rejected. *)
Theorem signEOTS_hex_or_bytes
  (getPublicKeySecp : list byte -> bool -> Result (list byte))
  (sha256 : list byte -> list byte)
  (privateKey messageHash nonce : list byte) (key digest : BytesLike) :
  nonce <> [] ->
  signEOTS getPublicKeySecp sha256 (OfHex (bytesToHex privateKey))
    (OfHex (bytesToHex messageHash)) (Some (OfHex (bytesToHex nonce)))
  = signEOTS getPublicKeySecp sha256 (OfBytes privateKey) (OfBytes messageHash)
      (Some (OfBytes nonce))
  /\ signEOTS getPublicKeySecp sha256 key digest (Some (OfBytes []))
     = Throw "Invalid nonce generated".
Proof.
  intros Hne. split; [| reflexivity].
  apply signEOTS_asBytes; cbn [asBytes truthy]; try apply hexToBytes_of_bytesToHex.
  destruct nonce as [|b nonce]; [congruence |].
  rewrite bytesToHex_cons. destruct (byteToHex_spec b) as (c1 & c2 & -> & _).
  reflexivity.
Qed.

(** ** More on verification *)

Lemma verifyEOTS_verdict verify publicKey messageHash signature :
  let r := bytesToNumber signature.(r) in
  let s := bytesToNumber signature.(s) in
  verifyEOTS verify publicKey messageHash signature =
  Ok (if (0 <? r) && (r <? CURVE.n) && (0 <? s) && (s <? CURVE.n)
      then match verify (numberToBytes r 32 ++ numberToBytes s 32)
                   (asBytes messageHash) (asBytes publicKey) with
           | Ok b => b
           | Throw _ => true
           end
      else false).
Proof.
  cbv zeta.
  destruct (Z.ltb_spec 0 (bytesToNumber signature.(r))) as [Hr0 | Hr0];
    [destruct (Z.ltb_spec (bytesToNumber signature.(r)) CURVE.n) as [Hr1 | Hr1];
     [destruct (Z.ltb_spec 0 (bytesToNumber signature.(s))) as [Hs0 | Hs0];
      [destruct (Z.ltb_spec (bytesToNumber signature.(s)) CURVE.n) as [Hs1 | Hs1] |] |] |];
    cbn [andb].
  1: now apply verifyEOTS_in_range.
  all: unfold verifyEOTS;
    assert (E : (bytesToNumber signature.(r) <=? 0)
                || (bytesToNumber signature.(r) >=? CURVE.n)
                || (bytesToNumber signature.(s) <=? 0)
                || (bytesToNumber signature.(s) >=? CURVE.n) = true)
      by (repeat rewrite orb_true_iff; rewrite !Z.leb_le, !Z.geb_le; lia);
    now rewrite E.
Qed.

(** X20. [verifyEOTS] sees a signature through the numbers of [r] and [s]
    only: leading zero bytes, or their absence, do not change the
    result. *)
Theorem verifyEOTS_reads_numbers
  (verify : list byte -> list byte -> list byte -> Result bool)
  (publicKey messageHash : BytesLike) (sig sig' : EOTSSignature) :
  bytesToNumber sig.(r) = bytesToNumber sig'.(r) ->
  bytesToNumber sig.(s) = bytesToNumber sig'.(s) ->
  verifyEOTS verify publicKey messageHash sig
  = verifyEOTS verify publicKey messageHash sig'.
Proof.
  intros Hr Hs. rewrite !verifyEOTS_verdict. cbv zeta. now rewrite Hr, Hs.
Qed.

(** X21. Verifying what [signEOTS] returned, when [r] has its 32 bytes:
    [false] when [r] is 0 or not below [n]; otherwise the answer of the
    library on the 64 bytes [r ‖ s], and [true] when the library throws.
    The key and digest play no part before the library is called. *)
Theorem verifyEOTS_after_signEOTS
  (getPublicKeySecp : list byte -> bool -> Result (list byte))
  (verify : list byte -> list byte -> list byte -> Result bool)
  (sha256 : list byte -> list byte)
  (privateKey messageHash publicKey messageHash' : BytesLike)
  (nonce : option BytesLike) (sig : EOTSSignature) :
  signEOTS getPublicKeySecp sha256 privateKey messageHash nonce = Ok sig ->
  List.length sig.(r) = 32%nat ->
  verifyEOTS verify publicKey messageHash' sig =
  Ok (if (0 <? bytesToNumber sig.(r)) && (bytesToNumber sig.(r) <? CURVE.n)
      then match verify (sig.(r) ++ sig.(s)) (asBytes messageHash') (asBytes publicKey) with
           | Ok b => b
           | Throw _ => true
           end
      else false).
Proof.
  intros H Lr.
  destruct (signEOTS_Ok_facts _ _ _ _ _ _ H) as (k & _ & _ & _ & Ls & Hs & _).
  rewrite verifyEOTS_verdict. cbv zeta.
  destruct (Z.ltb_spec 0 (bytesToNumber sig.(s))); [| lia].
  destruct (Z.ltb_spec (bytesToNumber sig.(s)) CURVE.n); [| lia].
  rewrite !andb_true_r.
  pose proof (numberToBytes_of_bytes sig.(r)) as Er. rewrite Lr in Er.
  pose proof (numberToBytes_of_bytes sig.(s)) as Es. rewrite Ls in Es.
  rewrite Er, Es; [reflexivity | |]; intros E; rewrite E in *; discriminate.
Qed.

(** ** More on key extraction *)

Lemma extractPrivateKey_Ok_inv sig1 sig2 hash1 hash2 out :
  extractPrivateKey sig1 sig2 hash1 hash2 = Ok out ->
  bytesToNumber sig1.(r) = bytesToNumber sig2.(r)
  /\ (bytesToNumber sig1.(s) - bytesToNumber sig2.(s)) mod CURVE.n <> 0
  /\ bytesToNumber sig1.(r) mod CURVE.n <> 0.
Proof.
  intros H.
  assert (Hr : bytesToNumber sig1.(r) = bytesToNumber sig2.(r)).
  { destruct (Z.eqb_spec (bytesToNumber sig1.(r)) (bytesToNumber sig2.(r))) as [| Hne];
      [assumption |].
    exfalso. unfold extractPrivateKey in H. apply Z.eqb_neq in Hne. rewrite Hne in H.
    discriminate. }
  assert (Hd : (bytesToNumber sig1.(s) - bytesToNumber sig2.(s)) mod CURVE.n <> 0).
  { intros Hz. unfold extractPrivateKey in H. rewrite <- Hr, Z.eqb_refl in H.
    cbn [negb] in H.
    destruct (bytesToNumber sig1.(s) =? bytesToNumber sig2.(s)); [discriminate |].
    rewrite mod_n in H. cbn [bind] in H. rewrite Hz in H. discriminate. }
  repeat split; trivial.
  destruct (extractPrivateKey_unfold sig1 sig2 hash1 hash2 Hr Hd) as [Hthrow _].
  intros Hz. rewrite (Hthrow Hz) in H. discriminate.
Qed.

(** X22. [extractPrivateKey] returns a key exactly when the two [r] are
    equal, the two [s] differ modulo [n], and [r] is not a multiple of
    [n]. *)
Theorem extractPrivateKey_succeeds_iff (sig1 sig2 : EOTSSignature)
  (hash1 hash2 : BytesLike) :
  (exists out, extractPrivateKey sig1 sig2 hash1 hash2 = Ok out)
  <-> bytesToNumber sig1.(r) = bytesToNumber sig2.(r)
      /\ (bytesToNumber sig1.(s) - bytesToNumber sig2.(s)) mod CURVE.n <> 0
      /\ bytesToNumber sig1.(r) mod CURVE.n <> 0.
Proof.
  split.
  - intros [out H]. now apply extractPrivateKey_Ok_inv in H.
  - intros (Hr & Hd & Hrm).
    destruct (extractPrivateKey_unfold sig1 sig2 hash1 hash2 Hr Hd) as [_ Hok].
    destruct (Hok Hrm) as (? & ? & _ & _ & ->). eauto.
Qed.

Section ExtractionAlgebra.

(** What the two steps of [extractPrivateKey] compute, modulo any [N]. *)
Variables N r h1 h2 s1 s2 sDiffInv rInv : Z.
Hypothesis sDiffInv_ok : eqm N (sDiffInv * (s1 - s2)) 1.
Hypothesis rInv_ok : eqm N (rInv * r) 1.

Let k := (h1 - h2) * sDiffInv.
Let x := (s1 * k - h1) * rInv.

Lemma extracted_explains_first : eqm N (s1 * k) (h1 + r * x).
Proof.
  unfold x. replace (h1 + r * ((s1 * k - h1) * rInv))
    with (h1 + (rInv * r) * (s1 * k - h1)) by ring.
  rewrite rInv_ok. now replace (h1 + 1 * (s1 * k - h1)) with (s1 * k) by ring.
Qed.

Lemma extracted_nonce : eqm N (k * (s1 - s2)) (h1 - h2).
Proof.
  unfold k. replace ((h1 - h2) * sDiffInv * (s1 - s2))
    with ((h1 - h2) * (sDiffInv * (s1 - s2))) by ring.
  rewrite sDiffInv_ok. now rewrite Z.mul_1_r.
Qed.

Lemma extracted_explains_second : eqm N (s2 * k) (h2 + r * x).
Proof.
  replace (h2 + r * x) with ((h1 + r * x) - (h1 - h2)) by ring.
  rewrite <- extracted_explains_first, <- extracted_nonce.
  now replace (s1 * k - k * (s1 - s2)) with (s2 * k) by ring.
Qed.

Lemma extracted_swap :
  eqm N ((s1 * k - h1) * rInv) ((s2 * k - h2) * rInv).
Proof.
  replace (s2 * k - h2) with (s1 * k - h1 - (k * (s1 - s2) - (h1 - h2))) by ring.
  rewrite extracted_nonce.
  now replace (s1 * k - h1 - (h1 - h2 - (h1 - h2))) with (s1 * k - h1) by ring.
Qed.

End ExtractionAlgebra.

Lemma extractPrivateKey_Ok_value sig1 sig2 hash1 hash2 out :
  extractPrivateKey sig1 sig2 hash1 hash2 = Ok out ->
  exists sDiffInv rInv,
    eqm CURVE.n (sDiffInv * (bytesToNumber sig1.(s) - bytesToNumber sig2.(s))) 1
    /\ eqm CURVE.n (rInv * bytesToNumber sig1.(r)) 1
    /\ List.length out = 32%nat
    /\ 0 <= bytesToNumber out < CURVE.n
    /\ eqm CURVE.n (bytesToNumber out)
         ((bytesToNumber sig1.(s)
           * ((bytesToNumber (asBytes hash1) - bytesToNumber (asBytes hash2)) * sDiffInv)
           - bytesToNumber (asBytes hash1)) * rInv).
Proof.
  intros H. destruct (extractPrivateKey_Ok_inv _ _ _ _ _ H) as (Hr & Hd & Hrm).
  destruct (extractPrivateKey_unfold sig1 sig2 hash1 hash2 Hr Hd) as [_ Hok].
  destruct (Hok Hrm) as (sDiffInv & rInv & Hsd & Hri & E).
  rewrite E in H. injection H as <-. exists sDiffInv, rInv.
  pose proof CURVE_n_gt_1 as Hn. pose proof CURVE_n_fits as Hfit.
  match goal with
  | |- context [numberToBytes ?v 32] =>
      set (V := v); assert (HV : 0 <= V < CURVE.n) by (apply Z.mod_pos_bound; lia)
  end.
  destruct (numberToBytes_spec V 32 ltac:(lia) ltac:(lia)) as [L N].
  rewrite L, N. repeat split; trivial; try lia.
  unfold V. now rewrite !mod_eqm.
Qed.

(** X23. A key that [extractPrivateKey] returns has 32 bytes, is below [n],
    and explains both signatures: one nonce satisfies the signing
    equation of each with that key. *)
Theorem extractPrivateKey_explains_signatures (sig1 sig2 : EOTSSignature)
  (hash1 hash2 : BytesLike) (out : list byte) :
  extractPrivateKey sig1 sig2 hash1 hash2 = Ok out ->
  List.length out = 32%nat
  /\ 0 <= bytesToNumber out < CURVE.n
  /\ bytesToNumber sig1.(r) = bytesToNumber sig2.(r)
  /\ exists k,
       eqm CURVE.n (bytesToNumber sig1.(s) * k)
         (bytesToNumber (asBytes hash1) + bytesToNumber sig1.(r) * bytesToNumber out)
       /\ eqm CURVE.n (bytesToNumber sig2.(s) * k)
            (bytesToNumber (asBytes hash2) + bytesToNumber sig1.(r) * bytesToNumber out).
Proof.
  intros H. destruct (extractPrivateKey_Ok_inv _ _ _ _ _ H) as (Hr & _ & _).
  destruct (extractPrivateKey_Ok_value _ _ _ _ _ H)
    as (sDiffInv & rInv & Hsd & Hri & L & R & V).
  repeat split; trivial; try lia.
  exists ((bytesToNumber (asBytes hash1) - bytesToNumber (asBytes hash2)) * sDiffInv).
  rewrite V. split.
  - now apply extracted_explains_first.
  - now apply extracted_explains_second.
Qed.

Lemma extractPrivateKey_swap_Ok sig1 sig2 hash1 hash2 out :
  extractPrivateKey sig1 sig2 hash1 hash2 = Ok out ->
  extractPrivateKey sig2 sig1 hash2 hash1 = Ok out.
Proof.
  intros H. destruct (extractPrivateKey_Ok_inv _ _ _ _ _ H) as (Hr & Hd & Hrm).
  pose proof CURVE_n_gt_1 as Hn.
  assert (Hd' : (bytesToNumber sig2.(s) - bytesToNumber sig1.(s)) mod CURVE.n <> 0).
  { intros Hz. apply Hd.
    replace (bytesToNumber sig1.(s) - bytesToNumber sig2.(s))
      with (- (bytesToNumber sig2.(s) - bytesToNumber sig1.(s))) by ring.
    apply Z.mod_opp_l_z; [lia | exact Hz]. }
  assert (Hrm' : bytesToNumber sig2.(r) mod CURVE.n <> 0) by now rewrite <- Hr.
  destruct (extractPrivateKey_unfold sig2 sig1 hash2 hash1 (eq_sym Hr) Hd') as [_ Hok].
  destruct (Hok Hrm') as (sDiffInv' & rInv' & Hsd' & Hri' & E').
  assert (H' := E'). apply extractPrivateKey_Ok_value in H'.
  destruct H' as (sDiffInv2 & rInv2 & Hsd2 & Hri2 & L2 & R2 & V2).
  destruct (extractPrivateKey_Ok_value _ _ _ _ _ H)
    as (sDiffInv & rInv & Hsd & Hri & L & R & V).
  rewrite E'. f_equal. apply bytesToNumber_inj; [congruence |].
  rewrite <- (Z.mod_small (bytesToNumber out) CURVE.n) by lia.
  match goal with
  | |- bytesToNumber ?o = _ => rewrite <- (Z.mod_small (bytesToNumber o) CURVE.n) by lia
  end.
  apply eqm_mod_eq. rewrite V, V2. rewrite <- Hr in *.
  set (s1 := bytesToNumber sig1.(s)) in *. set (s2 := bytesToNumber sig2.(s)) in *.
  set (h1 := bytesToNumber (asBytes hash1)) in *.
  set (h2 := bytesToNumber (asBytes hash2)) in *.
  assert (Ei : eqm CURVE.n rInv2 rInv)
    by (apply (inverse_unique _ (bytesToNumber sig1.(r))); assumption).
  assert (Es : eqm CURVE.n sDiffInv2 (- sDiffInv)).
  { apply (inverse_unique _ (s2 - s1)); [assumption |].
    now replace (- sDiffInv * (s2 - s1)) with (sDiffInv * (s1 - s2)) by ring. }
  rewrite Ei, Es.
  replace ((h2 - h1) * - sDiffInv) with ((h1 - h2) * sDiffInv) by ring.
  symmetry. now apply extracted_swap.
Qed.

Lemma extractPrivateKey_swap_Throw sig1 sig2 hash1 hash2 message :
  extractPrivateKey sig1 sig2 hash1 hash2 = Throw message ->
  extractPrivateKey sig2 sig1 hash2 hash1 = Throw message.
Proof.
  intros H. pose proof CURVE_n_gt_1 as Hn.
  destruct (Z.eqb_spec (bytesToNumber sig1.(r)) (bytesToNumber sig2.(r))) as [Hr | Hr].
  2:{ unfold extractPrivateKey in *.
      apply Z.eqb_neq in Hr. rewrite Hr in H. rewrite Z.eqb_sym in Hr. rewrite Hr.
      exact H. }
  destruct (Z.eqb_spec (bytesToNumber sig1.(s)) (bytesToNumber sig2.(s))) as [Hs | Hs].
  { unfold extractPrivateKey in *.
    rewrite Hr, Hs, !Z.eqb_refl in *. exact H. }
  destruct (Z.eq_dec ((bytesToNumber sig1.(s) - bytesToNumber sig2.(s)) mod CURVE.n) 0)
    as [Hd | Hd].
  { assert (Hd' : (bytesToNumber sig2.(s) - bytesToNumber sig1.(s)) mod CURVE.n = 0).
    { replace (bytesToNumber sig2.(s) - bytesToNumber sig1.(s))
        with (- (bytesToNumber sig1.(s) - bytesToNumber sig2.(s))) by ring.
      apply Z.mod_opp_l_z; [lia | exact Hd]. }
    unfold extractPrivateKey in *.
    apply Z.eqb_neq in Hs. rewrite Hr, Z.eqb_refl, Hs, mod_n in H.
    rewrite Z.eqb_sym in Hs. rewrite Hr, Z.eqb_refl, Hs, mod_n.
    cbn [negb bind] in *. rewrite Hd in H. rewrite Hd'. exact H. }
  assert (Hd' : (bytesToNumber sig2.(s) - bytesToNumber sig1.(s)) mod CURVE.n <> 0).
  { intros Hz. apply Hd.
    replace (bytesToNumber sig1.(s) - bytesToNumber sig2.(s))
      with (- (bytesToNumber sig2.(s) - bytesToNumber sig1.(s))) by ring.
    apply Z.mod_opp_l_z; [lia | exact Hz]. }
  destruct (extractPrivateKey_unfold sig1 sig2 hash1 hash2 Hr Hd) as [Hthrow Hok].
  destruct (extractPrivateKey_unfold sig2 sig1 hash2 hash1 (eq_sym Hr) Hd') as [Hthrow' _].
  destruct (Z.eq_dec (bytesToNumber sig1.(r) mod CURVE.n) 0) as [Hz | Hnz].
  - rewrite (Hthrow Hz) in H. rewrite Hthrow' by now rewrite <- Hr. exact H.
  - destruct (Hok Hnz) as (? & ? & _ & _ & E). rewrite E in H. discriminate.
Qed.

(** X24. [extractPrivateKey] does not depend on the order of the two
    signatures: swapping them, with their digests, gives the same key or
    the same error. *)
Theorem extractPrivateKey_symmetric (sig1 sig2 : EOTSSignature) (hash1 hash2 : BytesLike) :
  extractPrivateKey sig1 sig2 hash1 hash2 = extractPrivateKey sig2 sig1 hash2 hash1.
Proof.
  destruct (extractPrivateKey sig1 sig2 hash1 hash2) as [out | message] eqn:H.
  - symmetry. now apply extractPrivateKey_swap_Ok.
  - symmetry. now apply extractPrivateKey_swap_Throw.
Qed.

(** Extraction that succeeds on two signatures of one key under one
    explicit nonce returns that key. *)
Lemma extracted_key_is_signing_key getPublicKeySecp sha256
  (privateKey nonce hash1 hash2 : BytesLike) (sig1 sig2 : EOTSSignature) out :
  List.length (asBytes privateKey) = 32%nat ->
  bytesToNumber (asBytes privateKey) < CURVE.n ->
  truthy nonce = true ->
  signEOTS getPublicKeySecp sha256 privateKey hash1 (Some nonce) = Ok sig1 ->
  signEOTS getPublicKeySecp sha256 privateKey hash2 (Some nonce) = Ok sig2 ->
  extractPrivateKey sig1 sig2 hash1 hash2 = Ok out ->
  out = asBytes privateKey.
Proof.
  intros Lx Hx Ht Hs1 Hs2 He.
  pose proof CURVE_n_gt_1 as Hn.
  assert (Hsel : forall h, selectNonce sha256 (asBytes privateKey) (asBytes h)
                     (Some nonce) = Ok (asBytes nonce))
    by (intros h; unfold selectNonce; now rewrite Ht).
  destruct (signEOTS_Ok_facts _ _ _ _ _ _ Hs1) as (k1 & Hk1 & Hk & _ & _ & _ & Hv1).
  destruct (signEOTS_Ok_facts _ _ _ _ _ _ Hs2) as (k2 & Hk2 & _ & _ & _ & _ & Hv2).
  rewrite Hsel in Hk1, Hk2. injection Hk1 as <-. injection Hk2 as <-.
  destruct (signEOTS_Ok_inv _ _ _ _ _ _ _ (Hsel hash1) Hs1) as (_ & kPoint1 & Hp1 & Hr1 & _).
  destruct (signEOTS_Ok_inv _ _ _ _ _ _ _ (Hsel hash2) Hs2) as (_ & kPoint2 & Hp2 & Hr2 & _).
  rewrite Hp1 in Hp2. injection Hp2 as <-.
  assert (Hrr : sig2.(r) = sig1.(r)) by congruence.
  rewrite Hrr in Hv2.
  destruct (extractPrivateKey_Ok_value _ _ _ _ _ He)
    as (sDiffInv & rInv & Hsd & Hri & L & R & V).
  apply bytesToNumber_inj; [congruence |].
  pose proof (bytesToNumber_range (asBytes privateKey)) as [Hx0 _].
  rewrite <- (Z.mod_small (bytesToNumber out) CURVE.n) by lia.
  rewrite <- (Z.mod_small (bytesToNumber (asBytes privateKey)) CURVE.n) by lia.
  apply eqm_mod_eq. rewrite V.
  apply (recovered_key CURVE.n (bytesToNumber (asBytes nonce))
           (Z.invmod (bytesToNumber (asBytes nonce)) CURVE.n)
           (bytesToNumber (asBytes privateKey)) (bytesToNumber sig1.(r))
           (bytesToNumber (asBytes hash1)) (bytesToNumber (asBytes hash2))
           (bytesToNumber sig1.(s)) (bytesToNumber sig2.(s))); trivial.
  - now apply invmod_n.
  - rewrite Hv1. unfold sValue. apply mod_eqm.
  - rewrite Hv2. unfold sValue. apply mod_eqm.
Qed.

(** X25. Whenever [extractPrivateKey] returns on two signatures that
    [signEOTS] made with one key of 32 bytes below [n] (0 included) and
    one explicit nonce, it returns the bytes of that key. *)
Theorem extractPrivateKey_returns_signing_key
  (getPublicKeySecp : list byte -> bool -> Result (list byte))
  (sha256 : list byte -> list byte)
  (privateKey nonce hash1 hash2 : BytesLike) (sig1 sig2 : EOTSSignature)
  (out : list byte) :
  List.length (asBytes privateKey) = 32%nat ->
  bytesToNumber (asBytes privateKey) < CURVE.n ->
  truthy nonce = true ->
  signEOTS getPublicKeySecp sha256 privateKey hash1 (Some nonce) = Ok sig1 ->
  signEOTS getPublicKeySecp sha256 privateKey hash2 (Some nonce) = Ok sig2 ->
  extractPrivateKey sig1 sig2 hash1 hash2 = Ok out ->
  out = asBytes privateKey.
Proof. apply extracted_key_is_signing_key. Qed.

(** ** The demonstration *)

Lemma Some_inj {A : Type} (a b : A) : Some a = Some b -> a = b.
Proof. now intros [= ->]. Qed.

Lemma Ok_inj {A : Type} (a b : A) : Ok a = Ok b -> a = b.
Proof. now intros [= ->]. Qed.

Lemma bind_Ok {A B : Type} (a : A) (k : A -> Result B) : bind (Ok a) k = k a.
Proof. reflexivity. Qed.


(** X26. Whenever [demonstrateNonceReuse] returns, its result reports a
    match: the extracted key is the generated key, digit for digit. *)
Theorem demonstrateNonceReuse_keys_match
  (getPublicKeySecp : list byte -> bool -> Result (list byte))
  (verify : list byte -> list byte -> list byte -> Result bool)
  (sha256 : list byte -> list byte) (entropy : nat -> byte)
  (fuel position : nat) (report : NonceReuseReport) :
  demonstrateNonceReuse getPublicKeySecp verify sha256 entropy fuel position
  = Some (Ok report) ->
  report.(keysMatch) = true
  /\ report.(extractedPrivateKey) = report.(originalPrivateKey)
  /\ String.length report.(originalPrivateKey) = 64%nat
  /\ report.(signatures).(report_sig1).(report_r)
     = report.(signatures).(report_sig2).(report_r).
Proof.
  unfold demonstrateNonceReuse. intros H.
  destruct (generateEOTSKeyPair getPublicKeySecp entropy fuel position)
    as [[generated next] |] eqn:Hgen; [| discriminate].
  apply Some_inj in H. destruct generated as [keyPair | e]; [| discriminate].
  destruct (generateEOTSKeyPair_key_range _ _ _ _ _ _ Hgen) as (Lx & Rx & _ & _).
  rewrite ?bind_Ok in H.
  unfold generateRandomNonce, generateRandomMessageHash in H.
  do 3 (rewrite generateRandomHex32_unfold in H; cbv beta iota in H).
  set (sharedNonce := bytesToHex (map entropy (seq next 32))) in *.
  set (messageHash1 := bytesToHex (map entropy (seq (next + 32) 32))) in *.
  set (messageHash2 := bytesToHex (map entropy (seq (next + 32 + 32) 32))) in *.
  destruct (signEOTS getPublicKeySecp sha256 (OfBytes keyPair.(privateKey))
              (OfHex messageHash1) (Some (OfHex sharedNonce))) as [sig1 |] eqn:Hs1;
    [| discriminate].
  destruct (signEOTS getPublicKeySecp sha256 (OfBytes keyPair.(privateKey))
              (OfHex messageHash2) (Some (OfHex sharedNonce))) as [sig2 |] eqn:Hs2;
    [| discriminate].
  rewrite ?bind_Ok in H.
  destruct (verifyEOTS verify (OfBytes keyPair.(publicKey)) (OfHex messageHash1) sig1);
    [| discriminate].
  destruct (verifyEOTS verify (OfBytes keyPair.(publicKey)) (OfHex messageHash2) sig2);
    [| discriminate].
  rewrite ?bind_Ok in H.
  destruct (extractPrivateKey sig1 sig2 (OfHex messageHash1) (OfHex messageHash2))
    as [extractedKey |] eqn:He; [| discriminate].
  rewrite ?bind_Ok in H.
  destruct (deriveTaprootAddress getPublicKeySecp (OfBytes keyPair.(privateKey)));
    [| discriminate].
  rewrite ?bind_Ok in H. apply Ok_inj in H. subst report.
  cbn [keysMatch extractedPrivateKey originalPrivateKey signatures report_sig1
       report_sig2 report_r].
  assert (Ht : truthy (OfHex sharedNonce) = true).
  { unfold sharedNonce. cbn [seq map]. rewrite bytesToHex_cons.
    destruct (byteToHex_spec (entropy next)) as (c1 & c2 & -> & _). reflexivity. }
  assert (Hkey : extractedKey = keyPair.(privateKey)).
  { apply (extracted_key_is_signing_key getPublicKeySecp sha256
             (OfBytes keyPair.(privateKey)) (OfHex sharedNonce)
             (OfHex messageHash1) (OfHex messageHash2) sig1 sig2); trivial.
    cbn [asBytes]. lia. }
  assert (Hsel : forall h, selectNonce sha256 (asBytes (OfBytes keyPair.(privateKey)))
                     (asBytes h) (Some (OfHex sharedNonce))
                   = Ok (asBytes (OfHex sharedNonce)))
    by (intros h; unfold selectNonce; now rewrite Ht).
  destruct (signEOTS_Ok_inv _ _ _ _ _ _ _ (Hsel (OfHex messageHash1)) Hs1)
    as (_ & kPoint1 & Hp1 & Hr1 & _).
  destruct (signEOTS_Ok_inv _ _ _ _ _ _ _ (Hsel (OfHex messageHash2)) Hs2)
    as (_ & kPoint2 & Hp2 & Hr2 & _).
  rewrite Hp1 in Hp2. injection Hp2 as <-.
  rewrite Hkey, String.eqb_refl, length_bytesToHex, Lx, Hr1, Hr2.
  repeat split.
Qed.

(** ** The errors of signing and extraction *)

Lemma sValue_zero k h rr x :
  0 < k < CURVE.n -> sValue k h rr x = 0 -> (h + rr * x) mod CURVE.n = 0.
Proof.
  intros Hk Hz. pose proof (sValue_equation k h rr x Hk) as E.
  rewrite Hz in E. unfold eqm in E. rewrite <- E. reflexivity.
Qed.

(** X27. The errors of [signEOTS]. It throws for a nonce that is 0 or not
    below [n], with the error of the curve library when that throws, and
    when [h + r * x] is a multiple of [n]; the modular inverse and the
    construction of the nonce input never fail. *)
Theorem signEOTS_errors
  (getPublicKeySecp : list byte -> bool -> Result (list byte))
  (sha256 : list byte -> list byte)
  (privateKey messageHash : BytesLike) (nonce : option BytesLike) (message : string) :
  signEOTS getPublicKeySecp sha256 privateKey messageHash nonce = Throw message ->
  exists k,
    selectNonce sha256 (asBytes privateKey) (asBytes messageHash) nonce = Ok k
    /\ ((message = "Invalid nonce generated"
         /\ (bytesToNumber k = 0 \/ CURVE.n <= bytesToNumber k))
        \/ (0 < bytesToNumber k < CURVE.n /\ getPublicKeySecp k false = Throw message)
        \/ (message = "Invalid signature: s is zero"
            /\ 0 < bytesToNumber k < CURVE.n
            /\ exists kPoint,
                 getPublicKeySecp k false = Ok kPoint
                 /\ (bytesToNumber (asBytes messageHash)
                     + bytesToNumber (Uint8Array_slice kPoint 1 33)
                       * bytesToNumber (asBytes privateKey)) mod CURVE.n = 0)).
Proof.
  intros H.
  destruct (selectNonce_total sha256 (asBytes privateKey) (asBytes messageHash) nonce)
    as [k Hk].
  exists k. split; [exact Hk |].
  rewrite (signEOTS_unfold _ _ _ _ _ _ Hk) in H. cbv zeta in H.
  pose proof (bytesToNumber_range k) as [Hk0 _].
  destruct (Z.geb_spec (bytesToNumber k) CURVE.n) as [Hge | Hlt].
  { left. cbn [orb] in H. injection H as <-. split; [reflexivity | now right]. }
  destruct (Z.eqb_spec (bytesToNumber k) 0) as [Hz | Hnz].
  { left. cbn [orb] in H. injection H as <-. split; [reflexivity | now left]. }
  cbn [orb] in H. right.
  destruct (getPublicKeySecp k false) as [kPoint | e] eqn:Hp.
  - right. cbn [bind] in H.
    destruct (Z.eqb_spec (sValue (bytesToNumber k) (bytesToNumber (asBytes messageHash))
                (bytesToNumber (Uint8Array_slice kPoint 1 33))
                (bytesToNumber (asBytes privateKey))) 0) as [Hs | Hs]; [| discriminate].
    injection H as <-. split; [reflexivity | split; [lia |]].
    exists kPoint. split; [reflexivity |]. apply (sValue_zero (bytesToNumber k)); [lia |].
    exact Hs.
  - left. cbn [bind] in H. injection H as <-. split; [lia | reflexivity].
Qed.

(** X28. The errors of [extractPrivateKey], each with the condition under
    which it is thrown; there are four and no other. *)
Theorem extractPrivateKey_errors (sig1 sig2 : EOTSSignature) (hash1 hash2 : BytesLike)
  (message : string) :
  extractPrivateKey sig1 sig2 hash1 hash2 = Throw message ->
  let r1 := bytesToNumber sig1.(r) in
  let s1 := bytesToNumber sig1.(s) in
  let r2 := bytesToNumber sig2.(r) in
  let s2 := bytesToNumber sig2.(s) in
  (message = "Signatures do not use the same nonce (r values are different)"
   /\ r1 <> r2)
  \/ (message = "Signatures are identical" /\ r1 = r2 /\ s1 = s2)
  \/ (message = "Cannot extract private key: s1 equals s2"
      /\ r1 = r2 /\ s1 <> s2 /\ (s1 - s2) mod CURVE.n = 0)
  \/ (message = "Modular inverse does not exist"
      /\ r1 = r2 /\ (s1 - s2) mod CURVE.n <> 0 /\ r1 mod CURVE.n = 0).
Proof.
  intros H. cbv zeta.
  destruct (Z.eqb_spec (bytesToNumber sig1.(r)) (bytesToNumber sig2.(r))) as [Hr | Hr].
  2:{ left. unfold extractPrivateKey in H. apply Z.eqb_neq in Hr. rewrite Hr in H.
      apply Z.eqb_neq in Hr. injection H as <-. now split. }
  right.
  destruct (Z.eqb_spec (bytesToNumber sig1.(s)) (bytesToNumber sig2.(s))) as [Hs | Hs].
  { left. unfold extractPrivateKey in H. rewrite Hr, Hs, !Z.eqb_refl in H.
    injection H as <-. repeat split; trivial. }
  right.
  destruct (Z.eq_dec ((bytesToNumber sig1.(s) - bytesToNumber sig2.(s)) mod CURVE.n) 0)
    as [Hd | Hd].
  { left. unfold extractPrivateKey in H.
    apply Z.eqb_neq in Hs. rewrite Hr, Z.eqb_refl, Hs, mod_n in H.
    cbn [negb bind] in H. rewrite Hd in H. apply Z.eqb_neq in Hs.
    injection H as <-. repeat split; trivial. }
  right.
  destruct (extractPrivateKey_unfold sig1 sig2 hash1 hash2 Hr Hd) as [Hthrow Hok].
  destruct (Z.eq_dec (bytesToNumber sig1.(r) mod CURVE.n) 0) as [Hz | Hnz].
  - rewrite (Hthrow Hz) in H. injection H as <-. repeat split; trivial.
  - destruct (Hok Hnz) as (? & ? & _ & _ & E). rewrite E in H. discriminate.
Qed.

(** X29. The whole of [verifyEOTS]. It never throws; it returns [false]
    when [r] or [s] is 0 or not below [n], and otherwise what the library
    says of the 64 bytes made of [r] and [s], each written on 32 bytes,
    or [true] when the library throws. *)
Theorem verifyEOTS_characterisation
  (verify : list byte -> list byte -> list byte -> Result bool)
  (publicKey messageHash : BytesLike) (signature : EOTSSignature) :
  let r := bytesToNumber signature.(r) in
  let s := bytesToNumber signature.(s) in
  verifyEOTS verify publicKey messageHash signature =
  Ok (if (0 <? r) && (r <? CURVE.n) && (0 <? s) && (s <? CURVE.n)
      then match verify (numberToBytes r 32 ++ numberToBytes s 32)
                   (asBytes messageHash) (asBytes publicKey) with
           | Ok b => b
           | Throw _ => true
           end
      else false).
Proof. apply verifyEOTS_verdict. Qed.

(** ** Instances on concrete inputs *)

Lemma signEOTS_signature_equation_witness :
  sign key digest1 (Some nonce) = Ok sig1
  /\ exists k,
       selectNonce Sha256.sha256 (asBytes key) (asBytes digest1) (Some nonce) = Ok k
       /\ 0 < bytesToNumber k < CURVE.n
       /\ (List.length sig1.(r) <= 32)%nat
       /\ List.length sig1.(s) = 32%nat
       /\ 0 < bytesToNumber sig1.(s) < CURVE.n
       /\ eqm CURVE.n (bytesToNumber sig1.(s) * bytesToNumber k)
            (bytesToNumber (asBytes digest1)
             + bytesToNumber sig1.(r) * bytesToNumber (asBytes key)).
Proof.
  split; [exact sign_digest1 |].
  apply (signEOTS_signature_equation Secp256k1.getPublicKey Sha256.sha256
           key digest1 (Some nonce) sig1).
  exact sign_digest1.
Defined.

Lemma signEOTS_hex_or_bytes_witness :
  [x02] <> []
  /\ signEOTS Secp256k1.getPublicKey Sha256.sha256 (OfHex (bytesToHex [x01]))
       (OfHex (bytesToHex [x03])) (Some (OfHex (bytesToHex [x02])))
     = signEOTS Secp256k1.getPublicKey Sha256.sha256 (OfBytes [x01]) (OfBytes [x03])
         (Some (OfBytes [x02]))
  /\ signEOTS Secp256k1.getPublicKey Sha256.sha256 key digest1 (Some (OfBytes []))
     = Throw "Invalid nonce generated".
Proof.
  split; [discriminate |].
  apply (signEOTS_hex_or_bytes Secp256k1.getPublicKey Sha256.sha256
           [x01] [x03] [x02] key digest1).
  discriminate.
Defined.

Lemma verifyEOTS_reads_numbers_witness :
  bytesToNumber (signature_of 1 1).(r) = bytesToNumber [x01]
  /\ bytesToNumber (signature_of 1 1).(s) = bytesToNumber [x01]
  /\ verifyEOTS accepting_verify key digest1 (signature_of 1 1)
     = verifyEOTS accepting_verify key digest1 {| r := [x01]; s := [x01] |}.
Proof.
  split; [reflexivity | split; [reflexivity |]].
  apply (verifyEOTS_reads_numbers accepting_verify key digest1 (signature_of 1 1)
           {| r := [x01]; s := [x01] |}); reflexivity.
Defined.

Lemma verifyEOTS_after_signEOTS_witness :
  sign key digest1 (Some nonce) = Ok sig1
  /\ List.length sig1.(r) = 32%nat
  /\ verifyEOTS throwing_verify key digest2 sig1 =
     Ok (if (0 <? bytesToNumber sig1.(r)) && (bytesToNumber sig1.(r) <? CURVE.n)
         then match throwing_verify (sig1.(r) ++ sig1.(s)) (asBytes digest2) (asBytes key) with
              | Ok b => b
              | Throw _ => true
              end
         else false).
Proof.
  split; [exact sign_digest1 | split; [reflexivity |]].
  apply (verifyEOTS_after_signEOTS Secp256k1.getPublicKey throwing_verify Sha256.sha256
           key digest1 key digest2 (Some nonce) sig1); [exact sign_digest1 | reflexivity].
Defined.

Lemma extract_sig1_sig2 : extractPrivateKey sig1 sig2 digest1 digest2 = Ok (asBytes key).
Proof. vm_compute. reflexivity. Qed.

Lemma extractPrivateKey_explains_signatures_witness :
  extractPrivateKey sig1 sig2 digest1 digest2 = Ok (asBytes key)
  /\ List.length (asBytes key) = 32%nat
  /\ 0 <= bytesToNumber (asBytes key) < CURVE.n
  /\ bytesToNumber sig1.(r) = bytesToNumber sig2.(r)
  /\ exists k,
       eqm CURVE.n (bytesToNumber sig1.(s) * k)
         (bytesToNumber (asBytes digest1)
          + bytesToNumber sig1.(r) * bytesToNumber (asBytes key))
       /\ eqm CURVE.n (bytesToNumber sig2.(s) * k)
            (bytesToNumber (asBytes digest2)
             + bytesToNumber sig1.(r) * bytesToNumber (asBytes key)).
Proof.
  split; [exact extract_sig1_sig2 |].
  apply (extractPrivateKey_explains_signatures sig1 sig2 digest1 digest2 (asBytes key)).
  exact extract_sig1_sig2.
Defined.

Lemma extractPrivateKey_returns_signing_key_witness :
  List.length (asBytes key) = 32%nat
  /\ bytesToNumber (asBytes key) < CURVE.n
  /\ truthy nonce = true
  /\ sign key digest1 (Some nonce) = Ok sig1
  /\ sign key digest2 (Some nonce) = Ok sig2
  /\ extractPrivateKey sig1 sig2 digest1 digest2 = Ok (be_bytes 32 1)
  /\ be_bytes 32 1 = asBytes key.
Proof.
  split; [reflexivity | split; [reflexivity | split; [reflexivity |]]].
  split; [exact sign_digest1 | split; [exact sign_digest2 |]].
  split; [exact extract_sig1_sig2 |].
  apply (extractPrivateKey_returns_signing_key Secp256k1.getPublicKey Sha256.sha256
           key nonce digest1 digest2 sig1 sig2 (be_bytes 32 1));
    [reflexivity | reflexivity | reflexivity | exact sign_digest1 | exact sign_digest2
    | exact extract_sig1_sig2].
Defined.

Lemma getPublicKey_of_key :
  Secp256k1.getPublicKey (asBytes key) true = Ok (x02 :: be_bytes 32 Secp256k1.Gx).
Proof. vm_compute. reflexivity. Qed.

Lemma deriveTaprootAddress_x_only_witness :
  Secp256k1.getPublicKey (asBytes key) true = Ok (x02 :: be_bytes 32 Secp256k1.Gx)
  /\ exists address,
       deriveTaprootAddress Secp256k1.getPublicKey key = Ok address
       /\ address = ("bc1p" ++ bytesToHex (be_bytes 32 Secp256k1.Gx))%string
       /\ String.length address = (4 + 2 * List.length (be_bytes 32 Secp256k1.Gx))%nat
       /\ hexToBytes (slice_from 4 address) = be_bytes 32 Secp256k1.Gx.
Proof.
  split; [exact getPublicKey_of_key |].
  apply (deriveTaprootAddress_x_only Secp256k1.getPublicKey key x02
           (be_bytes 32 Secp256k1.Gx)).
  exact getPublicKey_of_key.
Defined.

Lemma generateEOTSKeyPair_first_draw_below_n_witness :
  (forall i, (i < 1)%nat ->
     CURVE.n <= bytesToNumber (map Entropy.ones_then_zeros (seq (0 + 32 * i) 32)))
  /\ bytesToNumber (map Entropy.ones_then_zeros (seq (0 + 32 * 1) 32)) < CURVE.n
  /\ (1 < 2)%nat
  /\ generateEOTSKeyPair Secp256k1.getPublicKey Entropy.ones_then_zeros 2 0
     = Some (publicKey <-
               Secp256k1.getPublicKey
                 (map Entropy.ones_then_zeros (seq (0 + 32 * 1) 32)) true ;;
             Ok {| privateKey := map Entropy.ones_then_zeros (seq (0 + 32 * 1) 32);
                   publicKey := publicKey |},
             (0 + 32 * 2)%nat).
Proof.
  assert (Hrej : forall i, (i < 1)%nat ->
            CURVE.n <= bytesToNumber (map Entropy.ones_then_zeros (seq (0 + 32 * i) 32))).
  { intros i Hi. replace i with 0%nat by lia. vm_compute. discriminate. }
  split; [exact Hrej | split; [reflexivity | split; [lia |]]].
  pose proof (generateEOTSKeyPair_first_draw_below_n Secp256k1.getPublicKey
                Entropy.ones_then_zeros 0 1 2) as T.
  cbv zeta in T. apply T; [exact Hrej | reflexivity | lia].
Defined.

Lemma generateEOTSKeyPair_one :
  generateEOTSKeyPair Secp256k1.getPublicKey Entropy.one_to_four 1 0
  = Some (Ok Entropy.keyPair_one, 32%nat).
Proof. vm_compute. reflexivity. Qed.

Lemma generateEOTSKeyPair_key_range_witness :
  generateEOTSKeyPair Secp256k1.getPublicKey Entropy.one_to_four 1 0
  = Some (Ok Entropy.keyPair_one, 32%nat)
  /\ List.length Entropy.keyPair_one.(privateKey) = 32%nat
  /\ 0 <= bytesToNumber Entropy.keyPair_one.(privateKey) < CURVE.n
  /\ getPublicKey Secp256k1.getPublicKey (OfBytes Entropy.keyPair_one.(privateKey))
     = Ok Entropy.keyPair_one.(publicKey)
  /\ (0 + 32 <= 32)%nat.
Proof.
  split; [exact generateEOTSKeyPair_one |].
  apply (generateEOTSKeyPair_key_range Secp256k1.getPublicKey Entropy.one_to_four
           1 0 32 Entropy.keyPair_one).
  exact generateEOTSKeyPair_one.
Defined.

Lemma demonstrateNonceReuse_one_to_four :
  demonstrateNonceReuse Secp256k1.getPublicKey accepting_verify Sha256.sha256
    Entropy.one_to_four 1 0
  = Some (Ok Entropy.report).
Proof. vm_compute. reflexivity. Qed.

Lemma demonstrateNonceReuse_keys_match_witness :
  demonstrateNonceReuse Secp256k1.getPublicKey accepting_verify Sha256.sha256
    Entropy.one_to_four 1 0
  = Some (Ok Entropy.report)
  /\ Entropy.report.(keysMatch) = true
  /\ Entropy.report.(extractedPrivateKey) = Entropy.report.(originalPrivateKey)
  /\ String.length Entropy.report.(originalPrivateKey) = 64%nat
  /\ Entropy.report.(signatures).(report_sig1).(report_r)
     = Entropy.report.(signatures).(report_sig2).(report_r).
Proof.
  split; [exact demonstrateNonceReuse_one_to_four |].
  apply (demonstrateNonceReuse_keys_match Secp256k1.getPublicKey accepting_verify
           Sha256.sha256 Entropy.one_to_four 1 0 Entropy.report).
  exact demonstrateNonceReuse_one_to_four.
Defined.

Lemma sign_zero_nonce :
  sign key digest1 (Some (OfBytes (be_bytes 32 0))) = Throw "Invalid nonce generated".
Proof. vm_compute. reflexivity. Qed.

Lemma signEOTS_errors_witness :
  sign key digest1 (Some (OfBytes (be_bytes 32 0))) = Throw "Invalid nonce generated"
  /\ exists k,
       selectNonce Sha256.sha256 (asBytes key) (asBytes digest1)
         (Some (OfBytes (be_bytes 32 0))) = Ok k
       /\ (("Invalid nonce generated" = "Invalid nonce generated"
            /\ (bytesToNumber k = 0 \/ CURVE.n <= bytesToNumber k))
           \/ (0 < bytesToNumber k < CURVE.n
               /\ Secp256k1.getPublicKey k false = Throw "Invalid nonce generated")
           \/ ("Invalid nonce generated" = "Invalid signature: s is zero"
               /\ 0 < bytesToNumber k < CURVE.n
               /\ exists kPoint,
                    Secp256k1.getPublicKey k false = Ok kPoint
                    /\ (bytesToNumber (asBytes digest1)
                        + bytesToNumber (Uint8Array_slice kPoint 1 33)
                          * bytesToNumber (asBytes key)) mod CURVE.n = 0)).
Proof.
  split; [exact sign_zero_nonce |].
  apply (signEOTS_errors Secp256k1.getPublicKey Sha256.sha256 key digest1
           (Some (OfBytes (be_bytes 32 0))) "Invalid nonce generated").
  exact sign_zero_nonce.
Defined.

Lemma extract_order_point :
  extractPrivateKey order_sig1 order_sig2 digest1 digest2
  = Throw "Modular inverse does not exist".
Proof. vm_compute. reflexivity. Qed.

Lemma extractPrivateKey_errors_witness :
  extractPrivateKey order_sig1 order_sig2 digest1 digest2
  = Throw "Modular inverse does not exist"
  /\ (("Modular inverse does not exist"
       = "Signatures do not use the same nonce (r values are different)"
       /\ bytesToNumber order_sig1.(r) <> bytesToNumber order_sig2.(r))
      \/ ("Modular inverse does not exist" = "Signatures are identical"
          /\ bytesToNumber order_sig1.(r) = bytesToNumber order_sig2.(r)
          /\ bytesToNumber order_sig1.(s) = bytesToNumber order_sig2.(s))
      \/ ("Modular inverse does not exist" = "Cannot extract private key: s1 equals s2"
          /\ bytesToNumber order_sig1.(r) = bytesToNumber order_sig2.(r)
          /\ bytesToNumber order_sig1.(s) <> bytesToNumber order_sig2.(s)
          /\ (bytesToNumber order_sig1.(s) - bytesToNumber order_sig2.(s)) mod CURVE.n = 0)
      \/ ("Modular inverse does not exist" = "Modular inverse does not exist"
          /\ bytesToNumber order_sig1.(r) = bytesToNumber order_sig2.(r)
          /\ (bytesToNumber order_sig1.(s) - bytesToNumber order_sig2.(s)) mod CURVE.n <> 0
          /\ bytesToNumber order_sig1.(r) mod CURVE.n = 0)).
Proof.
  split; [exact extract_order_point |].
  pose proof (extractPrivateKey_errors order_sig1 order_sig2 digest1 digest2
                "Modular inverse does not exist") as T.
  cbv zeta in T. apply T. exact extract_order_point.
Defined.

(** * The component [r] is neither reduced nor checked

    The comment of [signEOTS] announces [r = (k * G).x mod n]; the code
    takes the 32 bytes of the x-coordinate as they are. The x-coordinate
    of a point is below the prime [p] of the field, and [p] is above [n]:
    where the coordinate is [n] or more, [signEOTS] returns an [r] that is
    not reduced, that [verifyEOTS] refuses, and that [extractPrivateKey]
    cannot invert when it is [n] itself. *)

Lemma length_be_bytes len : forall z, List.length (be_bytes len z) = len.
Proof.
  induction len as [|len IH]; intros z; [reflexivity |].
  cbn [be_bytes]. rewrite length_app, IH. simpl. lia.
Qed.

Lemma bytesToNumber_be_bytes len : forall z,
  bytesToNumber (be_bytes len z) = z mod 256 ^ Z.of_nat len.
Proof.
  induction len as [|len IH]; intros z.
  - change (256 ^ Z.of_nat 0) with 1. now rewrite Z.mod_1_r.
  - cbn [be_bytes]. rewrite bytesToNumber_snoc, IH, byteToZ_byteOfZ.
    rewrite Nat2Z.inj_succ, Z.pow_succ_r by lia.
    rewrite (Z.rem_mul_r z 256 (256 ^ Z.of_nat len)) by lia. ring.
Qed.

(** The coordinates of a point of the curve fit in 32 bytes. *)
Lemma on_curve_range px py :
  Secp256k1.on_curve (Secp256k1.Affine px py) = true ->
  0 <= px < 256 ^ Z.of_nat 32 /\ 0 <= py < 256 ^ Z.of_nat 32.
Proof.
  unfold Secp256k1.on_curve. intros H.
  apply andb_prop in H. destruct H as [H _].
  apply andb_prop in H. destruct H as [H Hy1].
  apply andb_prop in H. destruct H as [H Hy0].
  apply andb_prop in H. destruct H as [Hx0 Hx1].
  apply Z.leb_le in Hx0, Hy0. apply Z.ltb_lt in Hx1, Hy1.
  assert (Hp : Secp256k1.p < 256 ^ Z.of_nat 32) by reflexivity.
  lia.
Qed.

(** The bytes 1 to 32 of an uncompressed point are its x-coordinate. *)
Lemma slice_encode px py :
  Uint8Array_slice (Secp256k1.encode (Secp256k1.Affine px py) false) 1 33
  = be_bytes 32 px.
Proof.
  unfold Uint8Array_slice, Secp256k1.encode.
  change (skipn 1 (x04 :: be_bytes 32 px ++ be_bytes 32 py))
    with (be_bytes 32 px ++ be_bytes 32 py).
  change (33 - 1)%nat with 32%nat.
  rewrite firstn_app, (length_be_bytes 32), Nat.sub_diag, firstn_O, app_nil_r.
  apply firstn_all2. rewrite length_be_bytes. lia.
Qed.

Lemma verifyEOTS_refuses_large_r verify publicKey messageHash signature :
  CURVE.n <= bytesToNumber signature.(r) ->
  verifyEOTS verify publicKey messageHash signature = Ok false.
Proof.
  intros H. rewrite verifyEOTS_verdict. cbv zeta.
  destruct (Z.ltb_spec (bytesToNumber signature.(r)) CURVE.n); [lia |].
  now rewrite andb_false_r.
Qed.

(** [signEOTS] at a nonce in range whose point is [(px, py)]. *)
Lemma signEOTS_at_point getPublicKeySecp sha256 privateKey messageHash nonce k px py :
  selectNonce sha256 (asBytes privateKey) (asBytes messageHash) nonce = Ok k ->
  0 < bytesToNumber k < CURVE.n ->
  Secp256k1.on_curve (Secp256k1.Affine px py) = true ->
  getPublicKeySecp k false = Ok (Secp256k1.encode (Secp256k1.Affine px py) false) ->
  (bytesToNumber (asBytes messageHash) + px * bytesToNumber (asBytes privateKey))
    mod CURVE.n <> 0 ->
  exists sig,
    signEOTS getPublicKeySecp sha256 privateKey messageHash nonce = Ok sig
    /\ sig.(r) = be_bytes 32 px
    /\ bytesToNumber sig.(r) = px
    /\ bytesToNumber sig.(s)
       = sValue (bytesToNumber k) (bytesToNumber (asBytes messageHash)) px
           (bytesToNumber (asBytes privateKey)).
Proof.
  intros Hk Hrange Hon Hp Hs.
  destruct (on_curve_range px py Hon) as [Hx _].
  assert (Hnum : bytesToNumber (be_bytes 32 px) = px)
    by (rewrite bytesToNumber_be_bytes; apply Z.mod_small; exact Hx).
  rewrite (signEOTS_unfold _ _ _ _ _ _ Hk). cbv zeta.
  destruct (Z.geb_spec (bytesToNumber k) CURVE.n); [lia |].
  destruct (Z.eqb_spec (bytesToNumber k) 0); [lia |].
  cbn [orb]. rewrite Hp. cbn [bind]. rewrite slice_encode, Hnum.
  destruct (Z.eqb_spec (sValue (bytesToNumber k) (bytesToNumber (asBytes messageHash)) px
              (bytesToNumber (asBytes privateKey))) 0) as [Hz | Hnz].
  { exfalso. apply Hs. now apply (sValue_zero (bytesToNumber k)). }
  eexists. split; [reflexivity |]. cbn [r s]. repeat split; trivial.
  apply numberToBytes_spec; [lia | apply sValue_range].
Qed.

(** C4, at the failing input. For a nonce in range whose point has an
    x-coordinate [px] that is [n] or more, [signEOTS] returns a signature
    whose [r] is the 32 bytes of [px] itself: [r] is not the coordinate
    reduced into [[0, n)], no error is raised, also when the reduced value
    is 0, and [verifyEOTS] refuses the signature whatever the key, the
    digest and the library routine are. *)
Theorem signEOTS_does_not_reduce_r
  (getPublicKeySecp : list byte -> bool -> Result (list byte))
  (verify : list byte -> list byte -> list byte -> Result bool)
  (sha256 : list byte -> list byte)
  (privateKey messageHash : BytesLike) (nonce : option BytesLike)
  (k : list byte) (px py : Z) :
  selectNonce sha256 (asBytes privateKey) (asBytes messageHash) nonce = Ok k ->
  0 < bytesToNumber k < CURVE.n ->
  Secp256k1.on_curve (Secp256k1.Affine px py) = true ->
  getPublicKeySecp k false = Ok (Secp256k1.encode (Secp256k1.Affine px py) false) ->
  CURVE.n <= px ->
  (bytesToNumber (asBytes messageHash) + px * bytesToNumber (asBytes privateKey))
    mod CURVE.n <> 0 ->
  exists sig,
    signEOTS getPublicKeySecp sha256 privateKey messageHash nonce = Ok sig
    /\ sig.(r) = be_bytes 32 px
    /\ bytesToNumber sig.(r) = px
    /\ bytesToNumber sig.(r) <> px mod CURVE.n
    /\ (forall publicKey messageHash',
          verifyEOTS verify publicKey messageHash' sig = Ok false).
Proof.
  intros Hk Hrange Hon Hp Hge Hs.
  destruct (signEOTS_at_point _ _ _ _ _ _ _ _ Hk Hrange Hon Hp Hs)
    as (sig & Hsig & Hr & Hnum & _).
  exists sig. repeat split; trivial.
  - rewrite Hnum. pose proof CURVE_n_gt_1.
    pose proof (Z.mod_pos_bound px CURVE.n ltac:(lia)). lia.
  - intros publicKey messageHash'. apply verifyEOTS_refuses_large_r. lia.
Qed.

(** C1, at the failing input. For a key and two digests as the claim takes
    them, and a shared nonce in range whose point has an x-coordinate that
    is a multiple of [n] (on the curve this is [n] itself), [signEOTS]
    returns both signatures, with that coordinate as [r], and
    [extractPrivateKey] throws on the inverse of [r] instead of returning
    the key. *)
Theorem extractPrivateKey_fails_on_unreduced_r
  (getPublicKeySecp : list byte -> bool -> Result (list byte))
  (sha256 : list byte -> list byte)
  (privateKey nonce hash1 hash2 : BytesLike) (px py : Z) :
  let x := bytesToNumber (asBytes privateKey) in
  let k := bytesToNumber (asBytes nonce) in
  let h1 := bytesToNumber (asBytes hash1) in
  let h2 := bytesToNumber (asBytes hash2) in
  0 < x < CURVE.n -> 0 < k < CURVE.n -> h1 mod CURVE.n <> h2 mod CURVE.n ->
  Secp256k1.on_curve (Secp256k1.Affine px py) = true ->
  getPublicKeySecp (asBytes nonce) false
  = Ok (Secp256k1.encode (Secp256k1.Affine px py) false) ->
  px mod CURVE.n = 0 ->
  h1 mod CURVE.n <> 0 -> h2 mod CURVE.n <> 0 ->
  exists sig1 sig2,
    signEOTS getPublicKeySecp sha256 privateKey hash1 (Some nonce) = Ok sig1
    /\ signEOTS getPublicKeySecp sha256 privateKey hash2 (Some nonce) = Ok sig2
    /\ bytesToNumber sig1.(r) = px
    /\ sig2.(r) = sig1.(r)
    /\ extractPrivateKey sig1 sig2 hash1 hash2 = Throw "Modular inverse does not exist".
Proof.
  cbv zeta. intros Hx Hk Hh Hon Hp Hpx Hh1 Hh2.
  pose proof CURVE_n_gt_1 as Hn.
  assert (Hsel : forall h, selectNonce sha256 (asBytes privateKey) (asBytes h)
                     (Some nonce) = Ok (asBytes nonce))
    by (intros h; apply selectNonce_explicit; lia).
  assert (Hsum : forall h, h mod CURVE.n <> 0 ->
            (h + px * bytesToNumber (asBytes privateKey)) mod CURVE.n <> 0).
  { intros h Hne.
    rewrite <- Z.add_mod_idemp_r, <- Z.mul_mod_idemp_l, Hpx by lia.
    rewrite Z.mul_0_l, Z.mod_0_l, Z.add_0_r by lia. exact Hne. }
  destruct (signEOTS_at_point _ _ _ _ _ _ _ _ (Hsel hash1) Hk Hon Hp (Hsum _ Hh1))
    as (sig1 & Hs1 & Hr1 & Hn1 & Hv1).
  destruct (signEOTS_at_point _ _ _ _ _ _ _ _ (Hsel hash2) Hk Hon Hp (Hsum _ Hh2))
    as (sig2 & Hs2 & Hr2 & Hn2 & Hv2).
  exists sig1, sig2. repeat split; trivial; [congruence |].
  set (kn := bytesToNumber (asBytes nonce)) in *.
  set (xn := bytesToNumber (asBytes privateKey)) in *.
  set (h1 := bytesToNumber (asBytes hash1)) in *.
  set (h2 := bytesToNumber (asBytes hash2)) in *.
  assert (HkInv : eqm CURVE.n (Z.invmod kn CURVE.n * kn) 1) by now apply invmod_n.
  assert (E1 : eqm CURVE.n (bytesToNumber sig1.(s)) (Z.invmod kn CURVE.n * (h1 + px * xn))).
  { rewrite Hv1. unfold sValue. apply mod_eqm. }
  assert (E2 : eqm CURVE.n (bytesToNumber sig2.(s)) (Z.invmod kn CURVE.n * (h2 + px * xn))).
  { rewrite Hv2. unfold sValue. apply mod_eqm. }
  assert (Hd : (bytesToNumber sig1.(s) - bytesToNumber sig2.(s)) mod CURVE.n <> 0).
  { intros Hz. apply Hh.
    apply (same_s_same_digest CURVE.n kn (Z.invmod kn CURVE.n) xn px h1 h2
             (bytesToNumber sig1.(s)) (bytesToNumber sig2.(s)) HkInv E1 E2).
    unfold eqm.
    replace (bytesToNumber sig1.(s))
      with ((bytesToNumber sig1.(s) - bytesToNumber sig2.(s)) + bytesToNumber sig2.(s))
      by ring.
    rewrite <- Z.add_mod_idemp_l, Hz by lia. reflexivity. }
  assert (Hreq : bytesToNumber sig1.(r) = bytesToNumber sig2.(r)) by congruence.
  destruct (extractPrivateKey_unfold sig1 sig2 hash1 hash2 Hreq Hd) as [Hthrow _].
  apply Hthrow. now rewrite Hn1.
Qed.

(** ** The failing input

    The nonce at which the library of the repository returns the point
    with x-coordinate [n] is the discrete logarithm of that point: it
    exists, the point being on the curve, whose group has the prime order
    [n], and it is not known. The instances below take the library of the
    same curve with the base point [B], [2 * B] being that point, at the
    nonce 2. *)

Lemma double_half_order_point :
  Secp256k1.add Secp256k1.half_order_point Secp256k1.half_order_point
  = Secp256k1.order_point.
Proof. vm_compute; reflexivity. Qed.

Lemma half_order_point_on_curve :
  Secp256k1.on_curve Secp256k1.half_order_point = true.
Proof. vm_compute; reflexivity. Qed.

Lemma getPublicKeyOn_G privateKey isCompressed :
  Secp256k1.getPublicKeyOn Secp256k1.G privateKey isCompressed
  = Secp256k1.getPublicKey privateKey isCompressed.
Proof. reflexivity. Qed.

Lemma order_point_at_nonce_2 :
  Secp256k1.getPublicKeyOn Secp256k1.half_order_point (asBytes nonce) false
  = Ok (Secp256k1.encode Secp256k1.order_point false).
Proof. vm_compute; reflexivity. Qed.

Lemma signEOTS_does_not_reduce_r_witness :
  selectNonce Sha256.sha256 (asBytes key) (asBytes digest1) (Some nonce)
  = Ok (asBytes nonce)
  /\ (0 < bytesToNumber (asBytes nonce) < CURVE.n)
  /\ Secp256k1.on_curve Secp256k1.order_point = true
  /\ Secp256k1.getPublicKeyOn Secp256k1.half_order_point (asBytes nonce) false
     = Ok (Secp256k1.encode Secp256k1.order_point false)
  /\ CURVE.n <= CURVE.n
  /\ CURVE.n mod CURVE.n = 0
  /\ (bytesToNumber (asBytes digest1) + CURVE.n * bytesToNumber (asBytes key))
       mod CURVE.n <> 0
  /\ exists sig,
       sign_at_order_point key digest1 (Some nonce) = Ok sig
       /\ sig.(r) = be_bytes 32 CURVE.n
       /\ bytesToNumber sig.(r) = CURVE.n
       /\ bytesToNumber sig.(r) <> CURVE.n mod CURVE.n
       /\ (forall publicKey messageHash',
             verifyEOTS accepting_verify publicKey messageHash' sig = Ok false).
Proof.
  assert (Hsel : selectNonce Sha256.sha256 (asBytes key) (asBytes digest1) (Some nonce)
                 = Ok (asBytes nonce)) by (vm_compute; reflexivity).
  assert (Hk : 0 < bytesToNumber (asBytes nonce) < CURVE.n)
    by (split; vm_compute; reflexivity).
  assert (Hs : (bytesToNumber (asBytes digest1) + CURVE.n * bytesToNumber (asBytes key))
                 mod CURVE.n <> 0) by (vm_compute; discriminate).
  split; [exact Hsel | split; [exact Hk | split; [exact order_point_on_curve |]]].
  split; [exact order_point_at_nonce_2 | split; [apply Z.le_refl |]].
  split; [vm_compute; reflexivity | split; [exact Hs |]].
  exact (signEOTS_does_not_reduce_r
           (Secp256k1.getPublicKeyOn Secp256k1.half_order_point) accepting_verify
           Sha256.sha256 key digest1 (Some nonce) (asBytes nonce) CURVE.n _
           Hsel Hk order_point_on_curve order_point_at_nonce_2 (Z.le_refl _) Hs).
Defined.

Lemma extractPrivateKey_fails_on_unreduced_r_witness :
  (0 < bytesToNumber (asBytes key) < CURVE.n)
  /\ (0 < bytesToNumber (asBytes nonce) < CURVE.n)
  /\ bytesToNumber (asBytes digest1) mod CURVE.n
     <> bytesToNumber (asBytes digest2) mod CURVE.n
  /\ Secp256k1.on_curve Secp256k1.order_point = true
  /\ Secp256k1.getPublicKeyOn Secp256k1.half_order_point (asBytes nonce) false
     = Ok (Secp256k1.encode Secp256k1.order_point false)
  /\ CURVE.n mod CURVE.n = 0
  /\ bytesToNumber (asBytes digest1) mod CURVE.n <> 0
  /\ bytesToNumber (asBytes digest2) mod CURVE.n <> 0
  /\ exists sig1 sig2,
       sign_at_order_point key digest1 (Some nonce) = Ok sig1
       /\ sign_at_order_point key digest2 (Some nonce) = Ok sig2
       /\ bytesToNumber sig1.(r) = CURVE.n
       /\ sig2.(r) = sig1.(r)
       /\ extractPrivateKey sig1 sig2 digest1 digest2
          = Throw "Modular inverse does not exist".
Proof.
  assert (Hx : 0 < bytesToNumber (asBytes key) < CURVE.n)
    by (split; vm_compute; reflexivity).
  assert (Hk : 0 < bytesToNumber (asBytes nonce) < CURVE.n)
    by (split; vm_compute; reflexivity).
  assert (Hh : bytesToNumber (asBytes digest1) mod CURVE.n
               <> bytesToNumber (asBytes digest2) mod CURVE.n)
    by (vm_compute; discriminate).
  assert (Hn : CURVE.n mod CURVE.n = 0) by (vm_compute; reflexivity).
  assert (Hh1 : bytesToNumber (asBytes digest1) mod CURVE.n <> 0)
    by (vm_compute; discriminate).
  assert (Hh2 : bytesToNumber (asBytes digest2) mod CURVE.n <> 0)
    by (vm_compute; discriminate).
  split; [exact Hx | split; [exact Hk | split; [exact Hh |]]].
  split; [exact order_point_on_curve | split; [exact order_point_at_nonce_2 |]].
  split; [exact Hn | split; [exact Hh1 | split; [exact Hh2 |]]].
  exact (extractPrivateKey_fails_on_unreduced_r
           (Secp256k1.getPublicKeyOn Secp256k1.half_order_point) Sha256.sha256
           key nonce digest1 digest2 CURVE.n _
           Hx Hk Hh order_point_on_curve order_point_at_nonce_2 Hn Hh1 Hh2).
Defined.
